(** * Mexican Law MCP: ingestion pipeline (fetcher, text normaliser,
      structural extractor, assembler)

    A shallow embedding of [scripts/lib/fetcher.ts], [scripts/lib/parser.ts]
    and [scripts/ingest.ts].  JavaScript strings are sequences of UTF-16
    code units; regular expressions are kept as syntax trees and run by a
    backtracking matcher that follows the ECMAScript evaluation order
    (greedy quantifiers, ordered alternation, numbered captures). *)

From Stdlib Require Import List Bool Arith NArith ZArith Lia Ascii String.
Import ListNotations.

Set Implicit Arguments.
Set Warnings "-abstract-large-number".

(** ** JavaScript strings *)

Module JS.

(** A string is the list of its UTF-16 code units. *)
Definition jsstr := list N.

Fixpoint str_eqb (a b : jsstr) : bool :=
  match a, b with
  | [], [] => true
  | x :: a', y :: b' => N.eqb x y && str_eqb a' b'
  | _, _ => false
  end.

(** Source literals are written in UTF-8; [utf8] decodes one, two and three
    byte sequences into code units (every character used by the code base
    lies in the Basic Multilingual Plane). *)
Fixpoint utf8 (bs : list N) : jsstr :=
  match bs with
  | [] => []
  | b :: rest =>
      if (b <? 128)%N then b :: utf8 rest
      else if (b <? 224)%N then
        match rest with
        | b1 :: rest1 => ((b - 192) * 64 + (b1 - 128))%N :: utf8 rest1
        | [] => [b]
        end
      else
        match rest with
        | b1 :: b2 :: rest2 =>
            ((b - 224) * 4096 + (b1 - 128) * 64 + (b2 - 128))%N :: utf8 rest2
        | _ => [b]
        end
  end.

Definition js (s : string) : jsstr :=
  utf8 (map N_of_ascii (list_ascii_of_string s)).

Definition NL : N := 10.

(** [String.prototype.length] *)
Definition strlen (s : jsstr) : nat := List.length s.

(** ECMAScript WhiteSpace and LineTerminator code points: the set used by
    [trim] and by the [\s] class. *)
Definition is_space (c : N) : bool :=
  ((9 <=? c) && (c <=? 13) || (c =? 32) || (c =? 160) || (c =? 5760)
   || ((8192 <=? c) && (c <=? 8202)) || (c =? 8232) || (c =? 8233)
   || (c =? 8239) || (c =? 8287) || (c =? 12288) || (c =? 65279))%N.

Definition is_digit (c : N) : bool := ((48 <=? c) && (c <=? 57))%N.

Definition is_word (c : N) : bool :=
  (((65 <=? c) && (c <=? 90)) || ((97 <=? c) && (c <=? 122))
   || is_digit c || (c =? 95))%N.

Definition is_line_terminator (c : N) : bool :=
  ((c =? 10) || (c =? 13) || (c =? 8232) || (c =? 8233))%N.

Fixpoint trimStart (s : jsstr) : jsstr :=
  match s with
  | c :: s' => if is_space c then trimStart s' else s
  | [] => []
  end.

Definition trimEnd (s : jsstr) : jsstr := rev (trimStart (rev s)).

(** [String.prototype.trim] *)
Definition trim (s : jsstr) : jsstr := trimEnd (trimStart s).

(** Case conversion, tabulated for Basic Latin and Latin-1 Supplement (the
    blocks every pattern, keyword and law code of this code base is drawn
    from); other code units are left unchanged. *)
Definition upper1 (c : N) : N :=
  (if (97 <=? c) && (c <=? 122) then c - 32
   else if (224 <=? c) && (c <=? 254) && negb (c =? 247) then c - 32
   else if c =? 255 then 376
   else if c =? 181 then 924
   else c)%N.

Definition lower1 (c : N) : N :=
  (if (65 <=? c) && (c <=? 90) then c + 32
   else if (192 <=? c) && (c <=? 222) && negb (c =? 215) then c + 32
   else if c =? 376 then 255
   else c)%N.

(** [String.prototype.toUpperCase]: sharp s expands to two letters. *)
Definition toUpperCase (s : jsstr) : jsstr :=
  flat_map (fun c => if (c =? 223)%N then [83; 83]%N else [upper1 c]) s.

(** [String.prototype.toLowerCase] *)
Definition toLowerCase (s : jsstr) : jsstr := map lower1 s.

(** Canonicalize of the ECMAScript pattern semantics (non-unicode mode,
    ignoreCase): the upper-case mapping of a single code unit, except that a
    non-ASCII unit never folds onto an ASCII one. *)
Definition canon (c : N) : N :=
  let cu := upper1 c in
  if ((128 <=? c) && (cu <? 128))%N then c else cu.

(** [String.prototype.split('\n')]: always at least one piece. *)
Fixpoint split_nl (s : jsstr) : list jsstr :=
  match s with
  | [] => [[]]
  | c :: s' =>
      if (c =? NL)%N then [] :: split_nl s'
      else match split_nl s' with
           | l :: ls => (c :: l) :: ls
           | [] => [[c]]
           end
  end.

(** [Array.prototype.join('\n')] *)
Fixpoint join_nl (ls : list jsstr) : jsstr :=
  match ls with
  | [] => []
  | [l] => l
  | l :: ls' => l ++ NL :: join_nl ls'
  end.

(** [substring(a, b)] for [0 <= a <= b] and [substring(a)]. *)
Definition substring (a b : nat) (s : jsstr) : jsstr :=
  firstn (b - a) (skipn a s).

Definition substringFrom (a : nat) (s : jsstr) : jsstr := skipn a s.

(** [Array.prototype.slice(a, b)] for [0 <= a], [0 <= b]. *)
Definition slice {A} (a b : nat) (l : list A) : list A :=
  firstn (b - a) (skipn a l).

Fixpoint startsWith (p s : jsstr) : bool :=
  match p, s with
  | [], _ => true
  | x :: p', y :: s' => N.eqb x y && startsWith p' s'
  | _ :: _, [] => false
  end.

(** [String.prototype.includes] *)
Fixpoint includes (p s : jsstr) : bool :=
  startsWith p s ||
  match s with
  | [] => false
  | _ :: s' => includes p s'
  end.

(** Decimal rendering of a non-negative integer, as template literals and
    [String(n)] produce it. *)
Fixpoint digits_fuel (fuel n : nat) (acc : jsstr) : jsstr :=
  match fuel with
  | O => acc
  | S f =>
      let d := (48 + N.of_nat (n mod 10))%N in
      if n <? 10 then d :: acc else digits_fuel f (n / 10) (d :: acc)
  end.

Definition showNat (n : nat) : jsstr := digits_fuel (S n) n [].

End JS.

(** ** Regular expressions *)

Module Regex.
Import JS.

(** Members of a character class. *)
Inductive citem : Type :=
| CChar (c : N)
| CRange (lo hi : N)
| CSpace
| CDigit
| CWord.

(** Pattern syntax.  [Star true r] is the greedy [r*], [Star false r] the
    lazy [r*?]; [Group i r] is the [i]-th capturing parenthesis. *)
Inductive regex : Type :=
| Eps
| Char (c : N)
| Dot
| Class (neg : bool) (items : list citem)
| Seq (r1 r2 : regex)
| Alt (r1 r2 : regex)
| Star (greedy : bool) (r : regex)
| Group (i : nat) (r : regex)
| Bol
| Eol
| WordB.

(** Derived forms *)
Definition plus (r : regex) : regex := Seq r (Star true r).
Definition star (r : regex) : regex := Star true r.
Definition opt (r : regex) : regex := Alt r Eps.

Fixpoint seqs (rs : list regex) : regex :=
  match rs with
  | [] => Eps
  | [r] => r
  | r :: rs' => Seq r (seqs rs')
  end.

Fixpoint alts (rs : list regex) : regex :=
  match rs with
  | [] => Eps
  | [r] => r
  | r :: rs' => Alt r (alts rs')
  end.

(** A literal run of characters. *)
Definition lit (s : string) : regex := seqs (map Char (js s)).

(** A class listing single characters. *)
Definition oneOf (s : string) : regex := Class false (map CChar (js s)).
Definition noneOf (s : string) : regex := Class true (map CChar (js s)).

Definition space : regex := Class false [CSpace].
Definition digit : regex := Class false [CDigit].

(** [r{n}] and [r{n,}] and [r{n,m}] *)
Fixpoint times (n : nat) (r : regex) : regex :=
  match n with
  | O => Eps
  | S n' => Seq r (times n' r)
  end.

Definition atLeast (n : nat) (r : regex) : regex := Seq (times n r) (star r).

Fixpoint upTo (n : nat) (r : regex) : regex :=
  match n with
  | O => Eps
  | S n' => opt (Seq r (upTo n' r))
  end.

Definition between (n m : nat) (r : regex) : regex :=
  Seq (times n r) (upTo (m - n) r).

(** Matcher state: the code unit before the cursor, the input after it,
    the cursor index and the captures recorded so far. *)
Record mstate : Type := MState {
  m_prev : option N;
  m_rest : jsstr;
  m_pos : nat;
  m_caps : list (nat * (nat * nat))
}.

Definition advance (c : N) (rest : jsstr) (st : mstate) : mstate :=
  MState (Some c) rest (S (m_pos st)) (m_caps st).

Definition set_cap (i a b : nat) (st : mstate) : mstate :=
  MState (m_prev st) (m_rest st) (m_pos st) ((i, (a, b)) :: m_caps st).

Definition in_range (lo hi c : N) : bool := ((lo <=? c) && (c <=? hi))%N.

Definition char_matches (ic : bool) (c x : N) : bool :=
  if ic then N.eqb (canon c) (canon x) else N.eqb c x.

Definition item_matches (ic : bool) (it : citem) (x : N) : bool :=
  match it with
  | CChar c => char_matches ic c x
  | CRange lo hi =>
      if ic then in_range lo hi x || in_range lo hi (upper1 x)
                || in_range lo hi (lower1 x)
      else in_range lo hi x
  | CSpace => is_space x
  | CDigit => is_digit x
  | CWord => is_word x
  end.

Definition class_matches (ic neg : bool) (items : list citem) (x : N) : bool :=
  xorb neg (existsb (fun it => item_matches ic it x) items).

Definition word_at (o : option N) : bool :=
  match o with Some c => is_word c | None => false end.

(** The backtracking matcher, in continuation-passing style: [k] is the
    rest of the pattern, and a [None] from it makes the matcher try its
    next choice.  An iteration of a quantifier that consumes nothing is
    rejected, as RepeatMatcher does. *)
Fixpoint rmatch {R : Type} (ic : bool) (r : regex) (st : mstate)
    (k : mstate -> option R) {struct r} : option R :=
  match r with
  | Eps => k st
  | Char c =>
      match m_rest st with
      | x :: xs => if char_matches ic c x then k (advance x xs st) else None
      | [] => None
      end
  | Dot =>
      match m_rest st with
      | x :: xs => if is_line_terminator x then None else k (advance x xs st)
      | [] => None
      end
  | Class neg items =>
      match m_rest st with
      | x :: xs =>
          if class_matches ic neg items x then k (advance x xs st) else None
      | [] => None
      end
  | Seq r1 r2 => rmatch ic r1 st (fun st' => rmatch ic r2 st' k)
  | Alt r1 r2 =>
      match rmatch ic r1 st k with
      | Some v => Some v
      | None => rmatch ic r2 st k
      end
  | Star greedy r' =>
      (fix loop (fuel : nat) (s : mstate) {struct fuel} : option R :=
         match fuel with
         | O => k s
         | S fuel' =>
             let again :=
               rmatch ic r' s
                 (fun s' => if m_pos s <? m_pos s' then loop fuel' s' else None) in
             if greedy then
               match again with
               | Some v => Some v
               | None => k s
               end
             else
               match k s with
               | Some v => Some v
               | None => again
               end
         end) (S (List.length (m_rest st))) st
  | Group i r' =>
      rmatch ic r' st (fun st' => k (set_cap i (m_pos st) (m_pos st') st'))
  | Bol => if m_pos st =? 0 then k st else None
  | Eol => match m_rest st with [] => k st | _ :: _ => None end
  | WordB =>
      if xorb (word_at (m_prev st)) (word_at (hd_error (m_rest st)))
      then k st else None
  end.

(** A successful match: where it starts, where it ends, and its captures. *)
Record found : Type := Found {
  f_start : nat;
  f_end : nat;
  f_caps : list (nat * (nat * nat))
}.

Definition match_here (ic : bool) (r : regex) (prev : option N)
    (rest : jsstr) (pos : nat) : option found :=
  match rmatch ic r (MState prev rest pos []) (fun st => Some st) with
  | Some st => Some (Found pos (m_pos st) (m_caps st))
  | None => None
  end.

(** The leftmost match at or after the cursor. *)
Fixpoint search_from (ic : bool) (r : regex) (prev : option N)
    (rest : jsstr) (pos : nat) : option found :=
  match match_here ic r prev rest pos with
  | Some f => Some f
  | None =>
      match rest with
      | [] => None
      | c :: rest' => search_from ic r (Some c) rest' (S pos)
      end
  end.

(** [RegExp.prototype.exec] / [String.prototype.match] without the g flag *)
Definition exec (ic : bool) (r : regex) (s : jsstr) : option found :=
  search_from ic r None s 0.

(** [RegExp.prototype.test] *)
Definition test (ic : bool) (r : regex) (s : jsstr) : bool :=
  match exec ic r s with Some _ => true | None => false end.

(** [String.prototype.search]: [None] stands for -1. *)
Definition search (ic : bool) (r : regex) (s : jsstr) : option nat :=
  option_map f_start (exec ic r s).

Fixpoint cap_lookup (i : nat) (caps : list (nat * (nat * nat)))
  : option (nat * nat) :=
  match caps with
  | [] => None
  | (j, ab) :: caps' => if i =? j then Some ab else cap_lookup i caps'
  end.

(** The text of capture [i] ([m[i]]); the empty string when the group did
    not take part in the match. *)
Definition group (s : jsstr) (f : found) (i : nat) : jsstr :=
  match cap_lookup i (f_caps f) with
  | Some (a, b) => substring a b s
  | None => []
  end.

(** The whole matched text ([m[0]]). *)
Definition whole (s : jsstr) (f : found) : jsstr :=
  substring (f_start f) (f_end f) s.

(** All matches of a g-flagged pattern, as the loop
    [while ((m = re.exec(s)) !== null)] visits them: each search resumes
    where the previous match ended. [skip] counts the code units still
    covered by the previous match.  Every pattern the sources run this way
    consumes at least one code unit, so the case of an empty match, on
    which the source loop would stay at the same index, does not arise. *)
Fixpoint exec_all_from (ic : bool) (r : regex) (prev : option N)
    (rest : jsstr) (pos skip : nat) : list found :=
  match rest with
  | [] =>
      match skip with
      | O => match match_here ic r prev [] pos with
             | Some f => [f]
             | None => []
             end
      | S _ => []
      end
  | c :: rest' =>
      match skip with
      | S sk => exec_all_from ic r (Some c) rest' (S pos) sk
      | O =>
          match match_here ic r prev rest pos with
          | Some f =>
              f :: exec_all_from ic r (Some c) rest' (S pos)
                     (pred (f_end f - pos))
          | None => exec_all_from ic r (Some c) rest' (S pos) 0
          end
      end
  end.

Definition exec_all (ic : bool) (r : regex) (s : jsstr) : list found :=
  exec_all_from ic r None s 0 0.

(** [String.prototype.replace] with a g-flagged pattern; [repl] builds the
    replacement text from a match. *)
Fixpoint replace_from (ic : bool) (r : regex) (repl : found -> jsstr)
    (prev : option N) (rest : jsstr) (pos skip : nat) : jsstr :=
  match rest with
  | [] =>
      match skip with
      | O => match match_here ic r prev [] pos with
             | Some f => repl f
             | None => []
             end
      | S _ => []
      end
  | c :: rest' =>
      match skip with
      | S sk => replace_from ic r repl (Some c) rest' (S pos) sk
      | O =>
          match match_here ic r prev rest pos with
          | Some f =>
              if f_end f =? pos
              then repl f ++ c :: replace_from ic r repl (Some c) rest' (S pos) 0
              else repl f ++
                   replace_from ic r repl (Some c) rest' (S pos)
                     (pred (f_end f - pos))
          | None => c :: replace_from ic r repl (Some c) rest' (S pos) 0
          end
      end
  end.

Definition replaceAll (ic : bool) (r : regex) (repl : found -> jsstr)
    (s : jsstr) : jsstr :=
  replace_from ic r repl None s 0 0.

(** [String.prototype.replace] with a pattern without the g flag: only the
    leftmost match is replaced. *)
Definition replaceFirst (ic : bool) (r : regex) (repl : found -> jsstr)
    (s : jsstr) : jsstr :=
  match exec ic r s with
  | Some f => firstn (f_start f) s ++ repl f ++ skipn (f_end f) s
  | None => s
  end.

End Regex.

(** ** Parser data model ([scripts/lib/parser.ts]) *)

Import JS Regex.

Inductive LawStatus : Type :=
| in_force
| amended
| repealed
| not_yet_in_force.

Module LawIndexEntry.
Record t : Type := Build {
  id : jsstr;
  code : jsstr;
  title : jsstr;
  titleEn : option jsstr;
  shortName : jsstr;
  status : LawStatus;
  issuedDate : jsstr;
  inForceDate : jsstr;
  url : jsstr;
  pdfUrl : option jsstr;
  docUrl : option jsstr;
  description : option jsstr
}.
End LawIndexEntry.

Module ParsedProvision.
Record t : Type := Build {
  provision_ref : jsstr;
  chapter : option jsstr;
  section : jsstr;
  title : jsstr;
  content : jsstr
}.
End ParsedProvision.

Module ParsedDefinition.
Record t : Type := Build {
  term : jsstr;
  definition : jsstr;
  source_provision : option jsstr
}.
End ParsedDefinition.

Module ParsedLaw.
Record t : Type := Build {
  id : jsstr;
  title : jsstr;
  title_en : option jsstr;
  short_name : jsstr;
  status : LawStatus;
  issued_date : jsstr;
  in_force_date : jsstr;
  url : jsstr;
  description : option jsstr;
  provisions : list ParsedProvision.t;
  definitions : list ParsedDefinition.t
}.
End ParsedLaw.

(** [x || undefined] on a string: the empty string is falsy. *)
Definition orUndefined (s : jsstr) : option jsstr :=
  match s with [] => None | _ => Some s end.

(** [a ?? b] *)
Definition nullish {A} (a : option A) (b : A) : A :=
  match a with Some x => x | None => b end.

(** ** Patterns of the parser

    Each pattern is quoted from the source above its syntax tree; where the
    source text has a star next to a parenthesis, the quotation separates
    them by a blank. *)

Module Pat.

(** [[\s\S]]: any code unit. *)
Definition anyChar : regex := Class true [].

(** [<[^>]*>] repeated: [(?:<[^>]*>)*] *)
Definition tags : regex :=
  star (seqs [lit "<"; star (noneOf ">"); lit ">"]).

(** [[\d]+(?:\s*(?:Bis|Ter|Qu[aá]ter|Quintus|Sextus|Septimus)\s*\d* )?(?:\s*[oa]\.?)?] *)
Definition articleNum : regex :=
  seqs [ plus digit;
         opt (seqs [ star space;
                     alts [ lit "Bis"; lit "Ter";
                            seqs [lit "Qu"; oneOf "aá"; lit "ter"];
                            lit "Quintus"; lit "Sextus"; lit "Septimus" ];
                     star space; star digit ]);
         opt (seqs [star space; oneOf "oa"; opt (lit ".")]) ].

(** [/^\s*Art[ií]culo\s+(...)\s*[\.\-]/i] *)
Definition articleStartRe : regex :=
  seqs [ Bol; star space; lit "Art"; oneOf "ií"; lit "culo"; plus space;
         Group 1 articleNum; star space; oneOf ".-" ].

(** [T[IÍ]TULO|CAP[IÍ]TULO|SECCI[OÓ]N] *)
Definition headerWord : regex :=
  alts [ seqs [lit "T"; oneOf "IÍ"; lit "TULO"];
         seqs [lit "CAP"; oneOf "IÍ"; lit "TULO"];
         seqs [lit "SECCI"; oneOf "OÓ"; lit "N"] ].

(** [/^\s*(T[IÍ]TULO|CAP[IÍ]TULO|SECCI[OÓ]N)\s+(.+)/i] *)
Definition chapterRe : regex :=
  seqs [ Bol; star space; Group 1 headerWord; plus space; Group 2 (plus Dot) ].

(** [TRANSITORIOS?|ART[IÍ]CULOS?\s+TRANSITORIOS?] *)
Definition transitoryWord : regex :=
  alts [ seqs [lit "TRANSITORIO"; opt (lit "S")];
         seqs [ lit "ART"; oneOf "IÍ"; lit "CULO"; opt (lit "S"); plus space;
                lit "TRANSITORIO"; opt (lit "S") ] ].

(** [/^\s*(TRANSITORIOS?|ART[IÍ]CULOS?\s+TRANSITORIOS?)\s*$/i] *)
Definition transitoryRe : regex :=
  seqs [ Bol; star space; Group 1 transitoryWord; star space; Eol ].

(** [/\n\s*(TRANSITORIOS?|ART[IÍ]CULOS?\s+TRANSITORIOS?)\s*\n/i] *)
Definition transitorySectionRe : regex :=
  seqs [ Char NL; star space; Group 1 transitoryWord; star space; Char NL ].

(** [PRIMERO|SEGUNDO|...|D[EÉ]CIMO|[ÚU]NICO] *)
Definition ordinalWord : regex :=
  alts [ lit "PRIMERO"; lit "SEGUNDO"; lit "TERCERO"; lit "CUARTO";
         lit "QUINTO"; lit "SEXTO"; seqs [lit "S"; oneOf "EÉ"; lit "PTIMO"];
         lit "OCTAVO"; lit "NOVENO"; seqs [lit "D"; oneOf "EÉ"; lit "CIMO"];
         seqs [oneOf "ÚU"; lit "NICO"] ].

(** [/^\s*(?:Art[ií]culo\s+)?(?:PRIMERO|...|[ÚU]NICO)\s*[\.\-]/i] *)
Definition transRe : regex :=
  seqs [ Bol; star space;
         opt (seqs [lit "Art"; oneOf "ií"; lit "culo"; plus space]);
         ordinalWord; star space; oneOf ".-" ].

(** [/(\d+)\s*[oa]\.?/g] *)
Definition ordinalSuffixRe : regex :=
  seqs [ Group 1 (plus digit); star space; oneOf "oa"; opt (lit ".") ].

(** [/\s+/g] *)
Definition spacesRe : regex := plus space.

(** [/^Art[ií]culo\s+[\d\w\s.]+[\.\-]\s*([^.\n]+\.)/i]; [nl] tells whether
    the captured sentence excludes line feeds (plain-text variant) or not
    (markup variant, [([^.]+\.)]). *)
Definition titleRe (nl : bool) : regex :=
  seqs [ Bol; lit "Art"; oneOf "ií"; lit "culo"; plus space;
         plus (Class false [CDigit; CWord; CSpace; CChar 46]);
         oneOf ".-"; star space;
         Group 1 (seqs [ plus (Class true
                                 (CChar 46 :: if nl then [CChar NL] else []));
                         lit "." ]) ].

(** [/se\s+(?:entender[áa]|entiende)\s+por|Para\s+(?:los\s+)?efectos\s+de/i] *)
Definition definitionCueRe : regex :=
  Alt (seqs [ lit "se"; plus space;
              alts [seqs [lit "entender"; oneOf "áa"]; lit "entiende"];
              plus space; lit "por" ])
      (seqs [ lit "Para"; plus space; opt (seqs [lit "los"; plus space]);
              lit "efectos"; plus space; lit "de" ]).

(** [/([IVXLC]+)\.\s*([^:]+):\s*([^;]+(?:;|$))/g] *)
Definition defRe : regex :=
  seqs [ Group 1 (plus (oneOf "IVXLC")); lit "."; star space;
         Group 2 (plus (noneOf ":")); lit ":"; star space;
         Group 3 (seqs [plus (noneOf ";"); Alt (lit ";") Eol]) ].

(** [/;$/] *)
Definition trailingSemicolonRe : regex := Seq (lit ";") Eol.

(** [/\n\s*\n\s*\n/g] *)
Definition tripleNewlineRe : regex :=
  seqs [ Char NL; star space; Char NL; star space; Char NL ].

(** [/[ \t]{3,}/g] *)
Definition wideSpaceRe : regex := atLeast 3 (Class false [CChar 32; CChar 9]).

(** [/\n{4,}/g] *)
Definition blankRunRe : regex := atLeast 4 (Char NL).

(** Line filters of [cleanPdfText]. *)

(** [/^CÁMARA DE DIPUTADOS/i] *)
Definition camaraRe : regex := seqs [Bol; lit "CÁMARA DE DIPUTADOS"].

(** [/^Secretar[ií]a\s+(General|de\s+Servicios\s+Parlamentarios)/i] *)
Definition secretariaRe : regex :=
  seqs [ Bol; lit "Secretar"; oneOf "ií"; lit "a"; plus space;
         Group 1 (Alt (lit "General")
                      (seqs [ lit "de"; plus space; lit "Servicios";
                              plus space; lit "Parlamentarios" ])) ].

(** [/^Última\s+Reforma\s+DOF/i] *)
Definition ultimaReformaRe : regex :=
  seqs [ Bol; lit "Última"; plus space; lit "Reforma"; plus space; lit "DOF" ].

(** [/^\d{1,4}\s+de\s+\d{1,4}$/] *)
Definition pageNumberRe : regex :=
  seqs [ Bol; between 1 4 digit; plus space; lit "de"; plus space;
         between 1 4 digit; Eol ].

(** [/^(?:Párrafo|Art[ií]culo|Fracción|Inciso|Numeral|Apartado|Base|Secci[oó]n)\s+(?:reformad|adicionad|derogad|abrogad|publicad)/i] *)
Definition reformNoteRe : regex :=
  seqs [ Bol;
         alts [ lit "Párrafo"; seqs [lit "Art"; oneOf "ií"; lit "culo"];
                lit "Fracción"; lit "Inciso"; lit "Numeral"; lit "Apartado";
                lit "Base"; seqs [lit "Secci"; oneOf "oó"; lit "n"] ];
         plus space;
         alts [ lit "reformad"; lit "adicionad"; lit "derogad";
                lit "abrogad"; lit "publicad" ] ].

(** [/^Denominaci[oó]n\s+(?:del|de\s+la|de\s+los)?\s*(?:Cap[ií]tulo|T[ií]tulo|Secci[oó]n)\s+(?:reformad|adicionad)/i] *)
Definition denominacionRe : regex :=
  seqs [ Bol; lit "Denominaci"; oneOf "oó"; lit "n"; plus space;
         opt (alts [ lit "del"; seqs [lit "de"; plus space; lit "la"];
                     seqs [lit "de"; plus space; lit "los"] ]);
         star space;
         alts [ seqs [lit "Cap"; oneOf "ií"; lit "tulo"];
                seqs [lit "T"; oneOf "ií"; lit "tulo"];
                seqs [lit "Secci"; oneOf "oó"; lit "n"] ];
         plus space; alts [lit "reformad"; lit "adicionad"] ].

(** [/^(?:Fe\s+de\s+erratas|Nota\s+de\s+vigencia)\b/i] *)
Definition erratasRe : regex :=
  seqs [ Bol;
         Alt (seqs [lit "Fe"; plus space; lit "de"; plus space; lit "erratas"])
             (seqs [lit "Nota"; plus space; lit "de"; plus space; lit "vigencia"]);
         WordB ].

(** [/^\((?:Reformad|Adicionad|Derogad|Abrogad)/i] *)
Definition parenNoteRe : regex :=
  seqs [ Bol; lit "(";
         alts [lit "Reformad"; lit "Adicionad"; lit "Derogad"; lit "Abrogad"] ].

(** [/^[A-ZÁÉÍÓÚÑÜ\s,.\-()]+$/] *)
Definition capsLineRe : regex :=
  seqs [ Bol;
         plus (Class false
                 (CRange 65 90 :: map CChar (js "ÁÉÍÓÚÑÜ") ++
                  CSpace :: map CChar (js ",.-()")));
         Eol ].

End Pat.

(** ** Text normaliser and structural extractor (plain-text path) *)

Definition SP : N := 32.

(** [normalizeArticleRef] *)
Definition normalizeArticleRef (raw : jsstr) : jsstr :=
  let ref := trim (toLowerCase raw) in
  let ref := replaceAll false Pat.ordinalSuffixRe (fun m => group ref m 1) ref in
  let ref := replaceAll false Pat.spacesRe (fun _ => []) ref in
  if startsWith (js "art") ref then ref else js "art" ++ ref.

(** The line filter of the first loop of [cleanPdfText]: [Some l] is the
    line pushed onto [cleaned], [None] a skipped line. *)
Definition skipLine (trimmed : jsstr) : bool :=
  test true Pat.camaraRe trimmed
  || test true Pat.secretariaRe trimmed
  || test true Pat.ultimaReformaRe trimmed
  || test false Pat.pageNumberRe trimmed
  || test true Pat.reformNoteRe trimmed
  || test true Pat.denominacionRe trimmed
  || test true Pat.erratasRe trimmed
  || test true Pat.parenNoteRe trimmed.

Definition cleanLine (line : jsstr) : option jsstr :=
  let trimmed := trim line in
  if strlen trimmed =? 0 then Some []
  else if skipLine trimmed then None
  else Some line.

Fixpoint cleanLines (lines : list jsstr) : list jsstr :=
  match lines with
  | [] => []
  | l :: ls =>
      match cleanLine l with
      | Some l' => l' :: cleanLines ls
      | None => cleanLines ls
      end
  end.

(** The test guarding [capsLineCount[t]++]. *)
Definition isCapsLine (t : jsstr) : bool :=
  (20 <? strlen t) && str_eqb t (toUpperCase t) && test false Pat.capsLineRe t.

(** [capsLineCount[t] = (capsLineCount[t] || 0) + 1] on an object used as a
    map, kept in insertion order as [Object.entries] lists it (a key passes
    [isCapsLine], so it holds no digit and no lower-case letter: it is
    neither an array index nor the name of an inherited property). *)
Fixpoint bump (t : jsstr) (counts : list (jsstr * nat)) : list (jsstr * nat) :=
  match counts with
  | [] => [(t, 1)]
  | (k, n) :: rest =>
      if str_eqb k t then (k, S n) :: rest else (k, n) :: bump t rest
  end.

(** The body of the loop [for (const line of cleaned)]. *)
Definition countStep (counts : list (jsstr * nat)) (line : jsstr)
  : list (jsstr * nat) :=
  let t := trim line in
  if isCapsLine t then bump t counts else counts.

Definition countCapsLines (cleaned : list jsstr) : list (jsstr * nat) :=
  fold_left countStep cleaned [].

Definition dropRepeated (result : jsstr) (entry : jsstr * nat) : jsstr :=
  let '(capsLine, count) := entry in
  if 5 <=? count
  then join_nl (filter (fun l => negb (str_eqb (trim l) capsLine))
                       (split_nl result))
  else result.

(** [cleanPdfText] *)
Definition cleanPdfText (text : jsstr) : jsstr :=
  let lines := split_nl text in
  let cleaned := cleanLines lines in
  let result := join_nl cleaned in
  let capsLineCount := countCapsLines cleaned in
  let result := fold_left dropRepeated capsLineCount result in
  replaceAll false Pat.blankRunRe (fun _ => [NL; NL; NL]) result.

Module ArticleBlock.
Record t : Type := Build {
  num : jsstr;
  startLine : nat;
  chapter : jsstr
}.
End ArticleBlock.

(** Loop state of the line scan of [extractArticlesFromText];
    [transitoryStart = None] stands for -1. *)
Record scanState : Type := ScanState {
  articleBlocks : list ArticleBlock.t;
  currentChapter : jsstr;
  transitoryStart : option nat
}.

(** The label an article-marker line carries: [articleMatch[1].trim()] of
    [line.match(articleStartRe)]. *)
Definition articleLabel (line : jsstr) : option jsstr :=
  match exec true Pat.articleStartRe line with
  | Some m => Some (trim (group line m 1))
  | None => None
  end.

(** [text.length > n ? text.substring(0, n) : text] *)
Definition cap (n : nat) (text : jsstr) : jsstr :=
  if n <? strlen text then substring 0 n text else text.

(** The chapter context a header line sets: the keyword in upper case, a
    blank, the rest of the line trimmed; at most 200 code units. *)
Definition headerLabel (line : jsstr) : option jsstr :=
  match exec true Pat.chapterRe line with
  | Some m =>
      Some (cap 200 (toUpperCase (group line m 1) ++ SP :: trim (group line m 2)))
  | None => None
  end.

Definition scanLine (i : nat) (line : jsstr) (st : scanState) : scanState :=
  match headerLabel line with
  | Some c => ScanState (articleBlocks st) c (transitoryStart st)
  | None =>
      if test true Pat.transitoryRe line
      then ScanState (articleBlocks st) (currentChapter st) (Some i)
      else
        match transitoryStart st with
        | Some _ => st
        | None =>
            match articleLabel line with
            | Some num =>
                ScanState
                  (articleBlocks st ++
                   [ArticleBlock.Build num i (currentChapter st)])
                  (currentChapter st) None
            | None => st
            end
        end
  end.

Fixpoint scanLines (i : nat) (lines : list jsstr) (st : scanState) : scanState :=
  match lines with
  | [] => st
  | l :: ls => scanLines (S i) ls (scanLine i l st)
  end.

(** The definition loop shared by both extractors. *)
Definition definitionOf (text ref : jsstr) (dm : found)
  : option ParsedDefinition.t :=
  let term := trim (group text dm 2) in
  let d := trim (group text dm 3) in
  let definition := trim (replaceFirst false Pat.trailingSemicolonRe (fun _ => []) d) in
  if (2 <? strlen term) && (strlen term <? 100) && (5 <? strlen definition)
  then Some (ParsedDefinition.Build term (term ++ js ": " ++ definition) (Some ref))
  else None.

Fixpoint somes {A} (l : list (option A)) : list A :=
  match l with
  | [] => []
  | Some x :: l' => x :: somes l'
  | None :: l' => somes l'
  end.

Definition extractDefinitions (text ref : jsstr) : list ParsedDefinition.t :=
  if test true Pat.definitionCueRe text
  then somes (map (definitionOf text ref) (exec_all false Pat.defRe text))
  else [].

Definition articleTitle (nl : bool) (text : jsstr) : jsstr :=
  match exec true (Pat.titleRe nl) text with
  | Some m => cap 120 (trim (group text m 1))
  | None => []
  end.

(** The text of block [i]: its lines up to the next block (or the
    transitory marker, or the end), joined, tidied and capped. *)
Definition articleText (lines : list jsstr) (blocks : list ArticleBlock.t)
    (transitoryStart : option nat) (i : nat) (block : ArticleBlock.t) : jsstr :=
  let endLine :=
    match nth_error blocks (S i) with
    | Some next => ArticleBlock.startLine next
    | None => match transitoryStart with
              | Some t => t
              | None => List.length lines
              end
    end in
  let text := trim (join_nl (slice (ArticleBlock.startLine block) endLine lines)) in
  let text := replaceAll false Pat.tripleNewlineRe (fun _ => [NL; NL]) text in
  let text := replaceAll false Pat.wideSpaceRe (fun _ => [SP; SP]) text in
  let text := trim text in
  cap 8000 text.

(** One iteration of the second loop of [extractArticlesFromText]: the
    provision and the definitions pushed for block [i], or [None] when the
    iteration is left by [continue]. *)
Definition articleOfBlock (lines : list jsstr) (blocks : list ArticleBlock.t)
    (transitoryStart : option nat) (i : nat) (block : ArticleBlock.t)
  : option (ParsedProvision.t * list ParsedDefinition.t) :=
  let text := articleText lines blocks transitoryStart i block in
  if strlen text <? 15 then None
  else
    let ref := normalizeArticleRef (ArticleBlock.num block) in
    let sectionNum :=
      trim (replaceAll false Pat.spacesRe (fun _ => [SP]) (ArticleBlock.num block)) in
    let title := articleTitle true text in
    Some (ParsedProvision.Build ref (orUndefined (ArticleBlock.chapter block))
            sectionNum title text,
          extractDefinitions text ref).

(** [for (let i = 0; i < xs.length; i++)] with the index made explicit. *)
Definition indexed {A} (l : list A) : list (nat * A) :=
  combine (seq 0 (List.length l)) l.

(** [extractArticlesFromText] *)
Definition extractArticlesFromText (text : jsstr)
  : list ParsedProvision.t * list ParsedDefinition.t :=
  let lines := split_nl text in
  let st := scanLines 0 lines (ScanState [] [] None) in
  let blocks := articleBlocks st in
  let out :=
    somes (map (fun ib => articleOfBlock lines blocks (transitoryStart st)
                            (fst ib) (snd ib))
               (indexed blocks)) in
  (map fst out, List.concat (map snd out)).

Module TransPosition.
Record t : Type := Build {
  label : jsstr;
  lineIdx : nat
}.
End TransPosition.

Definition transitoryPositions (lines : list jsstr) : list TransPosition.t :=
  somes (map (fun il =>
                if test true Pat.transRe (snd il)
                then Some (TransPosition.Build
                             (substring 0 80 (trim (snd il))) (fst il))
                else None)
             (indexed lines)).

(** The text of clause [i]: its lines up to the next clause or the end. *)
Definition transitoryContent (lines : list jsstr)
    (positions : list TransPosition.t) (i : nat) (pos : TransPosition.t) : jsstr :=
  let endIdx :=
    match nth_error positions (S i) with
    | Some next => TransPosition.lineIdx next
    | None => List.length lines
    end in
  trim (join_nl (slice (TransPosition.lineIdx pos) endIdx lines)).

Definition transitoryOfPosition (lines : list jsstr)
    (positions : list TransPosition.t) (i : nat) (pos : TransPosition.t)
  : option ParsedProvision.t :=
  let content := transitoryContent lines positions i pos in
  if strlen content <? 15 then None
  else Some (ParsedProvision.Build
               (js "trans" ++ showNat (i + 1))
               (Some (js "TRANSITORIOS"))
               (js "Transitorio " ++ showNat (i + 1))
               (TransPosition.label pos)
               (substring 0 8000 content)).

(** [extractTransitoryFromText] *)
Definition extractTransitoryFromText (text : jsstr) : list ParsedProvision.t :=
  match search true Pat.transitorySectionRe text with
  | None => []
  | Some transitoryIdx =>
      let transitoryText := substringFrom transitoryIdx text in
      let lines := split_nl transitoryText in
      let positions := transitoryPositions lines in
      somes (map (fun ip => transitoryOfPosition lines positions (fst ip) (snd ip))
                 (firstn 20 (indexed positions)))
  end.

(** The record both parsers build around their provisions. *)
Definition assemble (law : LawIndexEntry.t)
    (provisions : list ParsedProvision.t)
    (definitions : list ParsedDefinition.t) : ParsedLaw.t :=
  ParsedLaw.Build
    (LawIndexEntry.id law)
    (LawIndexEntry.title law)
    (LawIndexEntry.titleEn law)
    (LawIndexEntry.shortName law)
    (LawIndexEntry.status law)
    (LawIndexEntry.issuedDate law)
    (LawIndexEntry.inForceDate law)
    (LawIndexEntry.url law)
    (Some (nullish (LawIndexEntry.description law) (LawIndexEntry.title law)))
    provisions
    definitions.

(** [parseMexicanText] *)
Definition parseMexicanText (text : jsstr) (law : LawIndexEntry.t) : ParsedLaw.t :=
  if strlen text <? 200 then assemble law [] []
  else
    let cleanedText := cleanPdfText text in
    let '(provisions, definitions) := extractArticlesFromText cleanedText in
    let transitoryProvisions := extractTransitoryFromText cleanedText in
    assemble law (provisions ++ transitoryProvisions) definitions.

(** ** Structural extractor (markup path) *)

Module HtmlPat.

(** [/<br\s*\/?>/gi] *)
Definition brRe : regex :=
  seqs [lit "<br"; star space; opt (lit "/"); lit ">"].

(** [/<[^>]+>/g] *)
Definition tagRe : regex := seqs [lit "<"; plus (noneOf ">"); lit ">"].

(** The entity replacements of [stripHtml], in source order. *)
Definition entities : list (string * N) :=
  [ ("&nbsp;", 32); ("&#x00A0;", 32); ("&#160;", 32); ("&amp;", 38);
    ("&lt;", 60); ("&gt;", 62); ("&quot;", 34); ("&#39;", 39);
    ("&aacute;", 225); ("&eacute;", 233); ("&iacute;", 237);
    ("&oacute;", 243); ("&uacute;", 250); ("&ntilde;", 241);
    ("&Aacute;", 193); ("&Eacute;", 201); ("&Iacute;", 205);
    ("&Oacute;", 211); ("&Uacute;", 218); ("&Ntilde;", 209);
    ("&uuml;", 252); ("&Uuml;", 220); ("&iexcl;", 161); ("&iquest;", 191);
    ("&laquo;", 171); ("&raquo;", 187); ("&mdash;", 8212); ("&ndash;", 8211);
    ("&hellip;", 8230) ]%N%string.

(** [/(?:<[^>]*>)*\s*(?:Art[ií]culo)\s+(...)\s*[\.\-]/gi] *)
Definition articleRe : regex :=
  seqs [ Pat.tags; star space; lit "Art"; oneOf "ií"; lit "culo"; plus space;
         Group 1 Pat.articleNum; star space; oneOf ".-" ].

(** [/(?:<[^>]*>)*\s*(?:T[IÍ]TULO|CAP[IÍ]TULO|SECCI[OÓ]N)\s+([^<\n]+)/gi] *)
Definition chapterRe : regex :=
  seqs [ Pat.tags; star space; Pat.headerWord; plus space;
         Group 1 (plus (Class true [CChar 60; CChar NL])) ].

(** [/(?:<[^>]*>)*\s*TRANSITORIOS?\s*(?:<[^>]*>)*([\s\S]*?)(?:<\/body>|$)/i] *)
Definition transitoryBlockRe : regex :=
  seqs [ Pat.tags; star space; lit "TRANSITORIO"; opt (lit "S"); star space;
         Pat.tags; Group 1 (Star false Pat.anyChar);
         Alt (lit "</body>") Eol ].

(** [/(?:(?:Art[ií]culo|PRIMERO|...|[ÚU]NICO)\s*(?:Transitorio)?)\s*[\.\-]/gi] *)
Definition transitoryRe : regex :=
  seqs [ Alt (seqs [lit "Art"; oneOf "ií"; lit "culo"]) Pat.ordinalWord;
         star space; opt (lit "Transitorio"); star space; oneOf ".-" ].

End HtmlPat.

(** [stripHtml] *)
Definition stripHtml (html : jsstr) : jsstr :=
  let s := replaceAll true HtmlPat.brRe (fun _ => [NL]) html in
  let s := replaceAll false HtmlPat.tagRe (fun _ => [SP]) s in
  let s := fold_left
             (fun acc e => replaceAll false (lit (fst e)) (fun _ => [snd e]) acc)
             HtmlPat.entities s in
  let s := replaceAll false Pat.spacesRe (fun _ => [SP]) s in
  trim s.

Module Position.
Record t : Type := Build {
  label : jsstr;
  pos : nat
}.
End Position.

Definition htmlArticlePositions (html : jsstr) : list Position.t :=
  map (fun m => Position.Build (trim (group html m 1)) (f_start m))
      (exec_all true HtmlPat.articleRe html).

Definition htmlChapterPositions (html : jsstr) : list Position.t :=
  somes (map (fun m =>
                let label := trim (stripHtml (whole html m)) in
                if (0 <? strlen label) && (strlen label <? 200)
                then Some (Position.Build label (f_start m)) else None)
             (exec_all true HtmlPat.chapterRe html)).

(** The inner loop [for (const ch of chapterPositions)] of [extractArticles]. *)
Definition chapterBefore (chapters : list Position.t) (articlePos : nat)
    (currentChapter : jsstr) : jsstr :=
  fold_left
    (fun cur ch => if Position.pos ch <? articlePos then Position.label ch else cur)
    chapters currentChapter.

(** One iteration of the article loop of [extractArticles]; the chapter
    context is carried from one iteration to the next. *)
Definition htmlArticle (html : jsstr) (articles chapters : list Position.t)
    (currentChapter : jsstr) (i : nat) (article : Position.t)
  : jsstr * option (ParsedProvision.t * list ParsedDefinition.t) :=
  let nextArticlePos :=
    match nth_error articles (S i) with
    | Some next => Position.pos next
    | None => strlen html
    end in
  let currentChapter := chapterBefore chapters (Position.pos article) currentChapter in
  let text := stripHtml (substring (Position.pos article) nextArticlePos html) in
  let text := cap 8000 text in
  if strlen text <? 15 then (currentChapter, None)
  else
    let ref := normalizeArticleRef (Position.label article) in
    let sectionNum :=
      trim (replaceAll false Pat.spacesRe (fun _ => [SP]) (Position.label article)) in
    let title := articleTitle false text in
    (currentChapter,
     Some (ParsedProvision.Build ref (orUndefined currentChapter) sectionNum
             title text,
           extractDefinitions text ref)).

Fixpoint htmlArticles (html : jsstr) (articles chapters : list Position.t)
    (currentChapter : jsstr) (todo : list (nat * Position.t))
  : list (ParsedProvision.t * list ParsedDefinition.t) :=
  match todo with
  | [] => []
  | (i, article) :: todo' =>
      let '(currentChapter, out) :=
        htmlArticle html articles chapters currentChapter i article in
      match out with
      | Some o => o :: htmlArticles html articles chapters currentChapter todo'
      | None => htmlArticles html articles chapters currentChapter todo'
      end
  end.

(** [extractArticles] *)
Definition extractArticles (html : jsstr)
  : list ParsedProvision.t * list ParsedDefinition.t :=
  let articles := htmlArticlePositions html in
  match articles with
  | [] => ([], [])
  | _ :: _ =>
      let chapters := htmlChapterPositions html in
      let out := htmlArticles html articles chapters [] (indexed articles) in
      (map fst out, List.concat (map snd out))
  end.

Definition htmlTransitory (transitoryHtml : jsstr) (positions : list Position.t)
    (i : nat) (p : Position.t) : option ParsedProvision.t :=
  let nextPos :=
    match nth_error positions (S i) with
    | Some next => Position.pos next
    | None => strlen transitoryHtml
    end in
  let text := stripHtml (substring (Position.pos p) nextPos transitoryHtml) in
  if strlen text <? 15 then None
  else Some (ParsedProvision.Build
               (js "trans" ++ showNat (i + 1))
               (Some (js "TRANSITORIOS"))
               (js "Transitorio " ++ showNat (i + 1))
               (Position.label p)
               (substring 0 8000 text)).

(** [extractTransitoryArticles] *)
Definition extractTransitoryArticles (html : jsstr) : list ParsedProvision.t :=
  match exec true HtmlPat.transitoryBlockRe html with
  | None => []
  | Some tm =>
      let transitoryHtml := whole html tm in
      let positions :=
        map (fun m => Position.Build
                        (trim (stripHtml (whole transitoryHtml m))) (f_start m))
            (exec_all true HtmlPat.transitoryRe transitoryHtml) in
      somes (map (fun ip => htmlTransitory transitoryHtml positions (fst ip) (snd ip))
                 (firstn 20 (indexed positions)))
  end.

(** [parseMexicanHtml] *)
Definition parseMexicanHtml (html : jsstr) (law : LawIndexEntry.t) : ParsedLaw.t :=
  if includes (js "Error 404") html || includes (js "No encontrado") html
     || (strlen html <? 500)
  then assemble law [] []
  else
    let '(provisions, definitions) := extractArticles html in
    let transitoryProvisions := extractTransitoryArticles html in
    assemble law (provisions ++ transitoryProvisions) definitions.

(** ** Fetch client ([scripts/lib/fetcher.ts]), one caller at a time

    The network is a parameter: [server n url] is what the [n]-th call of
    [fetch] of the run answers when asked for [url].  The text of a response
    is the string [decodeResponseBody] returns for it. *)

Inductive HttpOutcome : Type :=
| Response (status : nat) (text : jsstr) (bytes : list N)
           (contentType : jsstr) (finalUrl : jsstr)
| Aborted
| Failed (message : jsstr).

Definition Server : Type := nat -> jsstr -> HttpOutcome.

(** What a call does: it returns, throws, or never comes back. *)
Inductive Outcome (A : Type) : Type :=
| Returns (a : A)
| Throws (message : jsstr)
| Hangs.
Arguments Returns {A} a.
Arguments Throws {A} message.
Arguments Hangs {A}.

Module FetchResult.
Record t : Type := Build {
  status : nat;
  body : jsstr;
  contentType : jsstr;
  url : jsstr
}.
End FetchResult.

Definition MIN_DELAY_MS : Z := 300.
Definition CONNECT_TIMEOUT_MS : Z := 15000.
Definition MAX_CONCURRENT : nat := 5.

(** Module state of the fetcher ([lastRequestTime], [activeRequests]), the
    clock, and the log of the URLs handed to [fetch], oldest first. *)
Record World : Type := MkWorld {
  now : Z;
  lastRequestTime : Z;
  activeRequests : nat;
  requests : list jsstr
}.

Definition sleep (ms : Z) (w : World) : World :=
  MkWorld (now w + ms) (lastRequestTime w) (activeRequests w) (requests w).

(** [rateLimit] run by a single caller: with no other caller to release a
    slot, a full gate is never left ([None]). *)
Definition rateLimit (w : World) : option World :=
  if MAX_CONCURRENT <=? activeRequests w then None
  else
    let elapsed := (now w - lastRequestTime w)%Z in
    let w := if (elapsed <? MIN_DELAY_MS)%Z
             then sleep (MIN_DELAY_MS - elapsed) w else w in
    Some (MkWorld (now w) (now w) (S (activeRequests w)) (requests w)).

(** [releaseSlot] *)
Definition releaseSlot (w : World) : World :=
  MkWorld (now w) (lastRequestTime w) (Nat.max 0 (activeRequests w - 1))
          (requests w).

(** One call of [fetch]: the request is logged and the server answers. *)
Definition doFetch (server : Server) (url : jsstr) (w : World)
  : HttpOutcome * World :=
  (server (List.length (requests w)) url,
   MkWorld (now w) (lastRequestTime w) (activeRequests w) (requests w ++ [url])).

Definition retryable (status : nat) : bool := (status =? 429) || (500 <=? status).

(** [Math.pow(2, attempt + 1) * 1000] *)
Definition backoff (attempt : nat) : Z := (2 ^ Z.of_nat (attempt + 1) * 1000)%Z.

(** The loop [for (let attempt = 0; attempt <= maxRetries; attempt++)] of
    [fetchWithRateLimit]; [left] counts the iterations still allowed, so the
    loop is entered with [left = maxRetries + 1] and [attempt = 0]. *)
Fixpoint fetchAttempts (server : Server) (url : jsstr) (maxRetries : nat)
    (left attempt : nat) (w : World) : Outcome FetchResult.t * World :=
  match left with
  | O => (Throws (js "Failed to fetch " ++ url ++ js " after "
                  ++ showNat maxRetries ++ js " retries"), w)
  | S left' =>
      let '(out, w) := doFetch server url w in
      match out with
      | Response status text _ contentType finalUrl =>
          if retryable status && (attempt <? maxRetries)
          then fetchAttempts server url maxRetries left' (S attempt)
                 (sleep (backoff attempt) w)
          else (Returns (FetchResult.Build status text contentType finalUrl), w)
      | Aborted =>
          let w := sleep CONNECT_TIMEOUT_MS w in
          if attempt <? maxRetries
          then fetchAttempts server url maxRetries left' (S attempt) w
          else (Returns (FetchResult.Build 0 [] [] url), w)
      | Failed message => (Throws message, w)
      end
  end.

(** [try { ... } finally { releaseSlot(); }] around a body that has already
    passed [rateLimit]. *)
Definition withSlot {A} (body : World -> Outcome A * World) (w : World)
  : Outcome A * World :=
  match rateLimit w with
  | None => (Hangs, w)
  | Some w =>
      let '(out, w) := body w in
      (out, releaseSlot w)
  end.

(** [fetchWithRateLimit] *)
Definition fetchWithRateLimit (server : Server) (url : jsstr) (maxRetries : nat)
    (w : World) : Outcome FetchResult.t * World :=
  withSlot (fetchAttempts server url maxRetries (S maxRetries) 0) w.

Definition usable (r : FetchResult.t) : bool :=
  (FetchResult.status r =? 200) && (500 <? strlen (FetchResult.body r)).

(** [fetchLawHtml] *)
Definition fetchLawHtml (server : Server) (code : jsstr) (w : World)
  : Outcome FetchResult.t * World :=
  let refUrl := js "https://www.diputados.gob.mx/LeyesBiblio/ref/" ++ code ++ js ".htm" in
  match fetchWithRateLimit server refUrl 3 w with
  | (Returns result, w) =>
      if usable result then (Returns result, w)
      else
        let altUrl := js "https://www.diputados.gob.mx/LeyesBiblio/ref/" ++ code
                      ++ js "_ref.htm" in
        match fetchWithRateLimit server altUrl 3 w with
        | (Returns altResult, w) =>
            if usable altResult then (Returns altResult, w)
            else (Returns result, w)
        | (Throws m, w) => (Throws m, w)
        | (Hangs, w) => (Hangs, w)
        end
  | (Throws m, w) => (Throws m, w)
  | (Hangs, w) => (Hangs, w)
  end.

(** ** Binary-file fallback chain ([fetchLawFile], [fetchLawPdf]) *)

Inductive Format : Type := doc | pdf.

Module Candidate.
Record t : Type := Build {
  url : jsstr;
  format : Format
}.
End Candidate.

Module FileResult.
Record t : Type := Build {
  status : nat;
  buffer : list N;
  url : jsstr;
  format : Format
}.
End FileResult.

Module PdfResult.
Record t : Type := Build {
  status : nat;
  buffer : list N;
  url : jsstr
}.
End PdfResult.

(** How the inner loop [for (let attempt = 0; attempt <= 2; attempt++)]
    ends for one candidate: a result to return ([Got]), a [break] towards
    the next candidate, or an error thrown. *)
Inductive Download : Type :=
| Got (status : nat) (buffer : list N)
| NextCandidate
| Raised (message : jsstr).

(** [CONNECT_TIMEOUT_MS] as the files of [fetchLawFile] and [fetchLawPdf]
    declare it (30 s there, 15 s in [scripts/lib/fetcher.ts]). *)
Definition DOWNLOAD_TIMEOUT_MS : Z := 30000.

Fixpoint downloadAttempts (server : Server) (url : jsstr) (left attempt : nat)
    (w : World) : Download * World :=
  match left with
  | O => (NextCandidate, w)
  | S left' =>
      let '(out, w) := doFetch server url w in
      match out with
      | Response status _ bytes _ _ =>
          if retryable status && (attempt <? 2)
          then downloadAttempts server url left' (S attempt)
                 (sleep (backoff attempt) w)
          else if status =? 404 then (NextCandidate, w)
          else if negb (status =? 200) then (Got status [], w)
          else (Got status bytes, w)
      | Aborted =>
          let w := sleep DOWNLOAD_TIMEOUT_MS w in
          if attempt <? 2
          then downloadAttempts server url left' (S attempt) w
          else (NextCandidate, w)
      | Failed message => (Raised message, w)
      end
  end.

(** A string argument that may be omitted: [if (s)] holds for a non-empty
    string only. *)
Definition given (s : option jsstr) : option jsstr :=
  match s with
  | Some (_ :: _) => s
  | _ => None
  end.

Module DocFetcher.

(** The candidate list of [fetchLawFile]: DOC first, then PDF. *)
Definition candidates (code : jsstr) (docUrl pdfUrl : option jsstr)
  : list Candidate.t :=
  (match given docUrl with
   | Some u => [Candidate.Build u doc]
   | None => []
   end)
  ++ [Candidate.Build
        (js "https://www.diputados.gob.mx/LeyesBiblio/doc/" ++ code ++ js ".doc")
        doc]
  ++ (match given pdfUrl with
      | Some u => [Candidate.Build u pdf]
      | None => []
      end)
  ++ [Candidate.Build
        (js "https://www.diputados.gob.mx/LeyesBiblio/pdf/" ++ code ++ js ".pdf")
        pdf].

(** The loop [for (const candidate of candidates)]; [first] is
    [candidates[0].url], reported when every candidate is exhausted. *)
Fixpoint tryCandidates (server : Server) (first : jsstr)
    (cands : list Candidate.t) (w : World) : Outcome FileResult.t * World :=
  match cands with
  | [] => (Returns (FileResult.Build 404 [] first doc), w)
  | c :: rest =>
      match downloadAttempts server (Candidate.url c) 3 0 w with
      | (Got status buffer, w) =>
          (Returns (FileResult.Build status buffer (Candidate.url c)
                      (Candidate.format c)), w)
      | (NextCandidate, w) => tryCandidates server first rest w
      | (Raised m, w) => (Throws m, w)
      end
  end.

Definition firstUrl (cands : list Candidate.t) : jsstr :=
  match cands with
  | c :: _ => Candidate.url c
  | [] => []
  end.

(** [fetchLawFile] *)
Definition fetchLawFile (server : Server) (code : jsstr)
    (docUrl pdfUrl : option jsstr) (w : World) : Outcome FileResult.t * World :=
  let cands := candidates code docUrl pdfUrl in
  withSlot (tryCandidates server (firstUrl cands) cands) w.

(** [fetchLawPdf], the legacy wrapper around [fetchLawFile]. *)
Definition fetchLawPdf (server : Server) (code : jsstr) (pdfUrl : option jsstr)
    (w : World) : Outcome PdfResult.t * World :=
  match fetchLawFile server code None pdfUrl w with
  | (Returns r, w) =>
      (Returns (PdfResult.Build (FileResult.status r) (FileResult.buffer r)
                  (FileResult.url r)), w)
  | (Throws m, w) => (Throws m, w)
  | (Hangs, w) => (Hangs, w)
  end.

End DocFetcher.

Module PdfFetcher.

(** [PDF_CODE_OVERRIDES[code]], for the own keys of the table; a code that
    names an inherited property of the object is not covered. *)
Definition PDF_CODE_OVERRIDES (code : jsstr) : option jsstr :=
  if str_eqb code (js "ccom") then Some (js "CCom")
  else if str_eqb code (js "cnpp") then Some (js "CNPP")
  else None.

(** [/(?:^|_)(\w)/g] *)
Definition segmentStartRe : regex :=
  seqs [Alt Bol (lit "_"); Group 1 (Class false [CWord])].

Definition titleCase (code : jsstr) : jsstr :=
  replaceAll false segmentStartRe (fun m => toUpperCase (group code m 1)) code.

(** [xs.includes(x)] on an array of strings *)
Definition mem (x : jsstr) (xs : list jsstr) : bool := existsb (str_eqb x) xs.

Definition pushNew (xs : list jsstr) (x : jsstr) : list jsstr :=
  if mem x xs then xs else xs ++ [x].

Definition candidateCodes (code : jsstr) : list jsstr :=
  let cs := match PDF_CODE_OVERRIDES code with
            | Some o => [o]
            | None => []
            end in
  let cs := cs ++ [toUpperCase code] in
  let cs := pushNew cs (titleCase code) in
  pushNew cs code.

Definition candidateUrls (code : jsstr) (pdfUrl : option jsstr) : list jsstr :=
  fold_left
    (fun urls c =>
       pushNew urls
         (js "https://www.diputados.gob.mx/LeyesBiblio/pdf/" ++ c ++ js ".pdf"))
    (candidateCodes code)
    (match given pdfUrl with
     | Some u => [u]
     | None => []
     end).

(** The loop [for (const url of candidateUrls)]. *)
Fixpoint tryUrls (server : Server) (first : jsstr) (urls : list jsstr)
    (w : World) : Outcome PdfResult.t * World :=
  match urls with
  | [] => (Returns (PdfResult.Build 404 [] first), w)
  | url :: rest =>
      match downloadAttempts server url 3 0 w with
      | (Got status buffer, w) => (Returns (PdfResult.Build status buffer url), w)
      | (NextCandidate, w) => tryUrls server first rest w
      | (Raised m, w) => (Throws m, w)
      end
  end.

(** [fetchLawPdf] *)
Definition fetchLawPdf (server : Server) (code : jsstr) (pdfUrl : option jsstr)
    (w : World) : Outcome PdfResult.t * World :=
  let urls := candidateUrls code pdfUrl in
  withSlot (tryUrls server (hd [] urls) urls) w.

End PdfFetcher.

(** ** Document assembler ([scripts/ingest.ts]) *)

(** A directory of files keyed by name. *)
Definition Dir (A : Type) : Type := jsstr -> option A.

Definition writeFile {A} (d : Dir A) (name : jsstr) (content : A) : Dir A :=
  fun n => if str_eqb n name then Some content else d n.

Module ReportRow.
Record t : Type := Build {
  law : jsstr;
  provisions : nat;
  definitions : nat;
  status : jsstr
}.
End ReportRow.

(** Everything [fetchAndParseLaws] reads and writes: the fetcher's world,
    the seed and source directories (a seed file holds the record that
    [JSON.stringify] wrote into it), the report and the counters. *)
Record Ingest : Type := MkIngest {
  world : World;
  seedDir : Dir ParsedLaw.t;
  sourceDir : Dir jsstr;
  report : list ReportRow.t;
  processed : nat;
  skipped : nat;
  failed : nat;
  fallbacks : nat;
  totalProvisions : nat;
  totalDefinitions : nat
}.

Definition seedFile (law : LawIndexEntry.t) : jsstr :=
  LawIndexEntry.id law ++ js ".json".

Definition sourceFile (law : LawIndexEntry.t) : jsstr :=
  LawIndexEntry.id law ++ js ".html".

(** [createFallbackSeed] *)
Definition createFallbackSeed (law : LawIndexEntry.t) : ParsedLaw.t :=
  assemble law
    [ ParsedProvision.Build
        (js "art1")
        None
        (js "1")
        (LawIndexEntry.shortName law ++ js " - Artículo 1")
        (LawIndexEntry.title law ++ js ". "
         ++ nullish (LawIndexEntry.description law) []
         ++ js ". Texto completo disponible en: " ++ LawIndexEntry.url law) ]
    [].

(** The three places that write a fallback seed differ in the report row
    and in whether [failed] is counted. *)
Definition writeFallback (law : LawIndexEntry.t) (status : jsstr)
    (isError : bool) (s : Ingest) : Ingest :=
  let fallbackSeed := createFallbackSeed law in
  let n := List.length (ParsedLaw.provisions fallbackSeed) in
  MkIngest (world s)
    (writeFile (seedDir s) (seedFile law) fallbackSeed)
    (sourceDir s)
    (report s ++ [ReportRow.Build (LawIndexEntry.shortName law) n 0 status])
    (processed s) (skipped s)
    (if isError then S (failed s) else failed s)
    (S (fallbacks s))
    (totalProvisions s + n) (totalDefinitions s).

Definition writeParsed (law : LawIndexEntry.t) (parsed : ParsedLaw.t)
    (s : Ingest) : Ingest :=
  let np := List.length (ParsedLaw.provisions parsed) in
  let nd := List.length (ParsedLaw.definitions parsed) in
  MkIngest (world s)
    (writeFile (seedDir s) (seedFile law) parsed)
    (sourceDir s)
    (report s ++ [ReportRow.Build (LawIndexEntry.shortName law) np nd (js "OK")])
    (processed s) (skipped s) (failed s) (fallbacks s)
    (totalProvisions s + np) (totalDefinitions s + nd).

Definition countProcessed (s : Ingest) : Ingest :=
  MkIngest (world s) (seedDir s) (sourceDir s) (report s) (S (processed s))
    (skipped s) (failed s) (fallbacks s) (totalProvisions s)
    (totalDefinitions s).

Definition setWorld (w : World) (s : Ingest) : Ingest :=
  MkIngest w (seedDir s) (sourceDir s) (report s) (processed s) (skipped s)
    (failed s) (fallbacks s) (totalProvisions s) (totalDefinitions s).

(** After [html] is at hand: parse, then write the parsed record or, when
    it has no provision, the fallback. *)
Definition parseAndWrite (law : LawIndexEntry.t) (html : jsstr) (s : Ingest)
  : Ingest :=
  let parsed := parseMexicanHtml html law in
  if List.length (ParsedLaw.provisions parsed) =? 0
  then writeFallback law (js "parse-empty (fallback)") false s
  else writeParsed law parsed s.

(** The body of the loop [for (const law of laws)] of [fetchAndParseLaws];
    [None] when the fetcher never comes back. *)
Definition processLaw (server : Server) (skipFetch : bool) (s : Ingest)
    (law : LawIndexEntry.t) : option Ingest :=
  match (if skipFetch then seedDir s (seedFile law) else None) with
  | Some existing =>
      let np := List.length (ParsedLaw.provisions existing) in
      let nd := List.length (ParsedLaw.definitions existing) in
      Some (MkIngest (world s) (seedDir s) (sourceDir s)
              (report s ++ [ReportRow.Build (LawIndexEntry.shortName law) np nd
                              (js "cached")])
              (S (processed s)) (S (skipped s)) (failed s) (fallbacks s)
              (totalProvisions s + np) (totalDefinitions s + nd))
  | None =>
      match (if skipFetch then sourceDir s (sourceFile law) else None) with
      | Some html => Some (countProcessed (parseAndWrite law html s))
      | None =>
          match fetchLawHtml server (LawIndexEntry.code law) (world s) with
          | (Returns result, w) =>
              let s := setWorld w s in
              if negb (FetchResult.status result =? 200)
              then Some (countProcessed
                           (writeFallback law
                              (js "HTTP " ++ showNat (FetchResult.status result)
                               ++ js " (fallback)") false s))
              else
                let html := FetchResult.body result in
                let s := MkIngest (world s) (seedDir s)
                           (writeFile (sourceDir s) (sourceFile law) html)
                           (report s) (processed s) (skipped s) (failed s)
                           (fallbacks s) (totalProvisions s)
                           (totalDefinitions s) in
                Some (countProcessed (parseAndWrite law html s))
          | (Throws msg, w) =>
              Some (countProcessed
                      (writeFallback law
                         (js "ERROR (fallback): " ++ substring 0 50 msg) true
                         (setWorld w s)))
          | (Hangs, _) => None
          end
      end
  end.

(** [fetchAndParseLaws], up to the printing of the report. *)
Fixpoint fetchAndParseLaws (server : Server) (skipFetch : bool)
    (laws : list LawIndexEntry.t) (s : Ingest) : option Ingest :=
  match laws with
  | [] => Some s
  | law :: rest =>
      match processLaw server skipFetch s law with
      | Some s' => fetchAndParseLaws server skipFetch rest s'
      | None => None
      end
  end.

(** The state [main] starts from: fresh module state of the fetcher, the
    clock at [t0], the directories as found on disk. *)
Definition initialIngest (t0 : Z) (seeds : Dir ParsedLaw.t) (sources : Dir jsstr)
  : Ingest :=
  MkIngest (MkWorld t0 0 0 []) seeds sources [] 0 0 0 0 0 0.

(** ** The rate limiter under cooperative scheduling

    Several callers of [fetchWithRateLimit] share [lastRequestTime] and
    [activeRequests].  Code between two [await]s runs without interruption,
    so a caller is described by the [await] it is suspended at. *)

Module Gate.

Inductive Pc : Type :=
| AtGate                 (* about to test [activeRequests >= MAX_CONCURRENT] *)
| SlotSleep (wake : Z)   (* inside the loop, awaiting [setTimeout(.., 50)] *)
| DelaySleep (wake : Z)  (* awaiting [setTimeout(.., MIN_DELAY_MS - elapsed)] *)
| InFlight               (* past [activeRequests++], before [releaseSlot()] *)
| Finished.

Record Sys : Type := MkSys {
  clock : Z;
  last : Z;
  active : nat;
  callers : list Pc
}.

Fixpoint setNth {A} (i : nat) (x : A) (l : list A) : list A :=
  match l, i with
  | [], _ => []
  | _ :: l', O => x :: l'
  | y :: l', S i' => y :: setNth i' x l'
  end.

(** What caller [i] does when it is resumed, up to its next suspension;
    [None] when it cannot be resumed (timer not due, or no such caller). *)
Definition resume (i : nat) (s : Sys) : option Sys :=
  let enter (s : Sys) : Sys :=
    MkSys (clock s) (clock s) (S (active s)) (setNth i InFlight (callers s)) in
  match nth_error (callers s) i with
  | Some AtGate =>
      if MAX_CONCURRENT <=? active s
      then Some (MkSys (clock s) (last s) (active s)
                   (setNth i (SlotSleep (clock s + 50)) (callers s)))
      else
        let elapsed := (clock s - last s)%Z in
        if (elapsed <? MIN_DELAY_MS)%Z
        then Some (MkSys (clock s) (last s) (active s)
                     (setNth i (DelaySleep (clock s + (MIN_DELAY_MS - elapsed)))
                        (callers s)))
        else Some (enter s)
  | Some (SlotSleep wake) =>
      if (wake <=? clock s)%Z
      then Some (MkSys (clock s) (last s) (active s) (setNth i AtGate (callers s)))
      else None
  | Some (DelaySleep wake) =>
      if (wake <=? clock s)%Z then Some (enter s) else None
  | Some InFlight =>
      Some (MkSys (clock s) (last s) (Nat.max 0 (active s - 1))
              (setNth i Finished (callers s)))
  | Some Finished => None
  | None => None
  end.

Inductive Event : Type :=
| Tick (ms : Z)      (* time passes *)
| Resume (i : nat).  (* the scheduler resumes caller [i] *)

Definition step (e : Event) (s : Sys) : option Sys :=
  match e with
  | Tick ms =>
      if (0 <=? ms)%Z
      then Some (MkSys (clock s + ms) (last s) (active s) (callers s))
      else None
  | Resume i => resume i s
  end.

Fixpoint run (trace : list Event) (s : Sys) : option Sys :=
  match trace with
  | [] => Some s
  | e :: trace' =>
      match step e s with
      | Some s' => run trace' s'
      | None => None
      end
  end.

(** [n] calls issued at time [t0] against fresh module state. *)
Definition start (t0 : Z) (n : nat) : Sys := MkSys t0 0 0 (repeat AtGate n).

Definition inFlight (s : Sys) : nat :=
  List.length (filter (fun pc => match pc with InFlight => true | _ => false end)
                 (callers s)).

End Gate.

(** * Vocabulary of the properties

    Predicates, reference functions and sample inputs the statements below
    are written with. *)

(** The key of the provision an article-marker line opens. *)
Definition keyOfMarker (line : jsstr) : option jsstr :=
  option_map normalizeArticleRef (articleLabel line).

(** The descriptor fields a parsed record must carry over. *)
Definition carriesMetadata (law : LawIndexEntry.t) (p : ParsedLaw.t) : Prop :=
  ParsedLaw.id p = LawIndexEntry.id law /\
  ParsedLaw.title p = LawIndexEntry.title law /\
  ParsedLaw.title_en p = LawIndexEntry.titleEn law /\
  ParsedLaw.short_name p = LawIndexEntry.shortName law /\
  ParsedLaw.status p = LawIndexEntry.status law /\
  ParsedLaw.issued_date p = LawIndexEntry.issuedDate law /\
  ParsedLaw.in_force_date p = LawIndexEntry.inForceDate law /\
  ParsedLaw.url p = LawIndexEntry.url law.

Definition statusOf (o : HttpOutcome) : option nat :=
  match o with
  | Response status _ _ _ _ => Some status
  | _ => None
  end.

(** The world after one more request has been sent. *)
Definition logged (url : jsstr) (w : World) : World :=
  MkWorld (now w) (lastRequestTime w) (activeRequests w) (requests w ++ [url]).

(** The answer the server gives to the next request, if it is for [url]. *)
Definition nextStatus (server : Server) (url : jsstr) (w : World) : option nat :=
  statusOf (server (List.length (requests w)) url).



(** The time at which a caller that finds a free slot leaves [rateLimit]. *)
Definition admittedAt (w : World) : Z :=
  Z.max (now w) (lastRequestTime w + MIN_DELAY_MS).


(** The requests of a download that asks the addresses [urls] in order,
    the [i]-th one [ks[i]] times in a row, and stops where [ks] ends. *)
Fixpoint runs (urls : list jsstr) (ks : list nat) : list jsstr :=
  match urls, ks with
  | u :: urls, k :: ks => repeat u k ++ runs urls ks
  | _, _ => []
  end.


(** The single provision of a fallback seed. *)
Definition stubProvision (law : LawIndexEntry.t) : ParsedProvision.t :=
  ParsedProvision.Build (js "art1") None (js "1")
    (LawIndexEntry.shortName law ++ js " - Artículo 1")
    (LawIndexEntry.title law ++ js ". "
     ++ nullish (LawIndexEntry.description law) []
     ++ js ". Texto completo disponible en: " ++ LawIndexEntry.url law).

(** The seed directory holds a record with at least one provision for
    [law]. *)
Definition represented (law : LawIndexEntry.t) (s : Ingest) : Prop :=
  exists p, seedDir s (seedFile law) = Some p
            /\ 1 <= List.length (ParsedLaw.provisions p).

(** Every seed file of a directory has at least one provision. *)
Definition seedsNonEmpty (d : Dir ParsedLaw.t) : Prop :=
  forall name p, d name = Some p -> 1 <= List.length (ParsedLaw.provisions p).

(** The law is not answered from an existing seed file. *)
Definition notCached (skipFetch : bool) (s : Ingest) (law : LawIndexEntry.t) : Prop :=
  (if skipFetch then seedDir s (seedFile law) else None) = None.

(** The markup is not read from an existing source file. *)
Definition mustFetch (skipFetch : bool) (s : Ingest) (law : LawIndexEntry.t) : Prop :=
  (if skipFetch then sourceDir s (sourceFile law) else None) = None.

(** The step wrote the fallback seed for the law. *)
Definition wroteStub (o : option Ingest) (law : LawIndexEntry.t) : Prop :=
  exists s', o = Some s' /\ seedDir s' (seedFile law) = Some (createFallbackSeed law).

(** What one step of the loop does to the seed directory: either the
    law was answered from its existing seed file and nothing is written,
    or one record with at least one provision is written for it. *)
Definition seedEffect (skipFetch : bool) (law : LawIndexEntry.t)
    (s s' : Ingest) : Prop :=
  (exists existing,
      skipFetch = true /\ seedDir s (seedFile law) = Some existing
      /\ seedDir s' = seedDir s)
  \/ (exists p,
        1 <= List.length (ParsedLaw.provisions p)
        /\ seedDir s' = writeFile (seedDir s) (seedFile law) p).

(** The first entry of [KEY_MEXICAN_ACTS]. *)
Definition lfpdppp : LawIndexEntry.t :=
  LawIndexEntry.Build
    (js "lfpdppp") (js "lfpdppp")
    (js "Ley Federal de Protección de Datos Personales en Posesión de los Particulares")
    (Some (js "Federal Law on Protection of Personal Data Held by Private Parties"))
    (js "LFPDPPP") in_force (js "2010-07-05") (js "2010-07-06")
    (js "https://www.diputados.gob.mx/LeyesBiblio/ref/lfpdppp.htm")
    None None
    (Some (js "Mexico's primary private-sector data protection law (2010). Establishes ARCO rights (Access, Rectification, Cancellation, Opposition), consent requirements, privacy notices, cross-border transfer rules, and INAI oversight. Comparable to EU GDPR for private-sector data processing.")).

(** Seven calls issued in the same turn: the first passes the gate at once,
    the other six pass the test while the counter is 1 and then wait out
    the minimum delay; once it is over, all six take a slot. *)
Definition burst : list Gate.Event :=
  map Gate.Resume (seq 0 7) ++ [Gate.Tick 300] ++ map Gate.Resume (seq 1 6).

Definition refs (ps : list ParsedProvision.t) : list jsstr :=
  map ParsedProvision.provision_ref ps.

(** The labels of the article markers the line scan finds. *)
Definition articleLabels (text : jsstr) : list jsstr :=
  map ArticleBlock.num
    (articleBlocks (scanLines 0 (split_nl text) (ScanState [] [] None))).



(** The provisions of a parsed text: regular ones, then transitory ones. *)
Definition regularOf (text : jsstr) : list ParsedProvision.t :=
  if strlen text <? 200 then []
  else fst (extractArticlesFromText (cleanPdfText text)).

Definition transitoryOf (text : jsstr) : list ParsedProvision.t :=
  if strlen text <? 200 then []
  else extractTransitoryFromText (cleanPdfText text).

(** Leading line feeds of a string, and what follows them. *)
Fixpoint countNL (s : jsstr) : nat :=
  match s with
  | c :: s' => if (c =? NL)%N then S (countNL s') else 0
  | [] => 0
  end.

Fixpoint dropNL (s : jsstr) : jsstr :=
  match s with
  | c :: s' => if (c =? NL)%N then dropNL s' else s
  | [] => []
  end.

(** Keep at most three line feeds of every run; [run] counts the line feeds
    just passed. *)
Fixpoint squeeze (run : nat) (s : jsstr) : jsstr :=
  match s with
  | [] => []
  | c :: s' =>
      if (c =? NL)%N
      then if run <? 3 then c :: squeeze (S run) s' else squeeze (S run) s'
      else c :: squeeze 0 s'
  end.

Definition threeNL (_ : found) : jsstr := [NL; NL; NL].

Definition isEmpty (l : jsstr) : bool :=
  match l with [] => true | _ => false end.

(** The non-empty lines of a list of lines. *)
Definition nonEmpty (ls : list jsstr) : list jsstr :=
  filter (fun l => negb (isEmpty l)) ls.

Definition nlFree (l : jsstr) : Prop := Forall (fun c => c <> NL) l.

(** A line the first loop of [cleanPdfText] pushes unchanged. *)
Definition okLine (l : jsstr) : Prop := cleanLine l = Some l.

(** How many lines of [ls] the counting loop books under the key [k]. *)
Definition cnt (k : jsstr) (ls : list jsstr) : nat :=
  List.length
    (filter (fun l => isCapsLine (trim l) && str_eqb (trim l) k) ls).

(** The count booked under [k] in [capsLineCount] (0 when absent). *)
Fixpoint booked (k : jsstr) (counts : list (jsstr * nat)) : nat :=
  match counts with
  | [] => 0
  | (k', n) :: rest => if str_eqb k' k then n else booked k rest
  end.

Definition keepOther (k : jsstr) (l : jsstr) : bool := negb (str_eqb (trim l) k).

Definition termino : jsstr := Eval vm_compute in js "I. Término: significado;".

Definition isRoman (c : N) : bool := existsb (N.eqb c) (js "IVXLC").

Fixpoint dropRoman (s : jsstr) : jsstr :=
  match s with
  | c :: s' => if isRoman c then dropRoman s' else s
  | [] => []
  end.

(** A capital Roman numeral followed by a period starts at the head of the
    string: the opening [([IVXLC]+)\.] of the item pattern matches there. *)
Definition itemStartsAt (s : jsstr) : bool :=
  match s with
  | c :: s' =>
      isRoman c && match dropRoman s' with
                   | d :: _ => (d =? 46)%N
                   | [] => false
                   end
  | [] => false
  end.

(** No item starts at any of the first [n] positions of the string. *)
Fixpoint noItemWithin (n : nat) (s : jsstr) : bool :=
  match n, s with
  | S n', _ :: s' => negb (itemStartsAt s) && noItemWithin n' s'
  | _, _ => true
  end.

Definition romanClass : list citem := map CChar (js "IVXLC").

(** The item pattern, with its leading numeral class named. *)
Definition defTail : regex :=
  Eval vm_compute in
    seqs [ lit "."; star space; Group 2 (plus (noneOf ":")); lit ":"; star space;
           Group 3 (seqs [plus (noneOf ";"); Alt (lit ";") Eol]) ].

Definition terminoCaps (pos : nat) : list (nat * (nat * nat)) :=
  [(3, (12 + pos, 24 + pos)); (2, (3 + pos, 10 + pos)); (1, (pos, 1 + pos))].

(** The definition the item yields. *)
Definition terminoDefinition (ref : jsstr) : ParsedDefinition.t :=
  ParsedDefinition.Build (js "Término") (js "Término: significado") (Some ref).

(** An article without cue phrase, inside a body long enough to be parsed. *)
Definition glossaryWithoutCue : jsstr := js
"Artículo 1.- La presente Ley es de orden público y de observancia general en toda la República.
Artículo 2.- Son sujetos regulados por esta Ley los particulares que traten datos personales.
Artículo 5.- Glosario de la Ley: I. Término: significado;".

(** An article with a cue phrase and two enumerated items. *)
Definition glossaryTwoItems : jsstr := js
"Artículo 1.- La presente Ley es de orden público y de observancia general en toda la República.
Artículo 2.- Son sujetos regulados por esta Ley los particulares que traten datos personales.
Artículo 3.- Para los efectos de esta Ley, se entenderá por:
I. Término: significado;
II. Titular: la persona física a quien corresponden los datos personales;".

Definition cuePrefix : jsstr := Eval vm_compute in js
"Artículo 3.- Para los efectos de esta Ley, se entenderá por:
".

(** A body of three articles under two chapters and a transitory section
    of two clauses. *)
Definition threeArticles : jsstr := js
"TÍTULO PRIMERO
CAPÍTULO I
Artículo 1.- La presente Ley es de orden público y de observancia general en toda la República.
Artículo 2.- Son sujetos regulados por esta Ley los particulares que traten datos personales.
CAPÍTULO II
Artículo 3.- Para los efectos de esta Ley, se entenderá por:
I. Término: significado;
TRANSITORIOS
PRIMERO.- La presente Ley entrará en vigor al día siguiente de su publicación.
SEGUNDO.- Se derogan las demás disposiciones que se opongan a la presente Ley.".

(** The same layout with mixed-case headers, and a second article and a
    first clause that only hold an ellipsis. *)
Definition shortArticle : jsstr := js
"Capítulo Primero
Artículo 1.- La presente Ley es de orden público y de observancia general en toda la República.
Capítulo Segundo
Artículo 2.- …
Artículo 3.- Son sujetos regulados por esta Ley los particulares que traten datos personales.
TRANSITORIOS
PRIMERO.- …
SEGUNDO.- Se derogan las demás disposiciones que se opongan a la presente Ley.".

(** The same layout again, in fewer than 200 code units. *)
Definition shortBody : jsstr := js
"TÍTULO PRIMERO
Artículo 1.- Objeto de la Ley.
Artículo 2.- Sujetos regulados.
Artículo 3.- Trato lícito de datos.
TRANSITORIOS
PRIMERO.- Entra en vigor.
SEGUNDO.- Se deroga.".

(** Line [i] is the marker of block [b]: not a header line, and carrying
    the block's label. *)
Definition markerOf (lines : list jsstr) (b : ArticleBlock.t) : Prop :=
  exists l,
    nth_error lines (ArticleBlock.startLine b) = Some l /\
    headerLabel l = None /\
    articleLabel l = Some (ArticleBlock.num b).

(** [c] is the label of the nearest header line before line [i], or the
    empty string when no header line comes before line [i]. *)
Definition nearestHeader (lines : list jsstr) (i : nat) (c : jsstr) : Prop :=
  (exists j l,
      j < i /\ nth_error lines j = Some l /\ headerLabel l = Some c /\
      forall k l', j < k < i -> nth_error lines k = Some l' ->
                   headerLabel l' = None)
  \/ (c = [] /\
      forall k l', k < i -> nth_error lines k = Some l' -> headerLabel l' = None).

(** What the scan has established after the lines [seen]. *)
Record scanned (seen : list jsstr) (st : scanState) : Prop := {
  scanned_chapter : nearestHeader seen (List.length seen) (currentChapter st);
  scanned_blocks :
    Forall (fun b => ArticleBlock.startLine b < List.length seen
                     /\ markerOf seen b
                     /\ nearestHeader seen (ArticleBlock.startLine b)
                          (ArticleBlock.chapter b))
           (articleBlocks st);
  scanned_order :
    forall pre b post, articleBlocks st = pre ++ b :: post ->
      Forall (fun a => ArticleBlock.startLine a < ArticleBlock.startLine b) pre
}.

(** A regular provision [p] made from block [b] of the scan of [lines]. *)
Definition madeFrom (lines : list jsstr) (p : ParsedProvision.t)
    (b : ArticleBlock.t) : Prop :=
  ParsedProvision.provision_ref p = normalizeArticleRef (ArticleBlock.num b) /\
  markerOf lines b /\
  nearestHeader lines (ArticleBlock.startLine b) (ArticleBlock.chapter b) /\
  ParsedProvision.chapter p = orUndefined (ArticleBlock.chapter b).

(** * Further parts of the code base *)

(** ** The first version of the fetch client

    No slot counter and no timer: a request is neither counted nor
    abandoned.  [text] stands for [Response.text()], which decodes the bytes
    of the body. *)

Module SimpleFetcher.

Section Client.

Variable text : list N -> jsstr.

Definition MIN_DELAY_MS : Z := 500.

(** [rateLimit] *)
Definition rateLimit (w : World) : World :=
  let elapsed := (now w - lastRequestTime w)%Z in
  let w := if (elapsed <? MIN_DELAY_MS)%Z
           then sleep (MIN_DELAY_MS - elapsed) w else w in
  MkWorld (now w) (now w) (activeRequests w) (requests w).

(** The loop of [fetchWithRateLimit]; a request that gets no answer is
    waited for without end. *)
Fixpoint fetchAttempts (server : Server) (url : jsstr) (maxRetries : nat)
    (left attempt : nat) (w : World) : Outcome FetchResult.t * World :=
  match left with
  | O => (Throws (js "Failed to fetch " ++ url ++ js " after "
                  ++ showNat maxRetries ++ js " retries"), w)
  | S left' =>
      let '(out, w) := doFetch server url w in
      match out with
      | Response status _ bytes contentType finalUrl =>
          if retryable status && (attempt <? maxRetries)
          then fetchAttempts server url maxRetries left' (S attempt)
                 (sleep (backoff attempt) w)
          else (Returns (FetchResult.Build status (text bytes) contentType
                           finalUrl), w)
      | Aborted => (Hangs, w)
      | Failed message => (Throws message, w)
      end
  end.

(** [fetchWithRateLimit] *)
Definition fetchWithRateLimit (server : Server) (url : jsstr) (maxRetries : nat)
    (w : World) : Outcome FetchResult.t * World :=
  fetchAttempts server url maxRetries (S maxRetries) 0 (rateLimit w).

(** [fetchLawHtml] *)
Definition fetchLawHtml (server : Server) (code : jsstr) (w : World)
  : Outcome FetchResult.t * World :=
  fetchWithRateLimit server
    (js "https://www.diputados.gob.mx/LeyesBiblio/ref/" ++ code ++ js ".htm") 3 w.

End Client.

End SimpleFetcher.

(** ** Law index and command line ([KEY_MEXICAN_ACTS], [parseArgs], [main])

    The entries of the index after the first one, and the part of
    [scripts/ingest.ts] that reads the command line and picks the laws of a
    run. *)

Definition lgpdppso : LawIndexEntry.t :=
  LawIndexEntry.Build
    (js "lgpdppso") (js "lgpdppso")
    (js "Ley General de Protección de Datos Personales en Posesión de Sujetos Obligados")
    (Some (js "General Law on Protection of Personal Data Held by Public Bodies"))
    (js "LGPDPPSO") in_force (js "2017-01-26") (js "2017-01-27")
    (js "https://www.diputados.gob.mx/LeyesBiblio/ref/lgpdppso.htm")
    None None
    (Some (js "Public-sector data protection law (2017). Applies to all levels of government and autonomous bodies. Establishes data protection principles, ARCO rights for data held by public authorities, and requirements for data protection impact assessments.")).

Definition lritf : LawIndexEntry.t :=
  LawIndexEntry.Build
    (js "lritf") (js "lritf")
    (js "Ley para Regular las Instituciones de Tecnología Financiera")
    (Some (js "Law to Regulate Financial Technology Institutions (Fintech Law)"))
    (js "Ley Fintech") in_force (js "2018-03-09") (js "2018-03-10")
    (js "https://www.diputados.gob.mx/LeyesBiblio/ref/lritf.htm")
    None None
    (Some (js "Fintech regulatory framework (2018). One of the most comprehensive in Latin America. Covers crowdfunding (ITF), e-money institutions (IFPE), virtual assets (crypto), open banking, regulatory sandboxes, and AML/CFT requirements for fintech operators.")).

Definition cpf : LawIndexEntry.t :=
  LawIndexEntry.Build
    (js "cpf") (js "cpf")
    (js "Código Penal Federal")
    (Some (js "Federal Criminal Code"))
    (js "Código Penal Federal") in_force (js "1931-08-14") (js "1931-09-17")
    (js "https://www.diputados.gob.mx/LeyesBiblio/ref/cpf.htm")
    None None
    (Some (js "Federal Criminal Code. Contains cybercrime provisions in Articles 211 bis 1-7 covering unauthorized access to computer systems, data interception, and information system sabotage. Also covers identity theft, fraud, and intellectual property crimes.")).

Definition lgsm : LawIndexEntry.t :=
  LawIndexEntry.Build
    (js "lgsm") (js "lgsm")
    (js "Ley General de Sociedades Mercantiles")
    (Some (js "General Law on Commercial Companies"))
    (js "LGSM") in_force (js "1934-08-04") (js "1934-08-04")
    (js "https://www.diputados.gob.mx/LeyesBiblio/ref/lgsm.htm")
    None None
    (Some (js "General Commercial Companies Law. Governs the formation, governance, and dissolution of commercial companies in Mexico (SA, S de RL, SAS, etc.). Relevant for corporate governance, director duties, and compliance obligations.")).

Definition ccom : LawIndexEntry.t :=
  LawIndexEntry.Build
    (js "ccom") (js "ccom")
    (js "Código de Comercio")
    (Some (js "Commercial Code"))
    (js "Código de Comercio") in_force (js "1889-12-15") (js "1890-01-01")
    (js "https://www.diputados.gob.mx/LeyesBiblio/ref/ccom.htm")
    None None
    (Some (js "Commercial Code. Governs commercial acts, electronic commerce (Título Segundo - Del Comercio Electrónico), commercial contracts, and merchant obligations. Contains provisions on electronic signatures and digital records.")).

Definition lfpc : LawIndexEntry.t :=
  LawIndexEntry.Build
    (js "lfpc") (js "lfpc")
    (js "Ley Federal de Protección al Consumidor")
    (Some (js "Federal Consumer Protection Law"))
    (js "LFPC") in_force (js "1992-12-24") (js "1993-03-25")
    (js "https://www.diputados.gob.mx/LeyesBiblio/ref/lfpc.htm")
    None None
    (Some (js "Federal Consumer Protection Law. Establishes consumer rights, advertising standards, e-commerce consumer protections, PROFECO enforcement powers, and collective action procedures. Contains provisions on digital transactions and online consumer rights.")).

Definition cpeum : LawIndexEntry.t :=
  LawIndexEntry.Build
    (js "cpeum") (js "cpeum")
    (js "Constitución Política de los Estados Unidos Mexicanos")
    (Some (js "Political Constitution of the United Mexican States"))
    (js "Constitución") in_force (js "1917-02-05") (js "1917-05-01")
    (js "https://www.diputados.gob.mx/LeyesBiblio/ref/cpeum.htm")
    None None
    (Some (js "Constitution of Mexico (1917). Article 6 establishes the right to information and creates INAI. Article 16 establishes the fundamental right to privacy and data protection. Article 73 grants Congress power to legislate on data protection.")).

Definition lftr : LawIndexEntry.t :=
  LawIndexEntry.Build
    (js "lftr") (js "lftr")
    (js "Ley Federal de Telecomunicaciones y Radiodifusión")
    (Some (js "Federal Telecommunications and Broadcasting Law"))
    (js "LFTR") in_force (js "2014-07-14") (js "2014-08-13")
    (js "https://www.diputados.gob.mx/LeyesBiblio/ref/lftr.htm")
    None None
    (Some (js "Federal Telecommunications and Broadcasting Law (2014). Establishes IFT (Federal Telecommunications Institute), net neutrality, user rights, data retention obligations for telecom carriers, cybersecurity reporting requirements, and critical infrastructure protections.")).

Definition lfea : LawIndexEntry.t :=
  LawIndexEntry.Build
    (js "lfea") (js "lfea")
    (js "Ley de Firma Electrónica Avanzada")
    (Some (js "Advanced Electronic Signature Law"))
    (js "Ley de Firma Electrónica") in_force (js "2012-01-11") (js "2012-01-12")
    (js "https://www.diputados.gob.mx/LeyesBiblio/ref/lfea.htm")
    None None
    (Some (js "Advanced Electronic Signature Law (2012). Governs the use of advanced electronic signatures (FIEL/e.firma) in government procedures, legal validity of electronic documents, certification service providers, and digital identity verification.")).

(** [KEY_MEXICAN_ACTS] *)
Definition KEY_MEXICAN_ACTS : list LawIndexEntry.t :=
  [lfpdppp; lgpdppso; lritf; cpf; lgsm; ccom; lfpc; cpeum; lftr; lfea].

(** A number as [parseInt] returns it: NaN or an integer.  The integer is
    kept exact; the source holds it as a double, which differs only beyond
    2^53, where every comparison made with it below comes out the same. *)
Inductive Num : Type :=
| NaN
| Int (z : Z).

Fixpoint takeDigits (s : jsstr) : jsstr :=
  match s with
  | c :: s' => if is_digit c then c :: takeDigits s' else []
  | [] => []
  end.

Definition digitsValue (ds : jsstr) : Z :=
  fold_left (fun acc d => (10 * acc + (Z.of_N d - 48))%Z) ds 0%Z.

(** [parseInt(s, 10)]: leading white space is skipped, one sign is read,
    then the longest run of decimal digits; no digit gives NaN. *)
Definition parseInt10 (s : jsstr) : Num :=
  let s := trimStart s in
  let '(negative, s) :=
    match s with
    | c :: r =>
        if (c =? 45)%N then (true, r)
        else if (c =? 43)%N then (false, r)
        else (false, s)
    | [] => (false, [])
    end in
  match takeDigits s with
  | [] => NaN
  | ds => Int (if negative then (- digitsValue ds)%Z else digitsValue ds)
  end.

(** The loop of [parseArgs] over [process.argv.slice(2)]; a ["--limit"]
    followed by a non-empty argument reads it as the limit and steps over
    it. *)
Fixpoint parseArgsFrom (args : list jsstr) (limit : option Num)
    (skipFetch : bool) : option Num * bool :=
  match args with
  | [] => (limit, skipFetch)
  | a :: rest =>
      let otherwise :=
        if str_eqb a (js "--skip-fetch")
        then parseArgsFrom rest limit true
        else parseArgsFrom rest limit skipFetch in
      if str_eqb a (js "--limit")
      then match rest with
           | (_ :: _) as v :: rest' =>
               parseArgsFrom rest' (Some (parseInt10 v)) skipFetch
           | _ => otherwise
           end
      else otherwise
  end.

(** [parseArgs] *)
Definition parseArgs (argv : list jsstr) : option Num * bool :=
  parseArgsFrom argv None false.

(** [xs.slice(0, end)] *)
Definition sliceTo {A} (finish : Z) (xs : list A) : list A :=
  let len := Z.of_nat (List.length xs) in
  if (finish <? 0)%Z then firstn (Z.to_nat (Z.max (len + finish) 0)) xs
  else firstn (Z.to_nat (Z.min finish len)) xs.

(** [limit ? KEY_MEXICAN_ACTS.slice(0, limit) : KEY_MEXICAN_ACTS]: null, NaN
    and zero are falsy. *)
Definition selectLaws (limit : option Num) : list LawIndexEntry.t :=
  match limit with
  | Some (Int z) => if (z =? 0)%Z then KEY_MEXICAN_ACTS else sliceTo z KEY_MEXICAN_ACTS
  | _ => KEY_MEXICAN_ACTS
  end.

(** [main], up to the printing of the banner and of the report. *)
Definition main (server : Server) (argv : list jsstr) (t0 : Z)
    (seeds : Dir ParsedLaw.t) (sources : Dir jsstr) : option Ingest :=
  let '(limit, skipFetch) := parseArgs argv in
  fetchAndParseLaws server skipFetch (selectLaws limit)
    (initialIngest t0 seeds sources).

(** The laws a run with the arguments [argv] goes through. *)
Definition lawsOfRun (argv : list jsstr) : list LawIndexEntry.t :=
  selectLaws (fst (parseArgs argv)).

(** * Vocabulary of the further properties *)

(** ** Fetch client *)

(** The two addresses [fetchLawHtml] asks for. *)
Definition refUrl (code : jsstr) : jsstr :=
  js "https://www.diputados.gob.mx/LeyesBiblio/ref/" ++ code ++ js ".htm".

Definition altUrl (code : jsstr) : jsstr :=
  js "https://www.diputados.gob.mx/LeyesBiblio/ref/" ++ code ++ js "_ref.htm".

(** The canonical addresses of a law's document and PDF file. *)
Definition docDefault (code : jsstr) : jsstr :=
  js "https://www.diputados.gob.mx/LeyesBiblio/doc/" ++ code ++ js ".doc".

Definition pdfDefault (code : jsstr) : jsstr :=
  js "https://www.diputados.gob.mx/LeyesBiblio/pdf/" ++ code ++ js ".pdf".

(** Every request is answered 404. *)
Definition allGone (server : Server) : Prop :=
  forall n u, statusOf (server n u) = Some 404.

(** How often the address [u] occurs in a list of addresses. *)
Definition occurrences (u : jsstr) (l : list jsstr) : nat :=
  List.length (filter (str_eqb u) l).

(** Every request runs into the timeout. *)
Definition allTimedOut (server : Server) : Prop :=
  forall n u, server n u = Aborted.

(** ** Concurrency gate *)

(** Whether a caller holds a slot. *)
Definition flying (pc : Gate.Pc) : nat :=
  match pc with Gate.InFlight => 1 | _ => 0 end.

Definition countFlying (l : list Gate.Pc) : nat :=
  List.length (filter (fun pc => match pc with Gate.InFlight => true | _ => false end) l).

(** ** Parsers *)

(** Leading white space of a string. *)
Fixpoint countSp (s : jsstr) : nat :=
  match s with
  | c :: s' => if is_space c then S (countSp s') else 0
  | [] => 0
  end.

(** Every maximal run of white space replaced by [x]; [inrun] tells that
    the code unit before [s] was white space. *)
Fixpoint squash (x : jsstr) (inrun : bool) (s : jsstr) : jsstr :=
  match s with
  | [] => []
  | c :: s' =>
      if is_space c
      then (if inrun then [] else x) ++ squash x true s'
      else c :: squash x false s'
  end.

(** No two neighbouring code units are both white space. *)
Fixpoint singleSpaced (s : jsstr) : bool :=
  match s with
  | c :: s' =>
      match s' with
      | d :: _ => negb (is_space c && is_space d) && singleSpaced s'
      | [] => true
      end
  | [] => true
  end.

Definition headIsSpace (s : jsstr) : bool :=
  match s with c :: _ => is_space c | [] => false end.

(** White space normal form: the only white space is the blank, blanks are
    single, and none stands at either end. *)
Definition spaceNormal (s : jsstr) : Prop :=
  Forall (fun c => is_space c = true -> c = SP) s /\
  singleSpaced s = true /\
  headIsSpace s = false /\
  headIsSpace (rev s) = false.

Definition spaceFree (s : jsstr) : Prop := Forall (fun c => is_space c = false) s.

(** Size limits of a provision: content between 15 and 8000 code units, a
    chapter that is absent or between 1 and 200 code units, a key without
    white space. *)
Definition withinLimits (p : ParsedProvision.t) : Prop :=
  15 <= strlen (ParsedProvision.content p) <= 8000 /\
  (forall c, ParsedProvision.chapter p = Some c -> 1 <= strlen c <= 200) /\
  spaceFree (ParsedProvision.provision_ref p).

(** The shape of the [i]-th transitory provision. *)
Definition transitoryShape (p : ParsedProvision.t) : Prop :=
  exists i,
    i < 20 /\
    ParsedProvision.provision_ref p = js "trans" ++ showNat (i + 1) /\
    ParsedProvision.section p = js "Transitorio " ++ showNat (i + 1) /\
    ParsedProvision.chapter p = Some (js "TRANSITORIOS").

(** A definition made from a provision: it names the provision's key as its
    source, the provision's content matches a cue phrase, the term has 3 to
    99 code units, and the text is the term, a colon and a blank, and an
    explanation of more than 5 code units. *)
Definition definedBy (d : ParsedDefinition.t) (p : ParsedProvision.t) : Prop :=
  ParsedDefinition.source_provision d = Some (ParsedProvision.provision_ref p) /\
  test true Pat.definitionCueRe (ParsedProvision.content p) = true /\
  3 <= strlen (ParsedDefinition.term d) <= 99 /\
  exists rest,
    ParsedDefinition.definition d = ParsedDefinition.term d ++ js ": " ++ rest /\
    6 <= strlen rest.

(** A line the first loop of [cleanPdfText] keeps with its text: not blank
    and not a page artefact. *)
Definition keptLine (l : jsstr) : bool :=
  negb (strlen (trim l) =? 0) && negb (skipLine (trim l)).

(** A running title among the lines [ls]: at least five of them are
    upper-case lines with the same trimmed text as [l]. *)
Definition runningTitle (ls : list jsstr) (l : jsstr) : bool :=
  5 <=? cnt (trim l) ls.

(** Some entry of [capsLineCount] removes the line. *)
Definition dropped (counts : list (jsstr * nat)) (l : jsstr) : bool :=
  existsb (fun kc => (5 <=? snd kc) && str_eqb (trim l) (fst kc)) counts.

(** The line opens the transitory section for the line scan. *)
Definition transitoryMarker (l : jsstr) : bool :=
  match headerLabel l with
  | Some _ => false
  | None => test true Pat.transitoryRe l
  end.

Definition scanStart : scanState := ScanState [] [] None.

(** A page the markup parser takes for an error page. *)
Definition errorPage (html : jsstr) : bool :=
  includes (js "Error 404") html || includes (js "No encontrado") html
  || (strlen html <? 500).

(** ** Document assembler *)

(** What a stretch of the loop adds to the books: the report rows [rows],
    one per law, and counters that agree with them. *)
Definition accounted (skipFetch : bool) (laws : list LawIndexEntry.t)
    (rows : list ReportRow.t) (s s' : Ingest) : Prop :=
  report s' = report s ++ rows /\
  map ReportRow.law rows = map LawIndexEntry.shortName laws /\
  processed s' = processed s + List.length laws /\
  totalProvisions s'
  = totalProvisions s + list_sum (map ReportRow.provisions rows) /\
  totalDefinitions s'
  = totalDefinitions s + list_sum (map ReportRow.definitions rows) /\
  failed s <= failed s' /\
  failed s' + fallbacks s <= fallbacks s' + failed s /\
  fallbacks s' + skipped s' + processed s
  <= processed s' + fallbacks s + skipped s /\
  (if skipFetch then skipped s <= skipped s' else skipped s' = skipped s).

(** The law can be served without the network under [--skip-fetch]. *)
Definition cachedLaw (s : Ingest) (law : LawIndexEntry.t) : Prop :=
  seedDir s (seedFile law) <> None \/ sourceDir s (sourceFile law) <> None.

(** Two states that differ at most in what their directories hold, and
    agree on the seed files of the laws [done]. *)
Definition sameBooks (done : list LawIndexEntry.t) (s1 s2 : Ingest) : Prop :=
  world s1 = world s2 /\ report s1 = report s2 /\
  processed s1 = processed s2 /\ skipped s1 = skipped s2 /\
  failed s1 = failed s2 /\ fallbacks s1 = fallbacks s2 /\
  totalProvisions s1 = totalProvisions s2 /\
  totalDefinitions s1 = totalDefinitions s2 /\
  forall law, In law done ->
    seedDir s1 (seedFile law) = seedDir s2 (seedFile law).

(** No string occurs twice in the list. *)
Fixpoint distinct (l : list jsstr) : bool :=
  match l with
  | [] => true
  | x :: r => negb (existsb (str_eqb x) r) && distinct r
  end.

(** The seed directory holds, under the law's file name, a record that
    carries the law's own metadata and has at least one provision. *)
Definition ownSeed (law : LawIndexEntry.t) (s : Ingest) : Prop :=
  exists p,
    seedDir s (seedFile law) = Some p /\
    carriesMetadata law p /\
    1 <= List.length (ParsedLaw.provisions p).

(** * Properties *)

(** ** Strings *)

Lemma str_eqb_eq (a b : jsstr) : str_eqb a b = true <-> a = b.
Proof.
  revert b; induction a as [|x a IH]; intros [|y b]; simpl; split; intro H;
    try reflexivity; try discriminate.
  - apply andb_true_iff in H as [H1 H2].
    apply N.eqb_eq in H1. apply IH in H2. congruence.
  - injection H as -> ->. rewrite N.eqb_refl. simpl. apply IH. reflexivity.
Qed.

Lemma str_eqb_refl (a : jsstr) : str_eqb a a = true.
Proof. apply str_eqb_eq. reflexivity. Qed.

Lemma str_eqb_neq (a b : jsstr) : str_eqb a b = false <-> a <> b.
Proof.
  split.
  - intros H E. apply str_eqb_eq in E. congruence.
  - intros H. destruct (str_eqb a b) eqn:E; [|reflexivity].
    apply str_eqb_eq in E. contradiction.
Qed.

(** ** Reference keys *)

(** C5: the labels captured from "Artículo 1o.", "Artículo 1." and
    "ARTÍCULO 1-" normalise to the same key [art1]; the labels "211 Bis 1"
    and "212" (as written, and as captured from the marker lines
    "Artículo 211 Bis 1.-" and "Artículo 212.-") normalise to the distinct
    keys [art211bis1] and [art212]. *)
Theorem reference_key_normalization :
  keyOfMarker (js "Artículo 1o.") = Some (js "art1") /\
  keyOfMarker (js "Artículo 1.") = Some (js "art1") /\
  keyOfMarker (js "ARTÍCULO 1-") = Some (js "art1") /\
  articleLabel (js "Artículo 211 Bis 1.-") = Some (js "211 Bis 1") /\
  articleLabel (js "Artículo 212.-") = Some (js "212") /\
  normalizeArticleRef (js "211 Bis 1") = js "art211bis1" /\
  normalizeArticleRef (js "212") = js "art212" /\
  normalizeArticleRef (js "211 Bis 1") <> normalizeArticleRef (js "212").
Proof.
  repeat split; try (vm_compute; reflexivity).
  vm_compute. discriminate.
Qed.

(** ** Metadata frame *)

Lemma assemble_carriesMetadata law ps ds : carriesMetadata law (assemble law ps ds).
Proof. repeat split. Qed.

(** C10: whatever the body, [parseMexicanText] and [parseMexicanHtml] copy
    id, title, title_en, short_name, status, issued_date, in_force_date and
    url from the descriptor, on the short-circuit branch as on the regular
    one. *)
Theorem parsers_carry_metadata (text : jsstr) (law : LawIndexEntry.t) :
  carriesMetadata law (parseMexicanText text law) /\
  carriesMetadata law (parseMexicanHtml text law).
Proof.
  split.
  - unfold parseMexicanText.
    destruct (strlen text <? 200); [apply assemble_carriesMetadata|].
    destruct (extractArticlesFromText (cleanPdfText text)).
    apply assemble_carriesMetadata.
  - unfold parseMexicanHtml.
    destruct (_ || _); [apply assemble_carriesMetadata|].
    destruct (extractArticles text).
    apply assemble_carriesMetadata.
Qed.

(** ** Retry loop *)

Lemma rateLimit_requests w w' : rateLimit w = Some w' -> requests w' = requests w.
Proof.
  unfold rateLimit. destruct (MAX_CONCURRENT <=? activeRequests w); [discriminate|].
  intros H. injection H as <-. simpl.
  destruct (_ <? _)%Z; reflexivity.
Qed.

Lemma rateLimit_active w w' :
  rateLimit w = Some w' -> activeRequests w' = S (activeRequests w).
Proof.
  unfold rateLimit. destruct (MAX_CONCURRENT <=? activeRequests w); [discriminate|].
  intros H. injection H as <-. simpl.
  destruct (_ <? _)%Z; reflexivity.
Qed.

Lemma rateLimit_free w :
  activeRequests w < MAX_CONCURRENT -> exists w', rateLimit w = Some w'.
Proof.
  intros H. unfold rateLimit.
  destruct (MAX_CONCURRENT <=? activeRequests w) eqn:E.
  - apply Nat.leb_le in E. lia.
  - eexists. reflexivity.
Qed.

(** A server that answers 500 to every request for [url] drives the loop
    through all of its remaining iterations. *)
Lemma fetchAttempts_all_500 (server : Server) (url : jsstr) (r : nat) :
  (forall n, statusOf (server n url) = Some 500) ->
  forall left attempt w,
    attempt + left = S r -> 0 < left ->
    exists res w',
      fetchAttempts server url r left attempt w = (Returns res, w') /\
      FetchResult.status res = 500 /\
      requests w' = requests w ++ repeat url left /\
      activeRequests w' = activeRequests w.
Proof.
  intros Hsrv. induction left as [|left IH]; intros attempt w Hsum Hpos; [lia|].
  simpl. specialize (Hsrv (List.length (requests w))).
  destruct (server (List.length (requests w)) url) as [st text bytes ct fu| |];
    try discriminate.
  simpl in Hsrv. injection Hsrv as ->.
  change (retryable 500) with true. simpl andb.
  destruct (attempt <? r) eqn:E.
  - apply Nat.ltb_lt in E.
    destruct (IH (S attempt) (sleep (backoff attempt)
                (MkWorld (now w) (lastRequestTime w) (activeRequests w)
                   (requests w ++ [url])))) as (res & w' & H1 & H2 & H3 & H4);
      [lia | lia |].
    exists res, w'. repeat split; try assumption.
    rewrite H3. simpl. rewrite <- app_assoc. reflexivity.
  - apply Nat.ltb_ge in E. assert (left = 0) by lia. subst left.
    eexists. eexists. repeat split.
Qed.

(** C4: with retry cap [r] and a server answering 500 to every request,
    [fetchWithRateLimit] calls [fetch] exactly [r + 1] times, then returns
    the result with status 500 (and gives its slot back). *)
Theorem persistent_500_makes_r_plus_1_attempts
    (server : Server) (url : jsstr) (r : nat) (w : World) :
  activeRequests w < MAX_CONCURRENT ->
  (forall n, statusOf (server n url) = Some 500) ->
  exists res w',
    fetchWithRateLimit server url r w = (Returns res, w') /\
    FetchResult.status res = 500 /\
    requests w' = requests w ++ repeat url (r + 1) /\
    activeRequests w' = activeRequests w.
Proof.
  intros Hfree Hsrv. unfold fetchWithRateLimit, withSlot.
  destruct (rateLimit_free w Hfree) as [w1 Hw1]. rewrite Hw1.
  destruct (@fetchAttempts_all_500 server url r Hsrv (S r) 0 w1)
    as (res & w2 & H1 & H2 & H3 & H4); [lia | lia |].
  rewrite H1. exists res, (releaseSlot w2). repeat split.
  - assumption.
  - simpl. rewrite H3, (rateLimit_requests _ Hw1).
    replace (r + 1) with (S r) by lia. reflexivity.
  - simpl. rewrite H4, (rateLimit_active _ Hw1). lia.
Qed.

Lemma persistent_500_witness :
  exists res w',
    fetchWithRateLimit (fun _ _ => Response 500 [] [] [] []) (js "https://x/") 3
      (MkWorld 1000 0 0 []) = (Returns res, w') /\
    FetchResult.status res = 500 /\
    requests w' = [] ++ repeat (js "https://x/") (3 + 1) /\
    activeRequests w' = 0.
Proof.
  apply (persistent_500_makes_r_plus_1_attempts
           (fun _ _ => Response 500 [] [] [] []) (js "https://x/") 3
           (MkWorld 1000 0 0 [])).
  - unfold MAX_CONCURRENT. simpl. lia.
  - intros n. reflexivity.
Defined.

(** ** Fallback chain *)

Lemma download_404 server url w :
  nextStatus server url w = Some 404 ->
  downloadAttempts server url 3 0 w = (NextCandidate, logged url w).
Proof.
  unfold nextStatus. simpl.
  destruct (server (List.length (requests w)) url); try discriminate.
  simpl. intros H. injection H as ->. reflexivity.
Qed.



Lemma pushNew_nonempty xs x : PdfFetcher.pushNew xs x <> [].
Proof.
  unfold PdfFetcher.pushNew. destruct (PdfFetcher.mem x xs) eqn:E.
  - destruct xs; [discriminate | discriminate].
  - destruct xs; discriminate.
Qed.

Lemma candidateUrls_nonempty code pdfUrl :
  PdfFetcher.candidateUrls code pdfUrl <> [].
Proof.
  unfold PdfFetcher.candidateUrls.
  assert (H : PdfFetcher.candidateCodes code <> []).
  { unfold PdfFetcher.candidateCodes. apply pushNew_nonempty. }
  destruct (PdfFetcher.candidateCodes code) as [|c cs] using rev_ind;
    [contradiction|].
  rewrite fold_left_app. simpl. apply pushNew_nonempty.
Qed.

Lemma candidates_head_doc code docUrl pdfUrl :
  exists c0 cs, DocFetcher.candidates code docUrl pdfUrl = c0 :: cs
                /\ Candidate.format c0 = doc.
Proof.
  unfold DocFetcher.candidates. destruct (given docUrl); simpl; eauto.
Qed.















Lemma firstUrl_app pre c post :
  DocFetcher.firstUrl (pre ++ c :: post)
  = hd (Candidate.url c) (map Candidate.url pre).
Proof. destruct pre; reflexivity. Qed.



(** ** Document assembler *)

Lemma writeFile_same {A} (d : Dir A) name (x : A) : writeFile d name x name = Some x.
Proof. unfold writeFile. rewrite str_eqb_refl. reflexivity. Qed.

Lemma fetchAttempts_active server url r :
  forall left attempt w,
    activeRequests (snd (fetchAttempts server url r left attempt w))
    = activeRequests w.
Proof.
  induction left as [|left IH]; intros attempt w; simpl; [reflexivity|].
  destruct (server (List.length (requests w)) url) as [st text bytes ct fu| |].
  - destruct (retryable st && (attempt <? r)); [rewrite IH|]; reflexivity.
  - destruct (attempt <? r); [rewrite IH|]; reflexivity.
  - reflexivity.
Qed.

Lemma fetchAttempts_returns server url r :
  forall left attempt w, fst (fetchAttempts server url r left attempt w) <> Hangs.
Proof.
  induction left as [|left IH]; intros attempt w; simpl; [discriminate|].
  destruct (server (List.length (requests w)) url) as [st text bytes ct fu| |].
  - destruct (retryable st && (attempt <? r)); [apply IH | discriminate].
  - destruct (attempt <? r); [apply IH | discriminate].
  - discriminate.
Qed.

(** From an idle gate, [fetchWithRateLimit] comes back and leaves the gate
    idle. *)
Lemma fetchWithRateLimit_idle server url r w :
  activeRequests w = 0 ->
  fst (fetchWithRateLimit server url r w) <> Hangs /\
  activeRequests (snd (fetchWithRateLimit server url r w)) = 0.
Proof.
  intros H0. unfold fetchWithRateLimit, withSlot.
  destruct (rateLimit_free w) as [w1 Hw1]; [unfold MAX_CONCURRENT; lia|].
  rewrite Hw1.
  pose proof (fetchAttempts_active server url r (S r) 0 w1) as Ha.
  pose proof (fetchAttempts_returns server url r (S r) 0 w1) as Hr.
  destruct (fetchAttempts server url r (S r) 0 w1) as [out w2].
  simpl in *. split; [assumption|].
  rewrite Ha, (rateLimit_active _ Hw1), H0. reflexivity.
Qed.

Lemma fetchLawHtml_idle server code w :
  activeRequests w = 0 ->
  fst (fetchLawHtml server code w) <> Hangs /\
  activeRequests (snd (fetchLawHtml server code w)) = 0.
Proof.
  intros H0. unfold fetchLawHtml.
  set (u1 := js "https://www.diputados.gob.mx/LeyesBiblio/ref/" ++ code ++ js ".htm").
  set (u2 := js "https://www.diputados.gob.mx/LeyesBiblio/ref/" ++ code ++ js "_ref.htm").
  destruct (fetchWithRateLimit_idle server u1 3 w H0) as [R1 A1].
  destruct (fetchWithRateLimit server u1 3 w) as [[res| m |] w1]; simpl in *;
    try (split; [discriminate | assumption]); [|contradiction].
  destruct (usable res); [split; [discriminate | assumption]|].
  destruct (fetchWithRateLimit_idle server u2 3 w1 A1) as [R2 A2].
  destruct (fetchWithRateLimit server u2 3 w1) as [[res2| m |] w2]; simpl in *;
    try (split; [discriminate | assumption]); [|contradiction].
  destruct (usable res2); split; try discriminate; assumption.
Qed.

Lemma createFallbackSeed_provisions law :
  ParsedLaw.provisions (createFallbackSeed law) = [stubProvision law].
Proof. reflexivity. Qed.

Lemma parseAndWrite_effect law html s :
  exists p,
    1 <= List.length (ParsedLaw.provisions p)
    /\ seedDir (parseAndWrite law html s) = writeFile (seedDir s) (seedFile law) p.
Proof.
  unfold parseAndWrite.
  destruct (List.length (ParsedLaw.provisions (parseMexicanHtml html law)) =? 0) eqn:E.
  - exists (createFallbackSeed law). split; [simpl; lia | reflexivity].
  - exists (parseMexicanHtml html law). split; [|reflexivity].
    apply Nat.eqb_neq in E. lia.
Qed.

Lemma parseAndWrite_world law html s : world (parseAndWrite law html s) = world s.
Proof.
  unfold parseAndWrite.
  destruct (List.length (ParsedLaw.provisions (parseMexicanHtml html law)) =? 0);
    reflexivity.
Qed.

(** From an idle gate every step of the loop comes back, with the gate
    idle again. *)
Lemma processLaw_effect server skipFetch s law :
  activeRequests (world s) = 0 ->
  exists s', processLaw server skipFetch s law = Some s'
             /\ activeRequests (world s') = 0
             /\ seedEffect skipFetch law s s'.
Proof.
  intros H0. unfold processLaw.
  destruct (if skipFetch then seedDir s (seedFile law) else None) as [existing|] eqn:Ec.
  { eexists. split; [reflexivity|]. split; [assumption|].
    left. exists existing. destruct skipFetch; [|discriminate]. auto. }
  destruct (if skipFetch then sourceDir s (sourceFile law) else None) as [html|] eqn:Es.
  { eexists. split; [reflexivity|]. split.
    - simpl. rewrite parseAndWrite_world. assumption.
    - right. apply (parseAndWrite_effect law html s). }
  destruct (fetchLawHtml_idle server (LawIndexEntry.code law) (world s) H0) as [Hr Ha].
  destruct (fetchLawHtml server (LawIndexEntry.code law) (world s))
    as [[result| msg |] w]; simpl in Hr, Ha; [| |contradiction].
  - destruct (negb (FetchResult.status result =? 200)).
    + eexists. split; [reflexivity|]. split; [assumption|].
      right. exists (createFallbackSeed law). split; [simpl; lia | reflexivity].
    + eexists. split; [reflexivity|]. split.
      * simpl. rewrite parseAndWrite_world. assumption.
      * right.
        match goal with
        | |- context [parseAndWrite _ ?h ?s0] =>
            destruct (parseAndWrite_effect law h s0) as (p & Hp & E)
        end.
        exists p. split; [assumption | exact E].
  - eexists. split; [reflexivity|]. split; [assumption|].
    right. exists (createFallbackSeed law). split; [simpl; lia | reflexivity].
Qed.

Lemma seedEffect_here skipFetch law s s' :
  seedEffect skipFetch law s s' ->
  (skipFetch = true -> seedsNonEmpty (seedDir s)) ->
  represented law s'.
Proof.
  intros [(e & Hs & He & E)|(p & Hp & E)] Hne; unfold represented; rewrite E.
  - exists e. split; [assumption|]. exact (Hne Hs _ _ He).
  - exists p. rewrite writeFile_same. auto.
Qed.

Lemma seedEffect_keeps skipFetch law s s' l :
  seedEffect skipFetch law s s' -> represented l s -> represented l s'.
Proof.
  intros [(e & Hs & He & E)|(p & Hp & E)] (q & Hq & Hlen); unfold represented;
    rewrite E.
  - eauto.
  - unfold writeFile. destruct (str_eqb (seedFile l) (seedFile law)); eauto.
Qed.

Lemma seedEffect_nonEmpty skipFetch law s s' :
  seedEffect skipFetch law s s' ->
  seedsNonEmpty (seedDir s) -> seedsNonEmpty (seedDir s').
Proof.
  intros [(e & Hs & He & E)|(p & Hp & E)] Hne; rewrite E; [assumption|].
  intros name q. unfold writeFile. destruct (str_eqb name (seedFile law)).
  - intros H. injection H as <-. assumption.
  - apply Hne.
Qed.

Lemma fetchAndParseLaws_keeps server skipFetch :
  forall laws s s' l,
    activeRequests (world s) = 0 ->
    fetchAndParseLaws server skipFetch laws s = Some s' ->
    represented l s -> represented l s'.
Proof.
  induction laws as [|law laws IH]; intros s s' l H0 E Hl; simpl in E.
  - injection E as <-. assumption.
  - destruct (processLaw_effect server skipFetch s law H0) as (s1 & E1 & Hi & Hef).
    rewrite E1 in E. apply (IH s1 s' l Hi E).
    apply (seedEffect_keeps Hef Hl).
Qed.

Lemma fetchAndParseLaws_represented server skipFetch :
  forall laws s,
    activeRequests (world s) = 0 ->
    (skipFetch = true -> seedsNonEmpty (seedDir s)) ->
    exists s', fetchAndParseLaws server skipFetch laws s = Some s' /\
               forall law, In law laws -> represented law s'.
Proof.
  induction laws as [|law laws IH]; intros s H0 Hne; simpl.
  - exists s. split; [reflexivity | contradiction].
  - destruct (processLaw_effect server skipFetch s law H0) as (s1 & E1 & Hi & Hef).
    rewrite E1.
    destruct (IH s1 Hi) as (s2 & E2 & Hall).
    { intros Hs. apply (seedEffect_nonEmpty Hef). auto. }
    exists s2. split; [assumption|].
    intros law' [<-|Hin]; [|auto].
    apply (@fetchAndParseLaws_keeps server skipFetch laws s1 s2 law Hi E2).
    apply (seedEffect_here Hef Hne).
Qed.

(** C1: the stub carries the law's title, description and URL and is the
    only provision of a fallback seed; a non-200 fetch result, a thrown
    error and a parse without provisions each make the loop write that
    fallback seed; and a whole run, started as [main] starts it, comes back
    with a seed record of at least one provision for every law it was
    given (seed files reused under [--skip-fetch] are required to have been
    written that way). *)
Theorem every_document_is_represented (server : Server) (skipFetch : bool) :
  (forall law,
     ParsedLaw.provisions (createFallbackSeed law) = [stubProvision law] /\
     carriesMetadata law (createFallbackSeed law)) /\
  (forall s law result w,
     notCached skipFetch s law -> mustFetch skipFetch s law ->
     fetchLawHtml server (LawIndexEntry.code law) (world s) = (Returns result, w) ->
     FetchResult.status result <> 200 ->
     wroteStub (processLaw server skipFetch s law) law) /\
  (forall s law msg w,
     notCached skipFetch s law -> mustFetch skipFetch s law ->
     fetchLawHtml server (LawIndexEntry.code law) (world s) = (Throws msg, w) ->
     wroteStub (processLaw server skipFetch s law) law) /\
  (forall s law result w,
     notCached skipFetch s law -> mustFetch skipFetch s law ->
     fetchLawHtml server (LawIndexEntry.code law) (world s) = (Returns result, w) ->
     FetchResult.status result = 200 ->
     ParsedLaw.provisions (parseMexicanHtml (FetchResult.body result) law) = [] ->
     wroteStub (processLaw server skipFetch s law) law) /\
  (forall s law html,
     notCached skipFetch s law ->
     (if skipFetch then sourceDir s (sourceFile law) else None) = Some html ->
     ParsedLaw.provisions (parseMexicanHtml html law) = [] ->
     wroteStub (processLaw server skipFetch s law) law) /\
  (forall laws t0 seeds sources,
     (skipFetch = true -> seedsNonEmpty seeds) ->
     exists s',
       fetchAndParseLaws server skipFetch laws (initialIngest t0 seeds sources)
       = Some s' /\
       forall law, In law laws -> represented law s').
Proof.
  unfold notCached, mustFetch, wroteStub. repeat apply conj.
  - intros law. split; [reflexivity | apply assemble_carriesMetadata].
  - intros s law result w Hc Hm Hf Hs. unfold processLaw.
    rewrite Hc, Hm, Hf. apply Nat.eqb_neq in Hs. rewrite Hs. simpl negb. cbv iota.
    eexists. split; [reflexivity|]. simpl. apply writeFile_same.
  - intros s law msg w Hc Hm Hf. unfold processLaw. rewrite Hc, Hm, Hf.
    eexists. split; [reflexivity|]. simpl. apply writeFile_same.
  - intros s law result w Hc Hm Hf Hs Hp. unfold processLaw.
    rewrite Hc, Hm, Hf, Hs. simpl negb. cbv iota.
    eexists. split; [reflexivity|]. unfold parseAndWrite. rewrite Hp.
    simpl. apply writeFile_same.
  - intros s law html Hc Hh Hp. unfold processLaw. rewrite Hc, Hh.
    eexists. split; [reflexivity|]. unfold parseAndWrite. rewrite Hp.
    simpl. apply writeFile_same.
  - intros laws t0 seeds sources Hne.
    apply fetchAndParseLaws_represented; [reflexivity | exact Hne].
Qed.

Lemma every_document_is_represented_witness :
  let gone : Server := fun _ _ => Response 404 [] [] [] [] in
  let broken : Server := fun _ _ => Failed (js "ECONNRESET") in
  let errorPage : Server := fun _ u => Response 200 (js "Error 404") [] [] u in
  let empty := initialIngest 1000 (fun _ => None) (fun _ => None) in
  let cachedPage :=
    initialIngest 1000 (fun _ => None) (fun _ => Some (js "Error 404")) in
  wroteStub (processLaw gone false empty lfpdppp) lfpdppp /\
  wroteStub (processLaw broken false empty lfpdppp) lfpdppp /\
  wroteStub (processLaw errorPage false empty lfpdppp) lfpdppp /\
  wroteStub (processLaw gone true cachedPage lfpdppp) lfpdppp /\
  exists s',
    fetchAndParseLaws gone true [lfpdppp] empty = Some s' /\
    forall law, In law [lfpdppp] -> represented law s'.
Proof.
  intros gone broken errorPage empty cachedPage.
  destruct (every_document_is_represented gone false) as (_ & G1 & _).
  destruct (every_document_is_represented broken false) as (_ & _ & B2 & _).
  destruct (every_document_is_represented errorPage false) as (_ & _ & _ & E3 & _).
  destruct (every_document_is_represented gone true) as (_ & _ & _ & _ & C4 & C5).
  repeat apply conj.
  - eapply G1; [reflexivity | reflexivity | reflexivity | simpl; discriminate].
  - eapply B2; [reflexivity | reflexivity | reflexivity].
  - eapply E3; [reflexivity | reflexivity | reflexivity | reflexivity | reflexivity].
  - eapply C4; [reflexivity | reflexivity | reflexivity].
  - apply C5. intros _ name p H. discriminate.
Defined.

(** ** Concurrency gate *)

(** C2: under cooperative scheduling the counter is not bounded by
    [MAX_CONCURRENT]: the test of the gate and the increment are separated
    by the [await] of the minimum delay, and the schedule [burst] reaches a
    state with seven requests in flight. *)
Theorem gate_overshoot :
  exists s,
    Gate.run burst (Gate.start 1000 7) = Some s /\
    Gate.active s = 7 /\
    Gate.inFlight s = 7 /\
    MAX_CONCURRENT < Gate.active s.
Proof.
  eexists. split; [vm_compute; reflexivity|].
  repeat split. vm_compute. lia.
Qed.

(** ** Reference keys within a document *)

Lemma somes_In {A B} (f : A -> option B) (l : list A) (y : B) :
  In y (somes (map f l)) -> exists x, In x l /\ f x = Some y.
Proof.
  induction l as [|a l IH]; simpl; [contradiction|].
  destruct (f a) as [b|] eqn:E.
  - intros [<-|H]; [eauto|]. destruct (IH H) as (x & Hx & Hf). eauto.
  - intros H. destruct (IH H) as (x & Hx & Hf). eauto.
Qed.



Lemma indexed_fst {A} (l : list A) : map fst (indexed l) = seq 0 (List.length l).
Proof.
  unfold indexed. generalize 0. induction l as [|a l IH]; intros n; simpl;
    [reflexivity|]. rewrite IH. reflexivity.
Qed.

Lemma normalizeArticleRef_art raw :
  startsWith (js "art") (normalizeArticleRef raw) = true.
Proof.
  unfold normalizeArticleRef. cbv zeta.
  match goal with
  | |- context [if ?c then _ else _] => destruct c eqn:E
  end; [assumption | reflexivity].
Qed.







Lemma firstn_seq_min n : forall a m, firstn n (seq a m) = seq a (Nat.min n m).
Proof.
  induction n as [|n IH]; intros a [|m]; simpl; try reflexivity.
  rewrite IH. reflexivity.
Qed.

Lemma firstn_indexed_fst {A} n (l : list A) :
  map fst (firstn n (indexed l)) = seq 0 (Nat.min n (List.length l)).
Proof.
  rewrite <- firstn_map, indexed_fst, firstn_seq_min. reflexivity.
Qed.



Lemma parseMexicanText_provisions text law :
  ParsedLaw.provisions (parseMexicanText text law)
  = regularOf text ++ transitoryOf text.
Proof.
  unfold parseMexicanText, regularOf, transitoryOf.
  destruct (strlen text <? 200); [reflexivity|].
  destruct (extractArticlesFromText (cleanPdfText text)). reflexivity.
Qed.



(** ** Blank-run collapsing *)

Lemma rmatch_char_nl {R} prev c rest pos caps (k : mstate -> option R) :
  rmatch false (Char NL) (MState prev (c :: rest) pos caps) k
  = if (c =? NL)%N then k (MState (Some c) rest (S pos) caps) else None.
Proof.
  simpl. unfold char_matches. rewrite N.eqb_sym. reflexivity.
Qed.

Lemma rmatch_char_nil {R} prev pos caps (k : mstate -> option R) :
  rmatch false (Char NL) (MState prev [] pos caps) k = None.
Proof. reflexivity. Qed.

Lemma star_nl rest : forall prev pos caps,
  exists st,
    rmatch false (Star true (Char NL)) (MState prev rest pos caps)
      (fun st => Some st) = Some st
    /\ m_pos st = pos + countNL rest /\ m_caps st = caps.
Proof.
  induction rest as [|c rest IH]; intros prev pos caps.
  - eexists. split; [reflexivity|]. simpl. split; [lia | reflexivity].
  - change (rmatch false (Star true (Char NL)) (MState prev (c :: rest) pos caps)
              (fun st => Some st))
      with (match rmatch false (Char NL) (MState prev (c :: rest) pos caps)
                    (fun s' => if pos <? m_pos s'
                               then rmatch false (Star true (Char NL)) s'
                                      (fun st => Some st)
                               else None) with
            | Some v => Some v
            | None => Some (MState prev (c :: rest) pos caps)
            end).
    rewrite rmatch_char_nl. simpl countNL.
    destruct (c =? NL)%N.
    + cbn [m_pos]. replace (pos <? S pos) with true
        by (symmetry; apply Nat.ltb_lt; lia).
      destruct (IH (Some c) (S pos) caps) as (st & E & Hp & Hc).
      rewrite E. exists st. split; [reflexivity|]. split; [lia | assumption].
    + eexists. split; [reflexivity|]. simpl. split; [lia | reflexivity].
Qed.

Lemma rmatch_seq {R} ic r1 r2 st (k : mstate -> option R) :
  rmatch ic (Seq r1 r2) st k = rmatch ic r1 st (fun st' => rmatch ic r2 st' k).
Proof. reflexivity. Qed.

Lemma rmatch_eps {R} ic st (k : mstate -> option R) : rmatch ic Eps st k = k st.
Proof. reflexivity. Qed.

(** One line feed of the pattern against the next code unit of the input. *)
Ltac nl_step rest H :=
  rewrite ?rmatch_seq, ?rmatch_eps;
  destruct rest as [|?c rest];
  [ try reflexivity; simpl in H; try lia
  | rewrite rmatch_char_nl; cbv beta;
    match goal with
    | |- context [(?c =? NL)%N] =>
        let Hne := fresh "Hne" in
        destruct (N.eqb_spec c NL) as [->|Hne];
        [ simpl in H
        | apply N.eqb_neq in Hne; simpl in H; rewrite Hne in H;
          try reflexivity; try lia ]
    end ].

Lemma blankRun_none prev rest pos :
  countNL rest < 4 -> match_here false Pat.blankRunRe prev rest pos = None.
Proof.
  unfold match_here, Pat.blankRunRe, atLeast, times, star. intros H.
  nl_step rest H. nl_step rest H. nl_step rest H. nl_step rest H. lia.
Qed.

Lemma blankRun_some prev rest pos :
  4 <= countNL rest ->
  match_here false Pat.blankRunRe prev rest pos
  = Some (Found pos (pos + countNL rest) []).
Proof.
  unfold match_here, Pat.blankRunRe, atLeast, times, star. intros H.
  nl_step rest H. nl_step rest H. nl_step rest H. nl_step rest H.
  rewrite ?rmatch_seq, ?rmatch_eps.
  destruct (star_nl rest (Some NL) (S (S (S (S pos)))) []) as (st & E & Hp & Hc).
  rewrite E, Hp, Hc. f_equal. f_equal. simpl. lia.
Qed.

Lemma countNL_le s : countNL s <= List.length s.
Proof.
  induction s as [|c s IH]; simpl; [lia|]. destruct (c =? NL)%N; lia.
Qed.

Lemma dropNL_length s : List.length (dropNL s) + countNL s = List.length s.
Proof.
  induction s as [|c s IH]; simpl; [reflexivity|].
  destruct (c =? NL)%N; simpl; lia.
Qed.

Lemma countNL_dropNL s : countNL (dropNL s) = 0.
Proof.
  induction s as [|c s IH]; simpl; [reflexivity|].
  destruct (c =? NL)%N eqn:E; [assumption|]. simpl. rewrite E. reflexivity.
Qed.

(** Skipping the line feeds a match has covered. *)
Lemma replace_skip_nl rest : forall prev pos,
  exists prev' pos',
    replace_from false Pat.blankRunRe threeNL prev rest pos (countNL rest)
    = replace_from false Pat.blankRunRe threeNL prev' (dropNL rest) pos' 0.
Proof.
  induction rest as [|c rest IH]; intros prev pos.
  - exists prev, pos. reflexivity.
  - simpl countNL. simpl dropNL. destruct (c =? NL)%N.
    + cbn [replace_from]. apply IH.
    + exists prev, pos. reflexivity.
Qed.

Lemma squeeze_skip s : forall run,
  3 <= run -> squeeze run s = squeeze 0 (dropNL s).
Proof.
  induction s as [|c s IH]; intros run H; simpl; [reflexivity|].
  destruct (c =? NL)%N eqn:E.
  - replace (run <? 3) with false by (symmetry; apply Nat.ltb_ge; lia).
    apply IH. lia.
  - simpl. rewrite E. reflexivity.
Qed.

Lemma squeeze_run s : forall run,
  run + countNL s <= 3 -> squeeze run s = squeeze 0 s.
Proof.
  induction s as [|c s IH]; intros run H; simpl in *; [reflexivity|].
  destruct (c =? NL)%N eqn:E; [|reflexivity].
  replace (run <? 3) with true by (symmetry; apply Nat.ltb_lt; lia).
  simpl. f_equal. rewrite (IH (S run)), (IH 1); [reflexivity | lia | lia].
Qed.

(** On a run of at least four line feeds [squeeze] keeps three. *)
Lemma squeeze_long s :
  4 <= countNL s -> squeeze 0 s = [NL; NL; NL] ++ squeeze 0 (dropNL s).
Proof.
  intros H.
  destruct s as [|c1 s]; [simpl in H; lia|]. simpl in H.
  destruct (N.eqb_spec c1 NL) as [->|]; [|lia].
  destruct s as [|c2 s]; [simpl in H; lia|]. simpl in H.
  destruct (N.eqb_spec c2 NL) as [->|]; [|lia].
  destruct s as [|c3 s]; [simpl in H; lia|]. simpl in H.
  destruct (N.eqb_spec c3 NL) as [->|]; [|lia].
  cbn [squeeze dropNL]. change (NL =? NL)%N with true. cbv iota.
  change (0 <? 3) with true. change (1 <? 3) with true. change (2 <? 3) with true.
  cbv iota. cbn [app]. do 3 f_equal. apply squeeze_skip. lia.
Qed.

Lemma replace_blankRun_squeeze n : forall rest prev pos,
  List.length rest <= n ->
  replace_from false Pat.blankRunRe threeNL prev rest pos 0 = squeeze 0 rest.
Proof.
  induction n as [|n IH]; intros rest prev pos Hlen.
  - destruct rest; [|simpl in Hlen; lia]. reflexivity.
  - destruct rest as [|c rest]; [reflexivity|].
    cbn [replace_from].
    destruct (Nat.lt_ge_cases (countNL (c :: rest)) 4) as [Hlt|Hge].
    + rewrite (@blankRun_none prev (c :: rest) pos Hlt).
      rewrite IH by (simpl in Hlen; lia).
      simpl. destruct (c =? NL)%N eqn:E; [|reflexivity].
      change (0 <? 3) with true. cbv iota. f_equal.
      symmetry. apply squeeze_run. simpl in Hlt. rewrite E in Hlt. lia.
    + rewrite (@blankRun_some prev (c :: rest) pos Hge). cbn [f_end].
      replace (pos + countNL (c :: rest) =? pos) with false
        by (symmetry; apply Nat.eqb_neq; lia).
      rewrite (@squeeze_long (c :: rest) Hge). unfold threeNL at 1. f_equal.
      assert (Ec : (c =? NL)%N = true).
      { simpl in Hge. destruct (c =? NL)%N; [reflexivity | lia]. }
      simpl countNL. simpl dropNL. rewrite Ec.
      replace (pred (pos + S (countNL rest) - pos)) with (countNL rest) by lia.
      destruct (replace_skip_nl rest (Some c) (S pos)) as (prev' & pos' & E).
      rewrite E. apply IH.
      pose proof (dropNL_length rest). simpl in Hlen. lia.
Qed.

Lemma collapse_squeeze s :
  replaceAll false Pat.blankRunRe (fun _ => [NL; NL; NL]) s = squeeze 0 s.
Proof.
  unfold replaceAll. apply (@replace_blankRun_squeeze (List.length s)). lia.
Qed.

Lemma squeeze_idem s : forall run, squeeze run (squeeze run s) = squeeze run s.
Proof.
  induction s as [|c s IH]; intros run; simpl; [reflexivity|].
  destruct (c =? NL)%N eqn:E.
  - destruct (run <? 3) eqn:R.
    + simpl. rewrite E, R. f_equal. apply IH.
    + apply Nat.ltb_ge in R.
      rewrite (@squeeze_skip (squeeze (S run) s) run R).
      rewrite <- (@squeeze_skip (squeeze (S run) s) (S run)) by lia.
      apply IH.
  - simpl. rewrite E. f_equal. apply IH.
Qed.

(** ** Lines *)

Lemma split_nl_cons s : exists l ls, split_nl s = l :: ls.
Proof.
  destruct s as [|c s]; simpl; [eauto|].
  destruct (c =? NL)%N; [eauto|]. destruct (split_nl s); eauto.
Qed.

Lemma join_split s : join_nl (split_nl s) = s.
Proof.
  induction s as [|c s IH]; [reflexivity|]. simpl.
  destruct (split_nl_cons s) as (l & ls & E). rewrite E in *.
  destruct (N.eqb_spec c NL) as [->|Hc].
  - change (join_nl ([] :: l :: ls)) with (NL :: join_nl (l :: ls)).
    rewrite IH. reflexivity.
  - destruct ls as [|l' ls'].
    + simpl in *. rewrite IH. reflexivity.
    + change (join_nl ((c :: l) :: l' :: ls'))
        with (c :: join_nl (l :: l' :: ls')).
      rewrite IH. reflexivity.
Qed.

Lemma split_nlFree s : Forall nlFree (split_nl s).
Proof.
  induction s as [|c s IH]; simpl.
  - repeat constructor.
  - destruct (N.eqb_spec c NL) as [->|Hc].
    + constructor; [constructor | assumption].
    + destruct (split_nl s) as [|l ls]; [repeat constructor; assumption|].
      inversion IH; subst. constructor; [constructor|]; assumption.
Qed.

Lemma split_app_nlFree l : nlFree l -> forall s,
  split_nl (l ++ NL :: s) = l :: split_nl s.
Proof.
  induction 1 as [|c l Hc Hl IH]; intros s; simpl; [reflexivity|].
  apply N.eqb_neq in Hc. rewrite Hc, IH. reflexivity.
Qed.

Lemma split_one_nlFree l : nlFree l -> split_nl l = [l].
Proof.
  induction 1 as [|c l Hc Hl IH]; simpl; [reflexivity|].
  apply N.eqb_neq in Hc. rewrite Hc, IH. reflexivity.
Qed.

Lemma split_join ls :
  Forall nlFree ls -> ls <> [] -> split_nl (join_nl ls) = ls.
Proof.
  induction 1 as [|l ls Hl Hls IH]; intros Hne; [contradiction|].
  destruct ls as [|l' ls'].
  - simpl. apply split_one_nlFree. assumption.
  - change (join_nl (l :: l' :: ls')) with (l ++ NL :: join_nl (l' :: ls')).
    rewrite (@split_app_nlFree l Hl), IH; [reflexivity | discriminate].
Qed.

Lemma nonEmpty_split_join ls :
  Forall nlFree ls -> nonEmpty (split_nl (join_nl ls)) = nonEmpty ls.
Proof.
  intros H. destruct ls as [|l ls]; [reflexivity|].
  rewrite split_join; [reflexivity | assumption | discriminate].
Qed.

(** Collapsing removes empty lines only. *)
Lemma squeeze_lines s : forall run,
  nonEmpty (split_nl (squeeze run s)) = nonEmpty (split_nl s) /\
  (run < 3 ->
   hd [] (split_nl (squeeze run s)) = hd [] (split_nl s) /\
   nonEmpty (tl (split_nl (squeeze run s))) = nonEmpty (tl (split_nl s))).
Proof.
  induction s as [|c s IH]; intros run.
  - simpl. auto.
  - simpl. destruct (N.eqb_spec c NL) as [->|Hc].
    + destruct (run <? 3) eqn:R.
      * simpl. change (NL =? NL)%N with true. cbv iota.
        destruct (IH (S run)) as [H1 _]. simpl. rewrite H1. auto.
      * apply Nat.ltb_ge in R. destruct (IH (S run)) as [H1 _].
        split; [simpl; assumption | lia].
    + simpl. apply N.eqb_neq in Hc. rewrite Hc.
      destruct (IH 0) as [_ H2]. destruct H2 as [Hh Ht]; [lia|].
      destruct (split_nl_cons (squeeze 0 s)) as (l1 & ls1 & E1).
      destruct (split_nl_cons s) as (l2 & ls2 & E2).
      rewrite E1, E2 in *. simpl in Hh, Ht. subst l2.
      simpl. rewrite Ht. auto.
Qed.

(** ** Line filter and repeated running titles *)

Lemma okLine_nil : okLine [].
Proof. reflexivity. Qed.

Lemma cleanLine_cases l l' : cleanLine l = Some l' -> l' = [] \/ l' = l.
Proof.
  unfold cleanLine. cbv zeta.
  destruct (strlen (trim l) =? 0); [intros H; injection H; auto|].
  destruct (skipLine (trim l)); [discriminate|].
  intros H; injection H; auto.
Qed.

Lemma cleanLines_ok ls : Forall okLine (cleanLines ls).
Proof.
  induction ls as [|l ls IH]; simpl; [constructor|].
  destruct (cleanLine l) as [l'|] eqn:E; [|assumption].
  constructor; [|assumption].
  destruct (cleanLine_cases _ E) as [->| ->]; [apply okLine_nil | exact E].
Qed.

Lemma cleanLines_fix ls : Forall okLine ls -> cleanLines ls = ls.
Proof.
  induction 1 as [|l ls Hl Hls IH]; simpl; [reflexivity|].
  rewrite Hl, IH. reflexivity.
Qed.

Lemma cleanLines_nlFree ls : Forall nlFree ls -> Forall nlFree (cleanLines ls).
Proof.
  induction 1 as [|l ls Hl Hls IH]; simpl; [constructor|].
  destruct (cleanLine l) as [l'|] eqn:E; [|assumption].
  constructor; [|assumption].
  destruct (cleanLine_cases _ E) as [->| ->]; [constructor | assumption].
Qed.

Lemma cleanLines_sub ls l :
  In l (nonEmpty (cleanLines ls)) -> okLine l.
Proof.
  intros H. apply filter_In in H as [H _].
  pose proof (cleanLines_ok ls) as Hok. rewrite Forall_forall in Hok. auto.
Qed.

Lemma nonEmpty_filter (g : jsstr -> bool) ls :
  nonEmpty (filter g ls) = filter g (nonEmpty ls).
Proof.
  unfold nonEmpty. induction ls as [|l ls IH]; simpl; [reflexivity|].
  destruct (g l) eqn:G; destruct (isEmpty l) eqn:I; simpl;
    rewrite ?G, ?I; simpl; rewrite IH; reflexivity.
Qed.

Lemma cnt_nonEmpty k ls : cnt k (nonEmpty ls) = cnt k ls.
Proof.
  unfold cnt, nonEmpty. induction ls as [|l ls IH]; simpl; [reflexivity|].
  destruct l as [|c l]; simpl; [exact IH|].
  destruct (isCapsLine (trim (c :: l)) && str_eqb (trim (c :: l)) k);
    simpl; rewrite IH; reflexivity.
Qed.

Lemma cnt_filter_le k g ls : cnt k (filter g ls) <= cnt k ls.
Proof.
  unfold cnt. induction ls as [|l ls IH]; simpl; [lia|].
  destruct (g l); simpl;
    destruct (isCapsLine (trim l) && str_eqb (trim l) k); simpl; lia.
Qed.

Lemma cnt_keepOther k ls : cnt k (filter (keepOther k) ls) = 0.
Proof.
  unfold cnt, keepOther. induction ls as [|l ls IH]; simpl; [reflexivity|].
  destruct (str_eqb (trim l) k) eqn:E; simpl; [assumption|].
  rewrite E, andb_false_r. assumption.
Qed.

Lemma booked_bump t k counts :
  booked k (bump t counts)
  = if str_eqb t k then S (booked k counts) else booked k counts.
Proof.
  induction counts as [|[k' n] counts IH]; simpl.
  - destruct (str_eqb t k); reflexivity.
  - destruct (str_eqb k' t) eqn:Et; simpl.
    + apply str_eqb_eq in Et. subst k'. destruct (str_eqb t k); reflexivity.
    + destruct (str_eqb k' k) eqn:Ek; [|exact IH].
      apply str_eqb_eq in Ek. subst k'.
      destruct (str_eqb t k) eqn:X; [|reflexivity].
      apply str_eqb_eq in X. subst t. rewrite str_eqb_refl in Et. discriminate.
Qed.

Lemma booked_count k ls : forall counts,
  booked k (fold_left countStep ls counts) = booked k counts + cnt k ls.
Proof.
  induction ls as [|l ls IH]; intros counts; simpl; [unfold cnt; simpl; lia|].
  rewrite IH. unfold countStep, cnt. simpl.
  destruct (isCapsLine (trim l)); simpl; [|lia].
  rewrite booked_bump. destruct (str_eqb (trim l) k); simpl; lia.
Qed.

Lemma booked_In k counts : 0 < booked k counts -> In (k, booked k counts) counts.
Proof.
  induction counts as [|[k' n] counts IH]; simpl; [lia|].
  destruct (str_eqb k' k) eqn:E.
  - apply str_eqb_eq in E. subst k'. auto.
  - auto.
Qed.

Lemma bump_In t k c counts :
  In (k, c) (bump t counts) ->
  In (k, c) counts
  \/ (k = t /\ exists c', c = S c' /\ In (k, c') counts)
  \/ (k = t /\ c = 1).
Proof.
  induction counts as [|[k' n] counts IH]; simpl.
  - intros [H|[]]. injection H as <- <-. auto.
  - destruct (str_eqb k' t) eqn:E; simpl.
    + apply str_eqb_eq in E. subst k'.
      intros [H|H]; [|auto]. injection H as <- <-.
      right. left. split; [reflexivity|]. exists n. auto.
    + intros [H|H]; [auto|].
      destruct (IH H) as [H1|[(-> & c' & -> & H2)|(-> & ->)]]; auto.
      right. left. split; [reflexivity|]. exists c'. auto.
Qed.

(** No entry of the table exceeds the number of lines booked under its
    key. *)
Lemma counts_bound ls : forall counts k c,
  In (k, c) (fold_left countStep ls counts) ->
  (exists c0, In (k, c0) counts /\ c <= c0 + cnt k ls) \/ c <= cnt k ls.
Proof.
  induction ls as [|l ls IH]; intros counts k c H; simpl in H.
  - left. exists c. split; [assumption | lia].
  - assert (Hc : cnt k (l :: ls)
                 = (if isCapsLine (trim l) && str_eqb (trim l) k then 1 else 0)
                   + cnt k ls).
    { unfold cnt. simpl.
      destruct (isCapsLine (trim l) && str_eqb (trim l) k); reflexivity. }
    rewrite Hc.
    destruct (IH _ _ _ H) as [(c0 & Hin & Hle)|Hle]; [|right; lia].
    unfold countStep in Hin. destruct (isCapsLine (trim l)) eqn:Ecaps.
    + apply bump_In in Hin as [H1|[(-> & c' & -> & H2)|(-> & ->)]].
      * left. exists c0. split; [assumption | lia].
      * left. exists c'. split; [assumption|].
        rewrite str_eqb_refl. simpl. lia.
      * right. rewrite str_eqb_refl. simpl. lia.
    + left. exists c0. split; [assumption | lia].
Qed.

Lemma countCapsLines_bound ls k c :
  In (k, c) (countCapsLines ls) -> c <= cnt k ls.
Proof.
  intros H. apply counts_bound in H as [(c0 & [] & _)|H]. assumption.
Qed.

Lemma countCapsLines_booked ls k :
  5 <= cnt k ls -> exists c, In (k, c) (countCapsLines ls) /\ 5 <= c.
Proof.
  intros H. exists (booked k (countCapsLines ls)).
  assert (E : booked k (countCapsLines ls) = cnt k ls)
    by (unfold countCapsLines; rewrite (booked_count k ls []); reflexivity).
  split; [apply booked_In; lia | lia].
Qed.

(** What one entry of the table does to the non-empty lines. *)
Lemma dropRepeated_lines result k c :
  nonEmpty (split_nl (dropRepeated result (k, c)))
  = if 5 <=? c then filter (keepOther k) (nonEmpty (split_nl result))
    else nonEmpty (split_nl result).
Proof.
  unfold dropRepeated. destruct (5 <=? c); [|reflexivity].
  rewrite nonEmpty_split_join.
  - apply nonEmpty_filter.
  - apply Forall_forall. intros l Hl. apply filter_In in Hl as [Hl _].
    pose proof (split_nlFree result) as Hf. rewrite Forall_forall in Hf. auto.
Qed.

Lemma fold_drop_sub counts : forall result l,
  In l (nonEmpty (split_nl (fold_left dropRepeated counts result))) ->
  In l (nonEmpty (split_nl result)).
Proof.
  induction counts as [|[k c] counts IH]; intros result l H;
    cbn [fold_left] in H; [assumption|].
  apply IH in H. rewrite dropRepeated_lines in H.
  destruct (5 <=? c); [|assumption]. apply filter_In in H as [H _]. assumption.
Qed.

Lemma fold_drop_cnt counts : forall result k,
  cnt k (nonEmpty (split_nl (fold_left dropRepeated counts result)))
  <= cnt k (nonEmpty (split_nl result)).
Proof.
  induction counts as [|[k' c] counts IH]; intros result k; cbn [fold_left];
    [lia|].
  etransitivity; [apply IH|]. rewrite dropRepeated_lines.
  destruct (5 <=? c); [apply cnt_filter_le | lia].
Qed.

Lemma fold_drop_gone counts : forall result k c,
  In (k, c) counts -> 5 <= c ->
  cnt k (nonEmpty (split_nl (fold_left dropRepeated counts result))) = 0.
Proof.
  induction counts as [|[k' c'] counts IH]; intros result k c Hin Hc;
    [contradiction|].
  cbn [fold_left]. destruct Hin as [E|Hin]; [|eauto].
  injection E as -> ->.
  pose proof (fold_drop_cnt counts (dropRepeated result (k, c)) k) as Hle.
  rewrite dropRepeated_lines in Hle.
  replace (5 <=? c) with true in Hle by (symmetry; apply Nat.leb_le; lia).
  rewrite cnt_keepOther in Hle. lia.
Qed.

Lemma fold_drop_id counts : forall result,
  (forall k c, In (k, c) counts -> c < 5) ->
  fold_left dropRepeated counts result = result.
Proof.
  induction counts as [|[k c] counts IH]; intros result H; cbn [fold_left];
    [reflexivity|].
  assert (Hc : c < 5) by (apply (H k); left; reflexivity).
  unfold dropRepeated at 2.
  replace (5 <=? c) with false by (symmetry; apply Nat.leb_gt; lia).
  apply IH. intros k' c' Hin. apply (H k'). right. assumption.
Qed.

(** C6: [cleanPdfText] is idempotent. *)
Theorem cleanPdfText_idempotent (t : jsstr) :
  cleanPdfText (cleanPdfText t) = cleanPdfText t.
Proof.
  assert (ER : cleanPdfText t
               = squeeze 0 (fold_left dropRepeated
                              (countCapsLines (cleanLines (split_nl t)))
                              (join_nl (cleanLines (split_nl t)))))
    by (unfold cleanPdfText; cbv zeta; apply collapse_squeeze).
  rewrite ER. clear ER.
  set (L1 := cleanLines (split_nl t)).
  set (E := countCapsLines L1).
  set (R2 := fold_left dropRepeated E (join_nl L1)).
  set (R3 := squeeze 0 R2).
  assert (HL1 : Forall nlFree L1)
    by (apply cleanLines_nlFree, split_nlFree).
  assert (Hne3 : nonEmpty (split_nl R3) = nonEmpty (split_nl R2))
    by (apply (squeeze_lines R2 0)).
  assert (Hsub : forall l, In l (nonEmpty (split_nl R2)) -> In l (nonEmpty L1)).
  { intros l Hl. apply fold_drop_sub in Hl.
    rewrite nonEmpty_split_join in Hl by assumption. assumption. }
  (* first loop: every line is pushed unchanged *)
  assert (Hok : Forall okLine (split_nl R3)).
  { apply Forall_forall. intros l Hl. destruct l as [|c l]; [apply okLine_nil|].
    apply (@cleanLines_sub (split_nl t)). apply Hsub. rewrite <- Hne3.
    apply filter_In. split; [assumption | reflexivity]. }
  (* counting loop: no key reaches five *)
  assert (Hcnt : forall k c, In (k, c) (countCapsLines (split_nl R3)) -> c < 5).
  { intros k c Hin. apply countCapsLines_bound in Hin.
    rewrite <- cnt_nonEmpty, Hne3 in Hin.
    destruct (Nat.lt_ge_cases c 5) as [|Hge]; [assumption|]. exfalso.
    assert (H5 : 5 <= cnt k L1).
    { etransitivity; [exact Hge|]. etransitivity; [exact Hin|].
      etransitivity; [apply fold_drop_cnt|].
      rewrite nonEmpty_split_join by assumption. rewrite cnt_nonEmpty. lia. }
    destruct (countCapsLines_booked L1 k H5) as (c' & Hin' & Hc').
    pose proof (@fold_drop_gone E (join_nl L1) k c' Hin' Hc') as H0.
    fold R2 in H0. lia. }
  unfold cleanPdfText. cbv zeta.
  rewrite (cleanLines_fix Hok), join_split, (fold_drop_id _ _ Hcnt).
  rewrite collapse_squeeze. apply squeeze_idem.
Qed.

(** ** Matcher equations *)

Lemma rmatch_alt {R} ic r1 r2 st (k : mstate -> option R) :
  rmatch ic (Alt r1 r2) st k
  = match rmatch ic r1 st k with
    | Some v => Some v
    | None => rmatch ic r2 st k
    end.
Proof. reflexivity. Qed.

Lemma rmatch_group {R} ic i r st (k : mstate -> option R) :
  rmatch ic (Group i r) st k
  = rmatch ic r st (fun st' => k (set_cap i (m_pos st) (m_pos st') st')).
Proof. reflexivity. Qed.

Lemma rmatch_char_cons {R} ic c prev x xs pos caps (k : mstate -> option R) :
  rmatch ic (Char c) (MState prev (x :: xs) pos caps) k
  = if char_matches ic c x then k (MState (Some x) xs (S pos) caps) else None.
Proof. reflexivity. Qed.

Lemma rmatch_class_cons {R} ic neg items prev x xs pos caps
    (k : mstate -> option R) :
  rmatch ic (Class neg items) (MState prev (x :: xs) pos caps) k
  = if class_matches ic neg items x
    then k (MState (Some x) xs (S pos) caps) else None.
Proof. reflexivity. Qed.

Lemma rmatch_class_nil {R} ic neg items prev pos caps (k : mstate -> option R) :
  rmatch ic (Class neg items) (MState prev [] pos caps) k = None.
Proof. reflexivity. Qed.

(** The greedy star of a character class, one code unit at a time. *)
Lemma rmatch_star_class_cons {R} ic neg items prev x xs pos caps
    (k : mstate -> option R) :
  rmatch ic (Star true (Class neg items)) (MState prev (x :: xs) pos caps) k
  = if class_matches ic neg items x
    then match rmatch ic (Star true (Class neg items))
                 (MState (Some x) xs (S pos) caps) k with
         | Some v => Some v
         | None => k (MState prev (x :: xs) pos caps)
         end
    else k (MState prev (x :: xs) pos caps).
Proof.
  change (rmatch ic (Star true (Class neg items)) (MState prev (x :: xs) pos caps) k)
    with (match rmatch ic (Class neg items) (MState prev (x :: xs) pos caps)
                  (fun s' => if pos <? m_pos s'
                             then rmatch ic (Star true (Class neg items)) s' k
                             else None) with
          | Some v => Some v
          | None => k (MState prev (x :: xs) pos caps)
          end).
  rewrite rmatch_class_cons. destruct (class_matches ic neg items x); [|reflexivity].
  cbn [m_pos]. replace (pos <? S pos) with true by (symmetry; apply Nat.ltb_lt; lia).
  reflexivity.
Qed.

Lemma rmatch_star_class_nil {R} ic neg items prev pos caps
    (k : mstate -> option R) :
  rmatch ic (Star true (Class neg items)) (MState prev [] pos caps) k
  = k (MState prev [] pos caps).
Proof. reflexivity. Qed.

(** ** Definition extractor *)

Lemma romanClass_matches x : class_matches false false romanClass x = isRoman x.
Proof.
  unfold class_matches, romanClass, isRoman. simpl.
  rewrite !(N.eqb_sym x). reflexivity.
Qed.

(** After the numeral, any continuation that insists on a period fails
    where no period follows the run. *)
Lemma roman_run_fails {R} (k : mstate -> option R) :
  (forall st, match m_rest st with d :: _ => (d =? 46)%N | [] => false end = false ->
              k st = None) ->
  forall rest prev pos caps,
    match dropRoman rest with d :: _ => (d =? 46)%N | [] => false end = false ->
    rmatch false (Star true (Class false romanClass)) (MState prev rest pos caps) k
    = None.
Proof.
  intros Hk. induction rest as [|x xs IH]; intros prev pos caps H.
  - rewrite rmatch_star_class_nil. apply Hk. reflexivity.
  - rewrite rmatch_star_class_cons, romanClass_matches. simpl in H.
    destruct (isRoman x) eqn:E.
    + rewrite IH by assumption. apply Hk. simpl.
      destruct (x =? 46)%N eqn:E46; [|reflexivity].
      apply N.eqb_eq in E46. subst x. discriminate.
    + apply Hk. assumption.
Qed.

Lemma defRe_shape :
  Pat.defRe
  = Seq (Group 1 (Seq (Class false romanClass)
                      (Star true (Class false romanClass))))
        defTail.
Proof. reflexivity. Qed.

Lemma defTail_needs_period {R} st (k : mstate -> option R) :
  match m_rest st with d :: _ => (d =? 46)%N | [] => false end = false ->
  rmatch false defTail st k = None.
Proof.
  destruct st as [p r q cs]. cbn [m_rest]. intros H.
  unfold defTail. rewrite rmatch_seq.
  destruct r as [|d r]; [reflexivity|].
  rewrite rmatch_char_cons. unfold char_matches. rewrite N.eqb_sym, H.
  reflexivity.
Qed.

Lemma defRe_no_item prev s pos :
  itemStartsAt s = false -> match_here false Pat.defRe prev s pos = None.
Proof.
  intros H. unfold match_here. rewrite defRe_shape.
  rewrite rmatch_seq, rmatch_group, rmatch_seq.
  destruct s as [|c s]; [reflexivity|].
  rewrite rmatch_class_cons, romanClass_matches.
  simpl in H. destruct (isRoman c); [|reflexivity]. simpl in H.
  rewrite roman_run_fails; [reflexivity | | assumption].
  intros st Hst. apply defTail_needs_period. assumption.
Qed.

Lemma rmatch_eol_cons {R} ic prev x xs pos caps (k : mstate -> option R) :
  rmatch ic Eol (MState prev (x :: xs) pos caps) k = None.
Proof. reflexivity. Qed.

(** Run the matcher over the known head of the input. *)
Ltac eval_tests :=
  repeat match goal with
    | |- context [class_matches ?a ?b ?c ?d] =>
        let v := eval vm_compute in (class_matches a b c d) in
        change (class_matches a b c d) with v
    | |- context [char_matches ?a ?b ?c] =>
        let v := eval vm_compute in (char_matches a b c) in
        change (char_matches a b c) with v
    end.

Ltac run_matcher :=
  repeat (first [ rewrite rmatch_seq | rewrite rmatch_group | rewrite rmatch_eps
                | rewrite rmatch_alt | rewrite rmatch_char_cons
                | rewrite rmatch_class_cons | rewrite rmatch_star_class_cons
                | rewrite rmatch_eol_cons ];
          eval_tests; cbv beta iota; unfold set_cap;
          cbn [m_pos m_rest m_prev m_caps]).

Lemma defRe_termino prev post pos :
  match_here false Pat.defRe prev (termino ++ post) pos
  = Some (Found pos (24 + pos) (terminoCaps pos)).
Proof.
  unfold match_here. rewrite defRe_shape. unfold defTail, romanClass.
  let v := eval vm_compute in termino in change termino with v.
  let v := eval vm_compute in (js "IVXLC") in change (js "IVXLC") with v.
  cbn [app map].
  run_matcher. reflexivity.
Qed.

Lemma exec_all_no_item n : forall s prev pos rest,
  List.length s = n ->
  noItemWithin n (s ++ rest) = true ->
  exists prev',
    exec_all_from false Pat.defRe prev (s ++ rest) pos 0
    = exec_all_from false Pat.defRe prev' rest (n + pos) 0.
Proof.
  induction n as [|n IH]; intros s prev pos rest Hlen H.
  - destruct s; [|discriminate]. exists prev. reflexivity.
  - destruct s as [|c s]; [discriminate|]. injection Hlen as Hlen.
    cbn [noItemWithin app] in H. apply andb_true_iff in H as [H1 H2].
    apply negb_true_iff in H1.
    cbn [app exec_all_from]. rewrite (@defRe_no_item prev _ pos H1).
    destruct (IH s (Some c) (S pos) rest Hlen H2) as [prev' E].
    exists prev'. rewrite E. f_equal. lia.
Qed.

Lemma exec_all_skip k : forall s prev pos rest,
  List.length s = k ->
  exists prev',
    exec_all_from false Pat.defRe prev (s ++ rest) pos k
    = exec_all_from false Pat.defRe prev' rest (k + pos) 0.
Proof.
  induction k as [|k IH]; intros s prev pos rest Hlen.
  - destruct s; [|discriminate]. exists prev. reflexivity.
  - destruct s as [|c s]; [discriminate|]. injection Hlen as Hlen.
    cbn [app exec_all_from].
    destruct (IH s (Some c) (S pos) rest Hlen) as [prev' E].
    exists prev'. rewrite E. f_equal. lia.
Qed.

Lemma exec_all_none_left post : forall prev pos,
  noItemWithin (List.length post) post = true ->
  exec_all_from false Pat.defRe prev post pos 0 = [].
Proof.
  induction post as [|c post IH]; intros prev pos H.
  - reflexivity.
  - cbn [List.length noItemWithin] in H. apply andb_true_iff in H as [H1 H2].
    apply negb_true_iff in H1.
    cbn [exec_all_from]. rewrite (@defRe_no_item prev _ pos H1). apply IH.
    assumption.
Qed.

Lemma exec_all_from_cons ic r prev c rest pos :
  exec_all_from ic r prev (c :: rest) pos 0
  = match match_here ic r prev (c :: rest) pos with
    | Some f =>
        f :: exec_all_from ic r (Some c) rest (S pos) (pred (f_end f - pos))
    | None => exec_all_from ic r (Some c) rest (S pos) 0
    end.
Proof. reflexivity. Qed.

(** The only match of the item pattern in such a text is the item. *)
Lemma exec_all_termino pre post :
  noItemWithin (List.length pre) (pre ++ termino ++ post) = true ->
  noItemWithin (List.length post) post = true ->
  exec_all false Pat.defRe (pre ++ termino ++ post)
  = [Found (List.length pre) (24 + List.length pre)
       (terminoCaps (List.length pre))].
Proof.
  intros Hpre Hpost. unfold exec_all.
  destruct (@exec_all_no_item (List.length pre) pre None 0 (termino ++ post)
              Logic.eq_refl Hpre) as [prev E0].
  rewrite E0, Nat.add_0_r. clear E0.
  set (pos := List.length pre).
  assert (E : termino ++ post = 73%N :: (skipn 1 termino ++ post)) by reflexivity.
  rewrite E at 1. rewrite exec_all_from_cons, <- E.
  rewrite defRe_termino. cbn [f_end].
  replace (pred (24 + pos - pos)) with 23 by lia.
  assert (L23 : List.length (skipn 1 termino) = 23) by reflexivity.
  destruct (@exec_all_skip 23 (skipn 1 termino) (Some 73%N) (S pos) post L23)
    as [prev' E1].
  rewrite E1, (@exec_all_none_left post prev' (23 + S pos) Hpost). reflexivity.
Qed.

Lemma substring_after (pre rest : jsstr) a b :
  substring (a + List.length pre) (b + List.length pre) (pre ++ rest)
  = substring a b rest.
Proof.
  unfold substring.
  replace (b + List.length pre - (a + List.length pre)) with (b - a) by lia.
  f_equal. rewrite <- skipn_skipn.
  rewrite skipn_app, skipn_all, Nat.sub_diag. reflexivity.
Qed.

(** What the loop body makes of the match of the item. *)
Lemma definitionOf_termino pre post ref :
  definitionOf (pre ++ termino ++ post) ref
    (Found (List.length pre) (24 + List.length pre)
       (terminoCaps (List.length pre)))
  = Some (ParsedDefinition.Build (js "Término") (js "Término: significado")
            (Some ref)).
Proof.
  unfold definitionOf, group, terminoCaps. cbn [f_caps cap_lookup Nat.eqb].
  rewrite !substring_after.
  replace (substring 3 10 (termino ++ post))
    with (substring 3 10 termino) by reflexivity.
  replace (substring 12 24 (termino ++ post))
    with (substring 12 24 termino) by reflexivity.
  vm_compute. reflexivity.
Qed.

Lemma articleOfBlock_definitions lines blocks ts i b p ds :
  articleOfBlock lines blocks ts i b = Some (p, ds) ->
  ds = extractDefinitions (ParsedProvision.content p)
         (ParsedProvision.provision_ref p).
Proof.
  unfold articleOfBlock. cbv zeta.
  match goal with
  | |- context [if ?c then _ else _] => destruct c
  end; [discriminate|].
  intros H. injection H as <- <-. reflexivity.
Qed.

Lemma htmlArticle_definitions html articles chapters cur i a cur' p ds :
  htmlArticle html articles chapters cur i a = (cur', Some (p, ds)) ->
  ds = extractDefinitions (ParsedProvision.content p)
         (ParsedProvision.provision_ref p).
Proof.
  unfold htmlArticle. cbv zeta.
  match goal with
  | |- context [if ?c then _ else _] => destruct c
  end; [discriminate|].
  intros H. injection H as _ <- <-. reflexivity.
Qed.

(** C9, refuted as stated: an article that contains the item but no cue
    phrase yields no definition; an article with a cue phrase that contains
    the item and a second item yields two definitions. *)
Lemma item_without_cue :
  (exists p,
     In p (ParsedLaw.provisions (parseMexicanText glossaryWithoutCue lfpdppp)) /\
     includes termino (ParsedProvision.content p) = true /\
     ParsedLaw.definitions (parseMexicanText glossaryWithoutCue lfpdppp) = []) /\
  (exists p,
     In p (ParsedLaw.provisions (parseMexicanText glossaryTwoItems lfpdppp)) /\
     includes termino (ParsedProvision.content p) = true /\
     ParsedProvision.provision_ref p = js "art3" /\
     map (fun d => (ParsedDefinition.term d, ParsedDefinition.source_provision d))
         (ParsedLaw.definitions (parseMexicanText glossaryTwoItems lfpdppp))
     = [(js "Término", Some (js "art3")); (js "Titular", Some (js "art3"))]).
Proof.
  split.
  - eexists. split; [|split].
    + vm_compute. right. right. left. reflexivity.
    + vm_compute. reflexivity.
    + vm_compute. reflexivity.
  - eexists. split; [|split; [|split]].
    + vm_compute. right. right. left. reflexivity.
    + vm_compute. reflexivity.
    + vm_compute. reflexivity.
    + vm_compute. reflexivity.
Qed.

(** C9, amended: when the article's content matches a cue phrase and the
    item "I. Término: significado;" is the only place of the content where
    a capital Roman numeral followed by a period starts, exactly one
    definition is emitted, with term "Término", text "Término: significado"
    and the article's reference key as its source; this holds for both
    extractors. *)
Theorem definition_of_termino (pre post : jsstr) :
  test true Pat.definitionCueRe (pre ++ termino ++ post) = true ->
  noItemWithin (List.length pre) (pre ++ termino ++ post) = true ->
  noItemWithin (List.length post) post = true ->
  (forall ref,
     extractDefinitions (pre ++ termino ++ post) ref = [terminoDefinition ref]) /\
  (forall lines blocks ts i b p ds,
     articleOfBlock lines blocks ts i b = Some (p, ds) ->
     ParsedProvision.content p = pre ++ termino ++ post ->
     ds = [terminoDefinition (ParsedProvision.provision_ref p)]) /\
  (forall html articles chapters cur i a cur' p ds,
     htmlArticle html articles chapters cur i a = (cur', Some (p, ds)) ->
     ParsedProvision.content p = pre ++ termino ++ post ->
     ds = [terminoDefinition (ParsedProvision.provision_ref p)]).
Proof.
  intros Hcue Hpre Hpost.
  assert (H : forall ref,
             extractDefinitions (pre ++ termino ++ post) ref
             = [terminoDefinition ref]).
  { intros ref. unfold extractDefinitions. rewrite Hcue.
    rewrite (exec_all_termino pre post Hpre Hpost). cbn [map].
    rewrite definitionOf_termino. reflexivity. }
  split; [exact H|]. split.
  - intros lines blocks ts i b p ds E Hc.
    rewrite (articleOfBlock_definitions _ _ _ _ _ E), Hc. apply H.
  - intros html articles chapters cur i a cur' p ds E Hc.
    rewrite (htmlArticle_definitions _ _ _ _ _ _ E), Hc. apply H.
Qed.

Lemma definition_of_termino_witness :
  extractDefinitions (cuePrefix ++ termino ++ []) (js "art3")
  = [terminoDefinition (js "art3")].
Proof.
  apply (definition_of_termino cuePrefix []).
  - vm_compute. reflexivity.
  - vm_compute. reflexivity.
  - vm_compute. reflexivity.
Defined.

(** ** Line scan *)

Lemma nth_error_snoc_old {A} (l : list A) x k :
  k < List.length l -> nth_error (l ++ [x]) k = nth_error l k.
Proof. intros H. apply nth_error_app1. assumption. Qed.

Lemma nth_error_snoc_new {A} (l : list A) x :
  nth_error (l ++ [x]) (List.length l) = Some x.
Proof. rewrite nth_error_app2, Nat.sub_diag by lia. reflexivity. Qed.

Lemma nearestHeader_snoc seen x i c :
  i <= List.length seen ->
  nearestHeader seen i c -> nearestHeader (seen ++ [x]) i c.
Proof.
  intros Hi [(j & l & Hj & Hl & Hh & Hno)|(-> & Hno)].
  - left. exists j, l. repeat split; try assumption.
    + rewrite nth_error_snoc_old by lia. assumption.
    + intros k l' Hk Hl'. rewrite nth_error_snoc_old in Hl' by lia. eauto.
  - right. split; [reflexivity|].
    intros k l' Hk Hl'. rewrite nth_error_snoc_old in Hl' by lia. eauto.
Qed.

Lemma nearestHeader_step seen x c :
  headerLabel x = None ->
  nearestHeader seen (List.length seen) c ->
  nearestHeader (seen ++ [x]) (S (List.length seen)) c.
Proof.
  intros Hx [(j & l & Hj & Hl & Hh & Hno)|(-> & Hno)].
  - left. exists j, l. repeat split; try lia; try assumption.
    + rewrite nth_error_snoc_old by lia. assumption.
    + intros k l' Hk Hl'.
      destruct (Nat.eq_dec k (List.length seen)) as [->|Hne].
      * rewrite nth_error_snoc_new in Hl'. injection Hl' as <-. assumption.
      * rewrite nth_error_snoc_old in Hl' by lia. apply (Hno k); [lia | assumption].
  - right. split; [reflexivity|].
    intros k l' Hk Hl'.
    destruct (Nat.eq_dec k (List.length seen)) as [->|Hne].
    + rewrite nth_error_snoc_new in Hl'. injection Hl' as <-. assumption.
    + rewrite nth_error_snoc_old in Hl' by lia. apply (Hno k); [lia | assumption].
Qed.

Lemma nearestHeader_here seen x c :
  headerLabel x = Some c ->
  nearestHeader (seen ++ [x]) (S (List.length seen)) c.
Proof.
  intros Hx. left. exists (List.length seen), x. repeat split.
  - lia.
  - apply nth_error_snoc_new.
  - assumption.
  - intros k l' Hk. lia.
Qed.

Lemma markerOf_snoc seen x b :
  ArticleBlock.startLine b < List.length seen ->
  markerOf seen b -> markerOf (seen ++ [x]) b.
Proof.
  intros Hb (l & Hl & Hh & Ha). exists l. repeat split; try assumption.
  rewrite nth_error_snoc_old by assumption. assumption.
Qed.

Lemma blocks_snoc seen x bs :
  Forall (fun b => ArticleBlock.startLine b < List.length seen
                   /\ markerOf seen b
                   /\ nearestHeader seen (ArticleBlock.startLine b)
                        (ArticleBlock.chapter b)) bs ->
  Forall (fun b => ArticleBlock.startLine b < List.length (seen ++ [x])
                   /\ markerOf (seen ++ [x]) b
                   /\ nearestHeader (seen ++ [x]) (ArticleBlock.startLine b)
                        (ArticleBlock.chapter b)) bs.
Proof.
  intros H. eapply Forall_impl; [|exact H]. intros b (H1 & H2 & H3).
  rewrite length_app. simpl. repeat split.
  - lia.
  - apply markerOf_snoc; assumption.
  - apply nearestHeader_snoc; [lia | assumption].
Qed.

Lemma scanLine_scanned seen x st :
  scanned seen st -> scanned (seen ++ [x]) (scanLine (List.length seen) x st).
Proof.
  intros [Hc Hb Ho]. unfold scanLine.
  assert (Hlen : List.length (seen ++ [x]) = S (List.length seen))
    by (rewrite length_app; simpl; lia).
  destruct (headerLabel x) as [c|] eqn:Eh.
  { split; cbn [currentChapter articleBlocks].
    - rewrite Hlen. apply nearestHeader_here. assumption.
    - apply blocks_snoc. assumption.
    - assumption. }
  assert (Hc' : nearestHeader (seen ++ [x]) (List.length (seen ++ [x]))
                  (currentChapter st))
    by (rewrite Hlen; apply nearestHeader_step; assumption).
  destruct (test true Pat.transitoryRe x).
  { split; cbn [currentChapter articleBlocks];
      [assumption | apply blocks_snoc; assumption | assumption]. }
  destruct (transitoryStart st).
  { split; [assumption | apply blocks_snoc; assumption | assumption]. }
  destruct (articleLabel x) as [num|] eqn:Ea.
  2:{ split; [assumption | apply blocks_snoc; assumption | assumption]. }
  split; cbn [currentChapter articleBlocks].
  - assumption.
  - apply Forall_app. split; [apply blocks_snoc; assumption|].
    constructor; [|constructor]. cbn [ArticleBlock.startLine ArticleBlock.num
                                        ArticleBlock.chapter].
    repeat split.
    + lia.
    + exists x. cbn [ArticleBlock.startLine ArticleBlock.num].
      repeat split; [apply nth_error_snoc_new | assumption | assumption].
    + apply nearestHeader_snoc; [lia | assumption].
  - intros pre b post E.
    destruct post as [|b' post] using rev_ind.
    + apply app_inj_tail in E as [<- <-]. cbn [ArticleBlock.startLine].
      eapply Forall_impl; [|exact Hb]. intros a (Ha & _). exact Ha.
    + clear IHpost. rewrite app_comm_cons, app_assoc in E.
      apply app_inj_tail in E as [E _]. apply (Ho pre b post). assumption.
Qed.

Lemma scanLines_scanned lines : forall seen st,
  scanned seen st ->
  scanned (seen ++ lines) (scanLines (List.length seen) lines st).
Proof.
  induction lines as [|x lines IH]; intros seen st H.
  - rewrite app_nil_r. exact H.
  - cbn [scanLines].
    replace (seen ++ x :: lines) with ((seen ++ [x]) ++ lines)
      by (rewrite <- app_assoc; reflexivity).
    replace (S (List.length seen)) with (List.length (seen ++ [x]))
      by (rewrite length_app; simpl; lia).
    apply IH. apply scanLine_scanned. assumption.
Qed.

(** Every block the scan of a text finds sits on a marker line and carries
    the label of the nearest header line before it; blocks come in line
    order. *)
Lemma scan_sound (lines : list jsstr) :
  scanned lines (scanLines 0 lines (ScanState [] [] None)).
Proof.
  apply (@scanLines_scanned lines [] (ScanState [] [] None)).
  split; cbn [currentChapter articleBlocks List.length].
  - right. split; [reflexivity|]. intros k l' Hk. lia.
  - constructor.
  - intros pre b post E. destruct pre; discriminate.
Qed.

(** ** Three articles and two transitory clauses *)

(** C8, refuted as stated: three marker lines, header lines and two
    transitory clauses, but the second article and the first clause are
    shorter than 15 code units and are dropped, which leaves two regular
    provisions and the single transitory key trans2; the chapter of the
    first provision is the normalised label "CAPÍTULO Primero", not the
    header line "Capítulo Primero".  A body of the same layout that is
    shorter than 200 code units yields no provision at all. *)
Lemma short_article_is_dropped :
  (articleLabels (cleanPdfText shortArticle) = [js "1"; js "2"; js "3"] /\
   refs (ParsedLaw.provisions (parseMexicanText shortArticle lfpdppp))
   = [js "art1"; js "art3"; js "trans2"] /\
   option_map ParsedProvision.chapter
     (hd_error (ParsedLaw.provisions (parseMexicanText shortArticle lfpdppp)))
   = Some (Some (js "CAPÍTULO Primero")) /\
   hd_error (split_nl shortArticle) = Some (js "Capítulo Primero")) /\
  (articleLabels (cleanPdfText shortBody) = [js "1"; js "2"; js "3"] /\
   refs (fst (extractArticlesFromText (cleanPdfText shortBody)) ++
         extractTransitoryFromText (cleanPdfText shortBody))
   = [js "art1"; js "art2"; js "art3"; js "trans1"; js "trans2"] /\
   strlen shortBody = 173 /\
   ParsedLaw.provisions (parseMexicanText shortBody lfpdppp) = []).
Proof.
  repeat split; vm_compute; reflexivity.
Qed.

(** C8, amended: for a body of at least 200 code units whose normalised
    text has exactly three article markers before the transitory marker and
    exactly two ordinal-marked clauses in its transitory section, each
    article and clause being at least 15 code units long, the result is the
    three regular provisions in line order followed by the two transitory
    provisions keyed trans1 and trans2; each regular provision is keyed by
    its marker's label and its chapter is the label (keyword in upper case,
    rest trimmed) of the nearest header line before its marker, absent when
    no header precedes. *)
Theorem three_articles_two_clauses (text : jsstr) (law : LawIndexEntry.t)
    (b1 b2 b3 : ArticleBlock.t) (idx : nat) (q1 q2 : TransPosition.t) :
  let cleaned := cleanPdfText text in
  let lines := split_nl cleaned in
  let st := scanLines 0 lines (ScanState [] [] None) in
  let tlines := split_nl (substringFrom idx cleaned) in
  200 <= strlen text ->
  articleBlocks st = [b1; b2; b3] ->
  (forall i b, nth_error [b1; b2; b3] i = Some b ->
     15 <= strlen (articleText lines [b1; b2; b3] (transitoryStart st) i b)) ->
  search true Pat.transitorySectionRe cleaned = Some idx ->
  transitoryPositions tlines = [q1; q2] ->
  (forall i q, nth_error [q1; q2] i = Some q ->
     15 <= strlen (transitoryContent tlines [q1; q2] i q)) ->
  exists p1 p2 p3 t1 t2,
    ParsedLaw.provisions (parseMexicanText text law) = [p1; p2; p3; t1; t2] /\
    ArticleBlock.startLine b1 < ArticleBlock.startLine b2
      < ArticleBlock.startLine b3 /\
    Forall2 (madeFrom lines) [p1; p2; p3] [b1; b2; b3] /\
    refs [t1; t2] = [js "trans1"; js "trans2"].
Proof.
  intros cleaned lines st tlines Hlen Hblocks Hlong Hidx Hpos Hclauses.
  pose proof (scan_sound lines) as [_ Hb Ho]. fold st in Hb, Ho.
  rewrite Hblocks in Hb.
  assert (L1 := Hlong 0 b1 Logic.eq_refl).
  assert (L2 := Hlong 1 b2 Logic.eq_refl).
  assert (L3 := Hlong 2 b3 Logic.eq_refl).
  assert (C1 := Hclauses 0 q1 Logic.eq_refl).
  assert (C2 := Hclauses 1 q2 Logic.eq_refl).
  apply Nat.ltb_ge in L1, L2, L3, C1, C2.
  assert (Hregular :
            fst (extractArticlesFromText cleaned)
            = map fst (somes (map (fun ib => articleOfBlock lines [b1; b2; b3]
                                               (transitoryStart st) (fst ib) (snd ib))
                                  [(0, b1); (1, b2); (2, b3)]))).
  { unfold extractArticlesFromText. cbv zeta. fold lines. fold st.
    rewrite Hblocks. reflexivity. }
  assert (Htrans :
            extractTransitoryFromText cleaned
            = somes (map (fun ip => transitoryOfPosition tlines [q1; q2]
                                      (fst ip) (snd ip))
                         [(0, q1); (1, q2)])).
  { unfold extractTransitoryFromText. rewrite Hidx. cbv zeta. fold tlines.
    rewrite Hpos. reflexivity. }
  cbn [map fst snd] in Hregular, Htrans.
  unfold articleOfBlock in Hregular. cbv zeta in Hregular.
  rewrite L1, L2, L3 in Hregular. cbn [somes map fst] in Hregular.
  unfold transitoryOfPosition in Htrans. cbv zeta in Htrans.
  rewrite C1, C2 in Htrans. cbn [somes] in Htrans.
  do 5 eexists. split; [|split; [|split]].
  - rewrite parseMexicanText_provisions. unfold regularOf, transitoryOf.
    replace (strlen text <? 200) with false
      by (symmetry; apply Nat.ltb_ge; exact Hlen).
    fold cleaned. rewrite Hregular, Htrans. reflexivity.
  - pose proof (Ho [b1] b2 [b3] Hblocks) as H12.
    pose proof (Ho [b1; b2] b3 [] Hblocks) as H23.
    inversion H12 as [|? ? H12' _]; subst.
    inversion H23 as [|? ? _ H23']; subst.
    inversion H23' as [|? ? H23'' _]; subst. lia.
  - inversion Hb as [|? ? (_ & M1 & N1) Hb2]; subst.
    inversion Hb2 as [|? ? (_ & M2 & N2) Hb3]; subst.
    inversion Hb3 as [|? ? (_ & M3 & N3) _]; subst.
    constructor; [|constructor; [|constructor; [|constructor]]];
      (split; [reflexivity | split; [assumption | split; [assumption | reflexivity]]]).
  - reflexivity.
Qed.

Lemma three_articles_two_clauses_witness :
  let lines := split_nl (cleanPdfText threeArticles) in
  let b1 := ArticleBlock.Build (js "1") 2 (js "CAPÍTULO I") in
  let b2 := ArticleBlock.Build (js "2") 3 (js "CAPÍTULO I") in
  let b3 := ArticleBlock.Build (js "3") 5 (js "CAPÍTULO II") in
  exists p1 p2 p3 t1 t2,
    ParsedLaw.provisions (parseMexicanText threeArticles lfpdppp)
    = [p1; p2; p3; t1; t2] /\
    ArticleBlock.startLine b1 < ArticleBlock.startLine b2
      < ArticleBlock.startLine b3 /\
    Forall2 (madeFrom lines) [p1; p2; p3] [b1; b2; b3] /\
    refs [t1; t2] = [js "trans1"; js "trans2"].
Proof.
  intros lines b1 b2 b3.
  eapply (@three_articles_two_clauses threeArticles lfpdppp b1 b2 b3).
  - vm_compute. lia.
  - vm_compute. reflexivity.
  - intros i b H. destruct i as [|[|[|i]]]; simpl in H;
      try (destruct i; discriminate); injection H as <-; vm_compute; lia.
  - vm_compute. reflexivity.
  - vm_compute. reflexivity.
  - intros i q H. destruct i as [|[|i]]; simpl in H;
      try (destruct i; discriminate); injection H as <-; vm_compute; lia.
Defined.


(** * Further properties *)

(** ** Fetch client: attempts, waits and slots *)

Lemma some_eq {A} (x y : A) : Some x = Some y -> x = y.
Proof. congruence. Qed.

Lemma rateLimit_clock w w' :
  rateLimit w = Some w' ->
  now w' = admittedAt w /\ lastRequestTime w' = admittedAt w.
Proof.
  unfold rateLimit.
  destruct (MAX_CONCURRENT <=? activeRequests w); [discriminate|].
  cbv zeta.
  destruct (now w - lastRequestTime w <? MIN_DELAY_MS)%Z eqn:E;
    intros H; apply some_eq in H; subst w'; unfold admittedAt, sleep;
    cbn [now lastRequestTime].
  - apply Z.ltb_lt in E. split; lia.
  - apply Z.ltb_ge in E. split; lia.
Qed.

Lemma fetchAttempts_log server url r : forall left attempt w,
  exists k, k <= left /\
    requests (snd (fetchAttempts server url r left attempt w))
    = requests w ++ repeat url k.
Proof.
  induction left as [|left IH]; intros attempt w; simpl.
  - exists 0. split; [lia|]. simpl. rewrite app_nil_r. reflexivity.
  - destruct (server (List.length (requests w)) url) as [st text bytes ct fu| |].
    + destruct (retryable st && (attempt <? r)).
      * destruct (IH (S attempt)
                    (sleep (backoff attempt)
                       (MkWorld (now w) (lastRequestTime w) (activeRequests w)
                          (requests w ++ [url])))) as (k & Hk & E).
        exists (S k). split; [lia|]. rewrite E. simpl.
        rewrite <- app_assoc. reflexivity.
      * exists 1. split; [lia|]. reflexivity.
    + destruct (attempt <? r).
      * destruct (IH (S attempt)
                    (sleep CONNECT_TIMEOUT_MS
                       (MkWorld (now w) (lastRequestTime w) (activeRequests w)
                          (requests w ++ [url])))) as (k & Hk & E).
        exists (S k). split; [lia|]. rewrite E. simpl.
        rewrite <- app_assoc. reflexivity.
      * exists 1. split; [lia|]. reflexivity.
    + exists 1. split; [lia|]. reflexivity.
Qed.

Lemma fetchAttempts_stamp server url r : forall left attempt w,
  lastRequestTime (snd (fetchAttempts server url r left attempt w))
  = lastRequestTime w.
Proof.
  induction left as [|left IH]; intros attempt w; simpl; [reflexivity|].
  destruct (server (List.length (requests w)) url) as [st text bytes ct fu| |].
  - destruct (retryable st && (attempt <? r)); [rewrite IH|]; reflexivity.
  - destruct (attempt <? r); [rewrite IH|]; reflexivity.
  - reflexivity.
Qed.


Lemma fetchAttempts_all_aborted server url r :
  (forall n, server n url = Aborted) ->
  forall left attempt w,
    attempt + left = S r -> 0 < left ->
    exists w',
      fetchAttempts server url r left attempt w
      = (Returns (FetchResult.Build 0 [] [] url), w') /\
      requests w' = requests w ++ repeat url left /\
      now w' = (now w + Z.of_nat left * CONNECT_TIMEOUT_MS)%Z.
Proof.
  intros Hsrv. induction left as [|left IH]; intros attempt w Hsum Hpos; [lia|].
  cbn [fetchAttempts doFetch]. rewrite Hsrv.
  destruct (attempt <? r) eqn:E.
  - apply Nat.ltb_lt in E.
    destruct (IH (S attempt)
                (sleep CONNECT_TIMEOUT_MS
                   (MkWorld (now w) (lastRequestTime w) (activeRequests w)
                      (requests w ++ [url])))) as (w' & H1 & H2 & H3);
      [lia | lia |].
    exists w'. split; [exact H1|]. split.
    + rewrite H2. simpl. rewrite <- app_assoc. reflexivity.
    + rewrite H3. unfold sleep, CONNECT_TIMEOUT_MS. cbn [now].
      rewrite Nat2Z.inj_succ. lia.
  - apply Nat.ltb_ge in E. assert (left = 0) by lia. subst left.
    eexists. split; [reflexivity|]. split; [reflexivity|].
    unfold sleep, CONNECT_TIMEOUT_MS. cbn [now]. lia.
Qed.

(** The waits of the back-off from attempt [a] on, for [n] retries. *)
Lemma fetchAttempts_backoff server url r :
  (forall n, statusOf (server n url) = Some 500) ->
  forall left attempt w,
    attempt + left = S r -> 0 < left ->
    now (snd (fetchAttempts server url r left attempt w))
    = (now w + (2 ^ Z.of_nat (S r) - 2 ^ Z.of_nat (S attempt)) * 1000)%Z.
Proof.
  intros Hsrv. induction left as [|left IH]; intros attempt w Hsum Hpos; [lia|].
  cbn [fetchAttempts doFetch].
  specialize (Hsrv (List.length (requests w))) as Hs.
  destruct (server (List.length (requests w)) url) as [st text bytes ct fu| |];
    try discriminate.
  simpl in Hs. injection Hs as ->.
  change (retryable 500) with true. cbn [andb].
  destruct (attempt <? r) eqn:E.
  - apply Nat.ltb_lt in E. rewrite IH by lia.
    unfold sleep, backoff. cbn [now].
    replace (Z.of_nat (attempt + 1)) with (Z.of_nat (S attempt)) by lia.
    replace (Z.of_nat (S (S attempt))) with (Z.of_nat (S attempt) + 1)%Z by lia.
    rewrite (Z.pow_add_r 2 (Z.of_nat (S attempt)) 1) by lia.
    lia.
  - apply Nat.ltb_ge in E. assert (attempt = r) by lia. subst attempt.
    cbn [snd now]. lia.
Qed.

Lemma downloadAttempts_effect server url : forall left attempt w,
  exists k, k <= left /\
    requests (snd (downloadAttempts server url left attempt w))
    = requests w ++ repeat url k /\
    activeRequests (snd (downloadAttempts server url left attempt w))
    = activeRequests w /\
    lastRequestTime (snd (downloadAttempts server url left attempt w))
    = lastRequestTime w.
Proof.
  induction left as [|left IH]; intros attempt w; cbn [downloadAttempts doFetch].
  - exists 0. repeat split; [lia|]. simpl. rewrite app_nil_r. reflexivity.
  - destruct (server (List.length (requests w)) url) as [st text bytes ct fu| |].
    + destruct (retryable st && (attempt <? 2)).
      * destruct (IH (S attempt)
                    (sleep (backoff attempt)
                       (MkWorld (now w) (lastRequestTime w) (activeRequests w)
                          (requests w ++ [url])))) as (k & Hk & E & A & L).
        exists (S k). split; [lia|]. rewrite E, A, L. simpl.
        rewrite <- app_assoc. repeat split.
      * exists 1. split; [lia|].
        destruct (st =? 404); [repeat split|].
        destruct (negb (st =? 200)); repeat split.
    + destruct (attempt <? 2).
      * destruct (IH (S attempt)
                    (sleep DOWNLOAD_TIMEOUT_MS
                       (MkWorld (now w) (lastRequestTime w) (activeRequests w)
                          (requests w ++ [url])))) as (k & Hk & E & A & L).
        exists (S k). split; [lia|]. rewrite E, A, L. simpl.
        rewrite <- app_assoc. repeat split.
      * exists 1. split; [lia|]. repeat split.
    + exists 1. split; [lia|]. repeat split.
Qed.

Lemma incl_repeat {A} (x : A) k l : In x l -> incl (repeat x k) l.
Proof.
  intros H y Hy. apply repeat_spec in Hy. subst y. exact H.
Qed.

Lemma tryCandidates_effect server first : forall cands w,
  let out := DocFetcher.tryCandidates server first cands w in
  fst out <> Hangs /\
  activeRequests (snd out) = activeRequests w /\
  lastRequestTime (snd out) = lastRequestTime w /\
  exists new,
    requests (snd out) = requests w ++ new /\
    List.length new <= 3 * List.length cands /\
    incl new (map Candidate.url cands).
Proof.
  induction cands as [|c rest IH]; intros w; cbn zeta.
  - cbn [DocFetcher.tryCandidates fst snd]. repeat split; try discriminate.
    exists []. rewrite app_nil_r. repeat split; [simpl; lia|].
    intros x [].
  - cbn [DocFetcher.tryCandidates].
    destruct (downloadAttempts_effect server (Candidate.url c) 3 0 w)
      as (k & Hk & E & A & L).
    assert (Hin : incl (repeat (Candidate.url c) k)
                    (map Candidate.url (c :: rest)))
      by (apply incl_repeat; left; reflexivity).
    destruct (downloadAttempts server (Candidate.url c) 3 0 w) as [[st buf| |m] w1];
      cbn [fst snd] in *.
    + repeat split; try discriminate; try assumption.
      exists (repeat (Candidate.url c) k). rewrite repeat_length.
      repeat split; [assumption | simpl; lia | assumption].
    + destruct (IH w1) as (H1 & H2 & H3 & new & H4 & H5 & H6). cbn zeta in *.
      repeat split; try assumption; try congruence.
      exists (repeat (Candidate.url c) k ++ new).
      rewrite H4, E, <- app_assoc, length_app, repeat_length.
      repeat split; [simpl; lia|].
      apply incl_app; [assumption|]. apply incl_tl. assumption.
    + repeat split; try discriminate; try assumption.
      exists (repeat (Candidate.url c) k). rewrite repeat_length.
      repeat split; [assumption | simpl; lia | assumption].
Qed.

Lemma tryUrls_effect server first : forall urls w,
  let out := PdfFetcher.tryUrls server first urls w in
  fst out <> Hangs /\
  activeRequests (snd out) = activeRequests w /\
  lastRequestTime (snd out) = lastRequestTime w /\
  exists new,
    requests (snd out) = requests w ++ new /\
    List.length new <= 3 * List.length urls /\
    incl new urls.
Proof.
  induction urls as [|u rest IH]; intros w; cbn zeta.
  - cbn [PdfFetcher.tryUrls fst snd]. repeat split; try discriminate.
    exists []. rewrite app_nil_r. repeat split; [simpl; lia|].
    intros x [].
  - cbn [PdfFetcher.tryUrls].
    destruct (downloadAttempts_effect server u 3 0 w) as (k & Hk & E & A & L).
    assert (Hin : incl (repeat u k) (u :: rest))
      by (apply incl_repeat; left; reflexivity).
    destruct (downloadAttempts server u 3 0 w) as [[st buf| |m] w1];
      cbn [fst snd] in *.
    + repeat split; try discriminate; try assumption.
      exists (repeat u k). rewrite repeat_length.
      repeat split; [assumption | simpl; lia | assumption].
    + destruct (IH w1) as (H1 & H2 & H3 & new & H4 & H5 & H6). cbn zeta in *.
      repeat split; try assumption; try congruence.
      exists (repeat u k ++ new).
      rewrite H4, E, <- app_assoc, length_app, repeat_length.
      repeat split; [simpl; lia|].
      apply incl_app; [assumption|]. apply incl_tl. assumption.
    + repeat split; try discriminate; try assumption.
      exists (repeat u k). rewrite repeat_length.
      repeat split; [assumption | simpl; lia | assumption].
Qed.

Lemma withSlot_effect {A} (body : World -> Outcome A * World) w w1 :
  rateLimit w = Some w1 ->
  withSlot body w = (fst (body w1), releaseSlot (snd (body w1))).
Proof.
  intros H. unfold withSlot. rewrite H. destruct (body w1). reflexivity.
Qed.

Lemma releaseSlot_after w w1 w2 :
  rateLimit w = Some w1 -> activeRequests w2 = activeRequests w1 ->
  activeRequests (releaseSlot w2) = activeRequests w.
Proof.
  intros H E. unfold releaseSlot. cbn [activeRequests].
  rewrite E, (rateLimit_active _ H). lia.
Qed.

Lemma candidates_length code docUrl pdfUrl :
  2 <= List.length (DocFetcher.candidates code docUrl pdfUrl) <= 4.
Proof.
  unfold DocFetcher.candidates.
  destruct (given docUrl), (given pdfUrl); simpl; lia.
Qed.

Lemma pushNew_length xs x :
  List.length (PdfFetcher.pushNew xs x) <= S (List.length xs).
Proof.
  unfold PdfFetcher.pushNew. destruct (PdfFetcher.mem x xs); [lia|].
  rewrite length_app. simpl. lia.
Qed.

Lemma candidateCodes_length code :
  List.length (PdfFetcher.candidateCodes code) <= 4.
Proof.
  unfold PdfFetcher.candidateCodes. cbv zeta.
  eapply Nat.le_trans; [apply pushNew_length|].
  apply le_n_S. eapply Nat.le_trans; [apply pushNew_length|].
  apply le_n_S. rewrite length_app.
  destruct (PdfFetcher.PDF_CODE_OVERRIDES code); simpl; lia.
Qed.

Lemma fold_pushNew_length (f : jsstr -> jsstr) cs : forall urls,
  List.length (fold_left (fun urls c => PdfFetcher.pushNew urls (f c)) cs urls)
  <= List.length urls + List.length cs.
Proof.
  induction cs as [|c cs IH]; intros urls; simpl; [lia|].
  eapply Nat.le_trans; [apply IH|].
  pose proof (pushNew_length urls (f c)). lia.
Qed.

Lemma candidateUrls_length code pdfUrl :
  List.length (PdfFetcher.candidateUrls code pdfUrl) <= 5.
Proof.
  unfold PdfFetcher.candidateUrls.
  eapply Nat.le_trans; [apply fold_pushNew_length|].
  pose proof (candidateCodes_length code).
  destruct (given pdfUrl); simpl; lia.
Qed.

Lemma pushNew_NoDup xs x : NoDup xs -> NoDup (PdfFetcher.pushNew xs x).
Proof.
  intros H. unfold PdfFetcher.pushNew.
  destruct (PdfFetcher.mem x xs) eqn:E; [assumption|].
  apply NoDup_app; [assumption | constructor; [intros [] | constructor] |].
  intros y Hy [E'|[]]. subst y. unfold PdfFetcher.mem in E.
  assert (existsb (str_eqb x) xs = true); [|congruence].
  apply existsb_exists. exists x. split; [assumption | apply str_eqb_refl].
Qed.

Lemma fold_pushNew_NoDup (f : jsstr -> jsstr) cs : forall urls,
  NoDup urls ->
  NoDup (fold_left (fun urls c => PdfFetcher.pushNew urls (f c)) cs urls).
Proof.
  induction cs as [|c cs IH]; intros urls H; simpl; [assumption|].
  apply IH. apply pushNew_NoDup. assumption.
Qed.

Lemma pushNew_head xs x u us :
  xs = u :: us -> exists us', PdfFetcher.pushNew xs x = u :: us'.
Proof.
  intros ->. unfold PdfFetcher.pushNew.
  destruct (PdfFetcher.mem x (u :: us)); eexists; reflexivity.
Qed.

Lemma fold_pushNew_head (f : jsstr -> jsstr) cs : forall urls u us,
  urls = u :: us ->
  exists us', fold_left (fun urls c => PdfFetcher.pushNew urls (f c)) cs urls
              = u :: us'.
Proof.
  induction cs as [|c cs IH]; intros urls u us E; simpl.
  - eexists. exact E.
  - destruct (@pushNew_head urls (f c) u us E) as [us' E']. eapply IH. exact E'.
Qed.

Lemma fetchAttempts_final server url r left attempt w s text bytes ct fu :
  server (List.length (requests w)) url = Response s text bytes ct fu ->
  retryable s = false ->
  fetchAttempts server url r (S left) attempt w
  = (Returns (FetchResult.Build s text ct fu), logged url w).
Proof.
  intros H Hs. simpl. rewrite H, Hs. reflexivity.
Qed.

(** X1: whatever the server answers, one call of [fetchWithRateLimit] sends
    at most [maxRetries + 1] requests, all of them to the address it was
    given. *)
Theorem attempts_never_exceed_cap (server : Server) (url : jsstr) (r : nat)
    (w : World) :
  exists k,
    k <= r + 1 /\
    requests (snd (fetchWithRateLimit server url r w)) = requests w ++ repeat url k.
Proof.
  unfold fetchWithRateLimit, withSlot.
  destruct (rateLimit w) as [w1|] eqn:Hw1.
  - destruct (fetchAttempts_log server url r (S r) 0 w1) as (k & Hk & E).
    exists k. split; [lia|].
    destruct (fetchAttempts server url r (S r) 0 w1) as [out w2].
    cbn [snd releaseSlot requests] in *. rewrite E, (rateLimit_requests _ Hw1).
    reflexivity.
  - exists 0. split; [lia|]. simpl. rewrite app_nil_r. reflexivity.
Qed.

(** X2: a caller that finds a free slot gets its answer (a result or an
    error, never a wait without end) and the slot is free again afterwards,
    also when the call ends in an error; this holds for the page client and
    for both file clients. *)
Theorem slot_is_given_back (server : Server) (w : World) :
  activeRequests w < MAX_CONCURRENT ->
  (forall url r,
     fst (fetchWithRateLimit server url r w) <> Hangs /\
     activeRequests (snd (fetchWithRateLimit server url r w)) = activeRequests w) /\
  (forall code docUrl pdfUrl,
     fst (DocFetcher.fetchLawFile server code docUrl pdfUrl w) <> Hangs /\
     activeRequests (snd (DocFetcher.fetchLawFile server code docUrl pdfUrl w))
     = activeRequests w) /\
  (forall code pdfUrl,
     fst (PdfFetcher.fetchLawPdf server code pdfUrl w) <> Hangs /\
     activeRequests (snd (PdfFetcher.fetchLawPdf server code pdfUrl w))
     = activeRequests w).
Proof.
  intros Hfree. destruct (rateLimit_free w Hfree) as [w1 Hw1].
  split; [|split].
  - intros url r. unfold fetchWithRateLimit.
    rewrite (@withSlot_effect _ _ w w1 Hw1). cbn [fst snd]. split.
    + apply fetchAttempts_returns.
    + apply (@releaseSlot_after w w1 _ Hw1). apply fetchAttempts_active.
  - intros code docUrl pdfUrl. unfold DocFetcher.fetchLawFile.
    rewrite (@withSlot_effect _ _ w w1 Hw1). cbn [fst snd].
    destruct (tryCandidates_effect server
                (DocFetcher.firstUrl (DocFetcher.candidates code docUrl pdfUrl))
                (DocFetcher.candidates code docUrl pdfUrl) w1) as (H1 & H2 & _).
    split; [exact H1|]. apply (@releaseSlot_after w w1 _ Hw1). exact H2.
  - intros code pdfUrl. unfold PdfFetcher.fetchLawPdf.
    rewrite (@withSlot_effect _ _ w w1 Hw1). cbn [fst snd].
    destruct (tryUrls_effect server
                (hd [] (PdfFetcher.candidateUrls code pdfUrl))
                (PdfFetcher.candidateUrls code pdfUrl) w1) as (H1 & H2 & _).
    split; [exact H1|]. apply (@releaseSlot_after w w1 _ Hw1). exact H2.
Qed.

Lemma slot_is_given_back_witness :
  let server : Server := fun _ _ => Failed (js "ECONNRESET") in
  let w := MkWorld 1000 0 4 [] in
  fst (fetchWithRateLimit server (js "https://x/") 3 w) <> Hangs /\
  activeRequests (snd (fetchWithRateLimit server (js "https://x/") 3 w)) = 4.
Proof.
  intros server w.
  apply (@slot_is_given_back server w).
  unfold MAX_CONCURRENT. simpl. lia.
Defined.

(** X3: an answer that asks for no retry (any status other than 429 and
    below 500) ends the call after a single request: the result carries the
    status, text, content type and final address of that answer. *)
Theorem final_answer_is_not_retried (server : Server) (url : jsstr) (r : nat)
    (w : World) (s : nat) (text : jsstr) (bytes : list N) (ct fu : jsstr) :
  activeRequests w < MAX_CONCURRENT ->
  server (List.length (requests w)) url = Response s text bytes ct fu ->
  retryable s = false ->
  fst (fetchWithRateLimit server url r w)
  = Returns (FetchResult.Build s text ct fu) /\
  requests (snd (fetchWithRateLimit server url r w)) = requests w ++ [url].
Proof.
  intros Hfree Hans Hs. destruct (rateLimit_free w Hfree) as [w1 Hw1].
  unfold fetchWithRateLimit. rewrite (@withSlot_effect _ _ w w1 Hw1).
  rewrite <- (rateLimit_requests _ Hw1) in Hans.
  rewrite (@fetchAttempts_final server url r r 0 w1 s text bytes ct fu Hans Hs).
  cbn [fst snd releaseSlot logged requests].
  rewrite (rateLimit_requests _ Hw1). split; reflexivity.
Qed.

Lemma final_answer_is_not_retried_witness :
  let server : Server :=
    fun _ u => Response 404 (js "No encontrado") [] (js "text/html") u in
  let w := MkWorld 1000 0 0 [] in
  fst (fetchWithRateLimit server (js "https://x/") 3 w)
  = Returns (FetchResult.Build 404 (js "No encontrado") (js "text/html")
               (js "https://x/")) /\
  requests (snd (fetchWithRateLimit server (js "https://x/") 3 w))
  = [] ++ [js "https://x/"].
Proof.
  intros server w.
  apply (@final_answer_is_not_retried server (js "https://x/") 3 w 404
           (js "No encontrado") [] (js "text/html") (js "https://x/")).
  - unfold MAX_CONCURRENT. simpl. lia.
  - reflexivity.
  - reflexivity.
Defined.

(** X4: when every request runs into the connection timeout, the call makes
    [maxRetries + 1] attempts and then returns the result of status 0 with
    empty body and content type and the requested address; it has waited
    one timeout per attempt. *)
Theorem persistent_timeout_gives_status_0 (server : Server) (url : jsstr)
    (r : nat) (w : World) :
  activeRequests w < MAX_CONCURRENT ->
  (forall n, server n url = Aborted) ->
  exists w',
    fetchWithRateLimit server url r w
    = (Returns (FetchResult.Build 0 [] [] url), w') /\
    requests w' = requests w ++ repeat url (r + 1) /\
    now w' = (admittedAt w + Z.of_nat (r + 1) * CONNECT_TIMEOUT_MS)%Z.
Proof.
  intros Hfree Hsrv. destruct (rateLimit_free w Hfree) as [w1 Hw1].
  unfold fetchWithRateLimit. rewrite (@withSlot_effect _ _ w w1 Hw1).
  destruct (@fetchAttempts_all_aborted server url r Hsrv (S r) 0 w1)
    as (w2 & H1 & H2 & H3); [lia | lia |].
  rewrite H1. cbn [fst snd]. exists (releaseSlot w2).
  split; [reflexivity|]. cbn [releaseSlot requests now].
  rewrite H2, H3, (rateLimit_requests _ Hw1).
  destruct (@rateLimit_clock w w1 Hw1) as [-> _].
  replace (r + 1) with (S r) by lia. split; reflexivity.
Qed.

Lemma persistent_timeout_gives_status_0_witness :
  exists w',
    fetchWithRateLimit (fun _ _ => Aborted) (js "https://x/") 3
      (MkWorld 1000 0 0 [])
    = (Returns (FetchResult.Build 0 [] [] (js "https://x/")), w') /\
    requests w' = [] ++ repeat (js "https://x/") (3 + 1) /\
    now w' = (admittedAt (MkWorld 1000 0 0 [])
              + Z.of_nat (3 + 1) * CONNECT_TIMEOUT_MS)%Z.
Proof.
  apply (@persistent_timeout_gives_status_0 (fun _ _ => Aborted)
           (js "https://x/") 3 (MkWorld 1000 0 0 [])).
  - unfold MAX_CONCURRENT. simpl. lia.
  - intros n. reflexivity.
Defined.

(** X5: against a server that answers 500 to every request, the waits of the
    exponential back-off (2 s, 4 s, 8 s, ...) add up to
    [(2 ^ (maxRetries + 1) - 2)] seconds. *)
Theorem backoff_adds_up (server : Server) (url : jsstr) (r : nat) (w : World) :
  activeRequests w < MAX_CONCURRENT ->
  (forall n, statusOf (server n url) = Some 500) ->
  now (snd (fetchWithRateLimit server url r w))
  = (admittedAt w + (2 ^ Z.of_nat (r + 1) - 2) * 1000)%Z.
Proof.
  intros Hfree Hsrv. destruct (rateLimit_free w Hfree) as [w1 Hw1].
  unfold fetchWithRateLimit. rewrite (@withSlot_effect _ _ w w1 Hw1).
  cbn [snd releaseSlot now].
  rewrite (@fetchAttempts_backoff server url r Hsrv (S r) 0 w1) by lia.
  destruct (@rateLimit_clock w w1 Hw1) as [-> _].
  replace (r + 1) with (S r) by lia.
  change (2 ^ Z.of_nat 1)%Z with 2%Z. reflexivity.
Qed.

Lemma backoff_adds_up_witness :
  now (snd (fetchWithRateLimit (fun _ _ => Response 500 [] [] [] [])
              (js "https://x/") 3 (MkWorld 1000 0 0 [])))
  = (admittedAt (MkWorld 1000 0 0 []) + (2 ^ Z.of_nat (3 + 1) - 2) * 1000)%Z.
Proof.
  apply (@backoff_adds_up (fun _ _ => Response 500 [] [] [] [])
           (js "https://x/") 3 (MkWorld 1000 0 0 [])).
  - unfold MAX_CONCURRENT. simpl. lia.
  - intros n. reflexivity.
Defined.



(** X7: a call that finds a free slot is stamped at the later of the current
    time and the previous stamp plus the minimum delay, so two successive
    calls are stamped at least [MIN_DELAY_MS] apart; retries inside a call
    do not move the stamp. *)
Theorem calls_are_spaced (server : Server) (url : jsstr) (r : nat) (w : World) :
  activeRequests w < MAX_CONCURRENT ->
  lastRequestTime (snd (fetchWithRateLimit server url r w)) = admittedAt w /\
  (lastRequestTime w + MIN_DELAY_MS
   <= lastRequestTime (snd (fetchWithRateLimit server url r w)))%Z.
Proof.
  intros Hfree. destruct (rateLimit_free w Hfree) as [w1 Hw1].
  unfold fetchWithRateLimit. rewrite (@withSlot_effect _ _ w w1 Hw1).
  cbn [snd releaseSlot lastRequestTime]. rewrite fetchAttempts_stamp.
  destruct (@rateLimit_clock w w1 Hw1) as [_ ->]. split; [reflexivity|].
  unfold admittedAt. lia.
Qed.

Lemma calls_are_spaced_witness :
  let server : Server := fun _ _ => Response 200 [] [] [] [] in
  let w := MkWorld 1100 1000 0 [] in
  lastRequestTime (snd (fetchWithRateLimit server (js "https://x/") 3 w))
  = admittedAt w /\
  (lastRequestTime w + MIN_DELAY_MS
   <= lastRequestTime (snd (fetchWithRateLimit server (js "https://x/") 3 w)))%Z.
Proof.
  intros server w.
  apply (@calls_are_spaced server (js "https://x/") 3 w).
  unfold MAX_CONCURRENT. simpl. lia.
Defined.

Lemma fetchWithRateLimit_log server url r w :
  exists k,
    k <= r + 1 /\
    requests (snd (fetchWithRateLimit server url r w)) = requests w ++ repeat url k.
Proof.
  unfold fetchWithRateLimit, withSlot.
  destruct (rateLimit w) as [w1|] eqn:Hw1.
  - destruct (fetchAttempts_log server url r (S r) 0 w1) as (k & Hk & E).
    exists k. split; [lia|].
    destruct (fetchAttempts server url r (S r) 0 w1) as [out w2].
    cbn [snd releaseSlot requests] in *. rewrite E, (rateLimit_requests _ Hw1).
    reflexivity.
  - exists 0. split; [lia|]. simpl. rewrite app_nil_r. reflexivity.
Qed.

Lemma tryCandidates_allGone server first :
  allGone server ->
  forall cands w,
    requests (snd (DocFetcher.tryCandidates server first cands w))
    = requests w ++ map Candidate.url cands /\
    now (snd (DocFetcher.tryCandidates server first cands w)) = now w.
Proof.
  intros Hgone. induction cands as [|c rest IH]; intros w.
  - cbn [DocFetcher.tryCandidates snd map]. rewrite app_nil_r. split; reflexivity.
  - cbn [DocFetcher.tryCandidates].
    rewrite (@download_404 server (Candidate.url c) w) by apply Hgone.
    destruct (IH (logged (Candidate.url c) w)) as [H1 H2].
    rewrite H1, H2. cbn [logged requests now map].
    rewrite <- app_assoc. split; reflexivity.
Qed.

Lemma tryUrls_allGone server first :
  allGone server ->
  forall urls w,
    requests (snd (PdfFetcher.tryUrls server first urls w)) = requests w ++ urls /\
    now (snd (PdfFetcher.tryUrls server first urls w)) = now w.
Proof.
  intros Hgone. induction urls as [|u rest IH]; intros w.
  - cbn [PdfFetcher.tryUrls snd]. rewrite app_nil_r. split; reflexivity.
  - cbn [PdfFetcher.tryUrls].
    rewrite (@download_404 server u w) by apply Hgone.
    destruct (IH (logged u w)) as [H1 H2].
    rewrite H1, H2. cbn [logged requests now].
    rewrite <- app_assoc. split; reflexivity.
Qed.

Lemma fetchLawHtml_eq server code w :
  fetchLawHtml server code w
  = match fetchWithRateLimit server (refUrl code) 3 w with
    | (Returns result, w) =>
        if usable result then (Returns result, w)
        else
          match fetchWithRateLimit server (altUrl code) 3 w with
          | (Returns altResult, w) =>
              if usable altResult then (Returns altResult, w)
              else (Returns result, w)
          | (Throws m, w) => (Throws m, w)
          | (Hangs, w) => (Hangs, w)
          end
    | (Throws m, w) => (Throws m, w)
    | (Hangs, w) => (Hangs, w)
    end.
Proof. unfold fetchLawHtml, refUrl, altUrl. cbv zeta. reflexivity. Qed.

Lemma fetchWithRateLimit_ends server url r w :
  activeRequests w < MAX_CONCURRENT ->
  fst (fetchWithRateLimit server url r w) <> Hangs /\
  activeRequests (snd (fetchWithRateLimit server url r w)) = activeRequests w.
Proof.
  intros Hfree. destruct (rateLimit_free w Hfree) as [w1 Hw1].
  unfold fetchWithRateLimit.
  rewrite (@withSlot_effect _ _ w w1 Hw1). cbn [fst snd]. split.
  - apply fetchAttempts_returns.
  - apply (@releaseSlot_after w w1 _ Hw1). apply fetchAttempts_active.
Qed.

(** X8: [fetchLawHtml] returns the page of the first address when that page
    is usable (status 200 and more than 500 code units) and does not ask the
    alternative address then; otherwise it asks the alternative address and
    returns its page when that one is usable, and the result of the first
    address when it is not, never the unusable result of the alternative.
    Every result it returns arises in this way, with at most four requests
    to each address, and a call that finds a free slot ends and leaves the
    slot free. *)
Theorem fetchLawHtml_prefers_usable (server : Server) (code : jsstr) (w : World) :
  (forall primary w1,
     fetchWithRateLimit server (refUrl code) 3 w = (Returns primary, w1) ->
     (usable primary = true ->
      fetchLawHtml server code w = (Returns primary, w1)) /\
     (usable primary = false ->
      forall alt w2,
        fetchWithRateLimit server (altUrl code) 3 w1 = (Returns alt, w2) ->
        fetchLawHtml server code w
        = (Returns (if usable alt then alt else primary), w2))) /\
  (forall res w',
     fetchLawHtml server code w = (Returns res, w') ->
     exists primary w1 k1 k2,
       fetchWithRateLimit server (refUrl code) 3 w = (Returns primary, w1) /\
       (usable res = true \/ res = primary) /\
       requests w'
       = requests w ++ repeat (refUrl code) k1 ++ repeat (altUrl code) k2 /\
       k1 <= 4 /\ k2 <= 4 /\
       (usable primary = true -> res = primary /\ w' = w1 /\ k2 = 0) /\
       (usable primary = false ->
        exists alt,
          fetchWithRateLimit server (altUrl code) 3 w1 = (Returns alt, w') /\
          res = (if usable alt then alt else primary))) /\
  (activeRequests w < MAX_CONCURRENT ->
   fst (fetchLawHtml server code w) <> Hangs /\
   activeRequests (snd (fetchLawHtml server code w)) = activeRequests w) /\
  (forall r,
     usable r = true
     <-> FetchResult.status r = 200 /\ 500 < strlen (FetchResult.body r)).
Proof.
  rewrite fetchLawHtml_eq. repeat apply conj.
  - intros primary w1 E. rewrite E. split.
    + intros U. rewrite U. reflexivity.
    + intros U alt w2 E2. rewrite U, E2. destruct (usable alt); reflexivity.
  - intros res w'.
    destruct (fetchWithRateLimit_log server (refUrl code) 3 w) as (k1 & Hk1 & E1).
    destruct (fetchWithRateLimit server (refUrl code) 3 w) as [[primary|m|] w1];
      try discriminate.
    cbn [snd] in E1.
    destruct (usable primary) eqn:U.
    + intros H. injection H as <- <-.
      exists primary, w1, k1, 0. cbn [repeat]. rewrite app_nil_r.
      (split; [reflexivity|]); (split; [auto|]); (split; [exact E1|]);
      (split; [lia|]); (split; [lia|]); split; [intros _; auto | congruence].
    + destruct (fetchWithRateLimit_log server (altUrl code) 3 w1) as (k2 & Hk2 & E2).
      destruct (fetchWithRateLimit server (altUrl code) 3 w1) as [[alt|m|] w2] eqn:F2;
        try discriminate.
      cbn [snd] in E2.
      destruct (usable alt) eqn:U2; intros H; injection H as <- <-;
        exists primary, w1, k1, k2; rewrite E2, E1, <- app_assoc;
        (split; [reflexivity|]); (split; [auto|]); (split; [reflexivity|]);
        (split; [lia|]); (split; [lia|]); (split; [congruence|]);
        intros _; exists alt; rewrite U2; (split; [exact F2 | reflexivity]).
  - intros Hfree.
    destruct (@fetchWithRateLimit_ends server (refUrl code) 3 w Hfree) as [N1 A1].
    destruct (fetchWithRateLimit server (refUrl code) 3 w) as [[primary|m|] w1];
      cbn [fst snd] in *; try (split; [discriminate | exact A1]);
      [|contradiction].
    destruct (usable primary); [split; [discriminate | exact A1]|].
    assert (Hfree1 : activeRequests w1 < MAX_CONCURRENT) by (rewrite A1; exact Hfree).
    destruct (@fetchWithRateLimit_ends server (altUrl code) 3 w1 Hfree1) as [N2 A2].
    destruct (fetchWithRateLimit server (altUrl code) 3 w1) as [[alt|m|] w2];
      cbn [fst snd] in *; [| |contradiction].
    + destruct (usable alt); cbn [fst snd]; (split; [discriminate | congruence]).
    + split; [discriminate | congruence].
  - intros r. unfold usable.
    rewrite andb_true_iff, Nat.eqb_eq, Nat.ltb_lt. reflexivity.
Qed.

Lemma fetchLawHtml_prefers_usable_witness :
  let page := repeat 120%N 501 in
  let server : Server :=
    fun _ u => if str_eqb u (altUrl (js "cpf"))
               then Response 200 page [] [] u
               else Response 200 (js "<html></html>") [] [] u in
  let w := MkWorld 1000 0 0 [] in
  let short := FetchResult.Build 200 (js "<html></html>") [] (refUrl (js "cpf")) in
  let long := FetchResult.Build 200 page [] (altUrl (js "cpf")) in
  let wa := MkWorld 1000 1000 0 [refUrl (js "cpf")] in
  let wb := MkWorld 1300 1300 0 [refUrl (js "cpf"); altUrl (js "cpf")] in
  fetchLawHtml server (js "cpf") w = (Returns long, wb) /\
  (exists primary w1 k1 k2,
     fetchWithRateLimit server (refUrl (js "cpf")) 3 w = (Returns primary, w1) /\
     (usable long = true \/ long = primary) /\
     requests wb
     = requests w ++ repeat (refUrl (js "cpf")) k1 ++ repeat (altUrl (js "cpf")) k2 /\
     k1 <= 4 /\ k2 <= 4 /\
     (usable primary = true -> long = primary /\ wb = w1 /\ k2 = 0) /\
     (usable primary = false ->
      exists alt,
        fetchWithRateLimit server (altUrl (js "cpf")) 3 w1 = (Returns alt, wb) /\
        long = (if usable alt then alt else primary))) /\
  fst (fetchLawHtml server (js "cpf") w) <> Hangs /\
  activeRequests (snd (fetchLawHtml server (js "cpf") w)) = activeRequests w.
Proof.
  intros page server w short long wa wb.
  destruct (@fetchLawHtml_prefers_usable server (js "cpf") w) as (F & B & T & _).
  split; [|split].
  - assert (E : fetchWithRateLimit server (refUrl (js "cpf")) 3 w
                 = (Returns short, wa)) by (vm_compute; reflexivity).
    destruct (F short wa E) as [_ Hb].
    assert (E2 : fetchWithRateLimit server (altUrl (js "cpf")) 3 wa
                  = (Returns long, wb)) by (vm_compute; reflexivity).
    exact (Hb eq_refl long wb E2).
  - apply (B long wb). vm_compute. reflexivity.
  - apply T. unfold MAX_CONCURRENT. simpl. lia.
Defined.

Lemma candidates_eq code docUrl pdfUrl :
  DocFetcher.candidates code docUrl pdfUrl
  = (match given docUrl with
     | Some u => [Candidate.Build u doc]
     | None => []
     end)
    ++ [Candidate.Build (docDefault code) doc]
    ++ (match given pdfUrl with
        | Some u => [Candidate.Build u pdf]
        | None => []
        end)
    ++ [Candidate.Build (pdfDefault code) pdf].
Proof. unfold DocFetcher.candidates, docDefault, pdfDefault. reflexivity. Qed.

Lemma downloadAttempts_count server url : forall left attempt w,
  exists k, k <= left /\ (0 < left -> 1 <= k) /\
    requests (snd (downloadAttempts server url left attempt w))
    = requests w ++ repeat url k.
Proof.
  induction left as [|left IH]; intros attempt w; cbn [downloadAttempts doFetch].
  - exists 0. cbn [snd repeat]. rewrite app_nil_r. repeat split; lia.
  - destruct (server (List.length (requests w)) url) as [st text bytes ct fu| |].
    + destruct (retryable st && (attempt <? 2)).
      * destruct (IH (S attempt)
                    (sleep (backoff attempt)
                       (MkWorld (now w) (lastRequestTime w) (activeRequests w)
                          (requests w ++ [url])))) as (k & Hk & _ & E).
        exists (S k). rewrite E. cbn [sleep requests repeat].
        rewrite <- app_assoc. repeat split; lia.
      * exists 1. split; [lia|]. split; [lia|].
        destruct (st =? 404); [reflexivity|].
        destruct (negb (st =? 200)); reflexivity.
    + destruct (attempt <? 2).
      * destruct (IH (S attempt)
                    (sleep DOWNLOAD_TIMEOUT_MS
                       (MkWorld (now w) (lastRequestTime w) (activeRequests w)
                          (requests w ++ [url])))) as (k & Hk & _ & E).
        exists (S k). rewrite E. cbn [sleep requests repeat].
        rewrite <- app_assoc. repeat split; lia.
      * exists 1. repeat split; lia.
    + exists 1. repeat split; lia.
Qed.

Lemma tryCandidates_runs server first : forall cands w,
  exists ks,
    requests (snd (DocFetcher.tryCandidates server first cands w))
    = requests w ++ runs (map Candidate.url cands) ks /\
    List.length ks <= List.length cands /\
    Forall (fun k => 1 <= k <= 3) ks /\
    (cands <> [] -> ks <> []).
Proof.
  induction cands as [|c rest IH]; intros w.
  - exists []. cbn [DocFetcher.tryCandidates snd map runs]. rewrite app_nil_r.
    repeat split; [simpl; lia | constructor | congruence].
  - cbn [DocFetcher.tryCandidates].
    destruct (downloadAttempts_count server (Candidate.url c) 3 0 w)
      as (k & K1 & K2 & E).
    assert (Hone : requests w ++ repeat (Candidate.url c) k
                   = requests w ++ runs (map Candidate.url (c :: rest)) [k]).
    { cbn [map runs]. destruct (map Candidate.url rest); rewrite app_nil_r; reflexivity. }
    assert (Fone : Forall (fun k => 1 <= k <= 3) [k])
      by (constructor; [lia | constructor]).
    destruct (downloadAttempts server (Candidate.url c) 3 0 w) as [[st buf| |m] w1];
      cbn [snd] in *.
    + exists [k]. rewrite E.
      repeat split; [exact Hone | simpl; lia | exact Fone | discriminate].
    + destruct (IH w1) as (ks & R & L & F & _).
      exists (k :: ks). rewrite R, E. cbn [map runs List.length].
      rewrite <- app_assoc. repeat split; [lia | | discriminate].
      constructor; [lia | exact F].
    + exists [k]. rewrite E.
      repeat split; [exact Hone | simpl; lia | exact Fone | discriminate].
Qed.

Lemma tryUrls_runs server first : forall urls w,
  exists ks,
    requests (snd (PdfFetcher.tryUrls server first urls w))
    = requests w ++ runs urls ks /\
    List.length ks <= List.length urls /\
    Forall (fun k => 1 <= k <= 3) ks /\
    (urls <> [] -> ks <> []).
Proof.
  induction urls as [|u rest IH]; intros w.
  - exists []. cbn [PdfFetcher.tryUrls snd runs]. rewrite app_nil_r.
    repeat split; [simpl; lia | constructor | congruence].
  - cbn [PdfFetcher.tryUrls].
    destruct (downloadAttempts_count server u 3 0 w) as (k & K1 & K2 & E).
    assert (Hone : requests w ++ repeat u k = requests w ++ runs (u :: rest) [k]).
    { cbn [runs]. destruct rest; rewrite app_nil_r; reflexivity. }
    assert (Fone : Forall (fun k => 1 <= k <= 3) [k])
      by (constructor; [lia | constructor]).
    destruct (downloadAttempts server u 3 0 w) as [[st buf| |m] w1];
      cbn [snd] in *.
    + exists [k]. rewrite E.
      repeat split; [exact Hone | simpl; lia | exact Fone | discriminate].
    + destruct (IH w1) as (ks & R & L & F & _).
      exists (k :: ks). rewrite R, E. cbn [runs List.length].
      rewrite <- app_assoc. repeat split; [lia | | discriminate].
      constructor; [lia | exact F].
    + exists [k]. rewrite E.
      repeat split; [exact Hone | simpl; lia | exact Fone | discriminate].
Qed.

Lemma runs_length : forall urls ks,
  Forall (fun k => 1 <= k <= 3) ks ->
  List.length (runs urls ks) <= 3 * List.length urls.
Proof.
  induction urls as [|u urls IH]; intros ks F; [simpl; lia|].
  destruct ks as [|k ks]; [simpl; lia|].
  inversion F as [|? ? Hk F']; subst.
  cbn [runs List.length]. rewrite length_app, repeat_length.
  specialize (IH ks F'). lia.
Qed.

Lemma runs_incl : forall urls ks, incl (runs urls ks) urls.
Proof.
  induction urls as [|u urls IH]; intros ks; [intros x []|].
  destruct ks as [|k ks]; [intros x []|].
  cbn [runs]. apply incl_app.
  - apply incl_repeat. left. reflexivity.
  - apply incl_tl. apply IH.
Qed.

Lemma occurrences_app u l1 l2 :
  occurrences u (l1 ++ l2) = occurrences u l1 + occurrences u l2.
Proof. unfold occurrences. rewrite filter_app, length_app. reflexivity. Qed.

Lemma occurrences_cons u a l :
  occurrences u (a :: l) = (if str_eqb u a then 1 else 0) + occurrences u l.
Proof. unfold occurrences. cbn [filter]. destruct (str_eqb u a); reflexivity. Qed.

Lemma occurrences_repeat u a k :
  occurrences u (repeat a k) = if str_eqb u a then k else 0.
Proof.
  induction k as [|k IH]; cbn [repeat].
  - destruct (str_eqb u a); reflexivity.
  - rewrite occurrences_cons, IH. destruct (str_eqb u a); reflexivity.
Qed.

Lemma runs_occurrences u : forall urls ks,
  Forall (fun k => 1 <= k <= 3) ks ->
  occurrences u (runs urls ks) <= 3 * occurrences u urls.
Proof.
  induction urls as [|a urls IH]; intros ks F;
    [cbn [runs]; change (occurrences u []) with 0; lia|].
  destruct ks as [|k ks];
    [cbn [runs]; change (occurrences u []) with 0; lia|].
  inversion F as [|? ? Hk F']; subst.
  cbn [runs]. rewrite occurrences_app, occurrences_repeat, occurrences_cons.
  specialize (IH ks F'). destruct (str_eqb u a); lia.
Qed.

Lemma occurrences_NoDup u : forall l, NoDup l -> occurrences u l <= 1.
Proof.
  induction l as [|a l IH]; intros H; [unfold occurrences; simpl; lia|].
  inversion H as [|? ? Hn H']; subst. rewrite occurrences_cons.
  destruct (str_eqb u a) eqn:E; [|specialize (IH H'); lia].
  apply str_eqb_eq in E. subst a.
  assert (Z : occurrences u l = 0).
  { clear IH H H'. induction l as [|b l IHl]; [reflexivity|].
    rewrite occurrences_cons.
    destruct (str_eqb u b) eqn:E.
    - apply str_eqb_eq in E. subst b. exfalso. apply Hn. left. reflexivity.
    - apply IHl. intros Hin. apply Hn. right. exact Hin. }
  lia.
Qed.

Lemma download_timedOut server url :
  allTimedOut server ->
  forall left attempt w,
    attempt + left = 3 ->
    fst (downloadAttempts server url left attempt w) = NextCandidate /\
    requests (snd (downloadAttempts server url left attempt w))
    = requests w ++ repeat url left.
Proof.
  intros H. induction left as [|left IH]; intros attempt w Hsum;
    cbn [downloadAttempts doFetch].
  - cbn [fst snd repeat]. rewrite app_nil_r. split; reflexivity.
  - rewrite H. destruct (attempt <? 2) eqn:A.
    + destruct (IH (S attempt)
                  (sleep DOWNLOAD_TIMEOUT_MS
                     (MkWorld (now w) (lastRequestTime w) (activeRequests w)
                        (requests w ++ [url])))) as [E1 E2]; [lia|].
      rewrite E1, E2. cbn [sleep requests repeat]. rewrite <- app_assoc.
      split; reflexivity.
    + apply Nat.ltb_ge in A. assert (left = 0) by lia. subst left.
      cbn [fst snd sleep requests repeat]. split; reflexivity.
Qed.

Lemma tryCandidates_timedOut server first :
  allTimedOut server ->
  forall cands w,
    requests (snd (DocFetcher.tryCandidates server first cands w))
    = requests w ++ runs (map Candidate.url cands) (repeat 3 (List.length cands)).
Proof.
  intros H. induction cands as [|c rest IH]; intros w.
  - cbn [DocFetcher.tryCandidates snd map runs]. rewrite app_nil_r. reflexivity.
  - cbn [DocFetcher.tryCandidates].
    destruct (@download_timedOut server (Candidate.url c) H 3 0 w eq_refl)
      as [E1 E2].
    destruct (downloadAttempts server (Candidate.url c) 3 0 w) as [d w1].
    cbn [fst snd] in *. subst d. rewrite IH, E2.
    cbn [map List.length repeat runs]. rewrite <- app_assoc. reflexivity.
Qed.

Lemma tryUrls_timedOut server first :
  allTimedOut server ->
  forall urls w,
    requests (snd (PdfFetcher.tryUrls server first urls w))
    = requests w ++ runs urls (repeat 3 (List.length urls)).
Proof.
  intros H. induction urls as [|u rest IH]; intros w.
  - cbn [PdfFetcher.tryUrls snd runs]. rewrite app_nil_r. reflexivity.
  - cbn [PdfFetcher.tryUrls].
    destruct (@download_timedOut server u H 3 0 w eq_refl) as [E1 E2].
    destruct (downloadAttempts server u 3 0 w) as [d w1].
    cbn [fst snd] in *. subst d. rewrite IH, E2.
    cbn [List.length repeat runs]. rewrite <- app_assoc. reflexivity.
Qed.

Lemma candidates_nonempty code docUrl pdfUrl :
  DocFetcher.candidates code docUrl pdfUrl <> [].
Proof.
  destruct (candidates_head_doc code docUrl pdfUrl) as (c0 & cs & E & _).
  rewrite E. discriminate.
Qed.

Lemma docDefault_given code : given (Some (docDefault code)) = Some (docDefault code).
Proof.
  assert (P : exists x xs,
             js "https://www.diputados.gob.mx/LeyesBiblio/doc/" = x :: xs)
    by (vm_compute; eauto).
  destruct P as (x & xs & P). unfold docDefault. rewrite P. reflexivity.
Qed.

Lemma candidateUrls_NoDup code pdfUrl : NoDup (PdfFetcher.candidateUrls code pdfUrl).
Proof.
  unfold PdfFetcher.candidateUrls. apply fold_pushNew_NoDup.
  destruct (given pdfUrl); [|constructor].
  constructor; [intros [] | constructor].
Qed.

Lemma fetchLawFile_requests server code docUrl pdfUrl w :
  requests (snd (DocFetcher.fetchLawFile server code docUrl pdfUrl w))
  = match rateLimit w with
    | Some w1 =>
        requests (snd (DocFetcher.tryCandidates server
                         (DocFetcher.firstUrl
                            (DocFetcher.candidates code docUrl pdfUrl))
                         (DocFetcher.candidates code docUrl pdfUrl) w1))
    | None => requests w
    end.
Proof.
  unfold DocFetcher.fetchLawFile, withSlot. cbv zeta.
  destruct (rateLimit w) as [w1|]; [|reflexivity].
  destruct (DocFetcher.tryCandidates server _ _ w1). reflexivity.
Qed.

Lemma fetchLawPdf_requests server code pdfUrl w :
  requests (snd (PdfFetcher.fetchLawPdf server code pdfUrl w))
  = match rateLimit w with
    | Some w1 =>
        requests (snd (PdfFetcher.tryUrls server
                         (hd [] (PdfFetcher.candidateUrls code pdfUrl))
                         (PdfFetcher.candidateUrls code pdfUrl) w1))
    | None => requests w
    end.
Proof.
  unfold PdfFetcher.fetchLawPdf, withSlot. cbv zeta.
  destruct (rateLimit w) as [w1|]; [|reflexivity].
  destruct (PdfFetcher.tryUrls server _ _ w1). reflexivity.
Qed.

(** X9: a file download asks its candidates in the order of the list, each
    of them between one and three times in a row, up to the candidate at
    which it stops; a call that finds a free slot asks at least the first
    one.  So it sends at most three requests for each entry of the list (at
    most 12 for [fetchLawFile], at most 15 for [fetchLawPdf]) and none to an
    address outside the list.  [fetchLawPdf], whose list holds no address
    twice, sends at most three requests to one address; [fetchLawFile] does
    not remove duplicates and asks an address that is listed twice again.
    When every request times out each entry of the list is asked three
    times, so that a caller's document address equal to the default one
    receives six requests. *)
Theorem downloads_are_bounded (server : Server) (w : World) :
  (forall code docUrl pdfUrl,
     exists ks new,
       new = runs (map Candidate.url (DocFetcher.candidates code docUrl pdfUrl)) ks /\
       requests (snd (DocFetcher.fetchLawFile server code docUrl pdfUrl w))
       = requests w ++ new /\
       List.length ks <= List.length (DocFetcher.candidates code docUrl pdfUrl) /\
       Forall (fun k => 1 <= k <= 3) ks /\
       (activeRequests w < MAX_CONCURRENT -> ks <> []) /\
       List.length new <= 12 /\
       incl new (map Candidate.url (DocFetcher.candidates code docUrl pdfUrl)) /\
       (forall u,
          occurrences u new
          <= 3 * occurrences u
                   (map Candidate.url (DocFetcher.candidates code docUrl pdfUrl)))) /\
  (forall code pdfUrl,
     exists ks new,
       new = runs (PdfFetcher.candidateUrls code pdfUrl) ks /\
       requests (snd (PdfFetcher.fetchLawPdf server code pdfUrl w))
       = requests w ++ new /\
       List.length ks <= List.length (PdfFetcher.candidateUrls code pdfUrl) /\
       Forall (fun k => 1 <= k <= 3) ks /\
       (activeRequests w < MAX_CONCURRENT -> ks <> []) /\
       List.length new <= 15 /\
       incl new (PdfFetcher.candidateUrls code pdfUrl) /\
       (forall u, occurrences u new <= 3)) /\
  (activeRequests w < MAX_CONCURRENT ->
   allTimedOut server ->
   (forall code docUrl pdfUrl,
      exists new,
        new = runs (map Candidate.url (DocFetcher.candidates code docUrl pdfUrl))
                (repeat 3 (List.length (DocFetcher.candidates code docUrl pdfUrl))) /\
        requests (snd (DocFetcher.fetchLawFile server code docUrl pdfUrl w))
        = requests w ++ new /\
        (docUrl = Some (docDefault code) ->
         6 <= occurrences (docDefault code) new)) /\
   (forall code pdfUrl,
      requests (snd (PdfFetcher.fetchLawPdf server code pdfUrl w))
      = requests w
        ++ runs (PdfFetcher.candidateUrls code pdfUrl)
             (repeat 3 (List.length (PdfFetcher.candidateUrls code pdfUrl))))).
Proof.
  repeat apply conj.
  - intros code docUrl pdfUrl. rewrite fetchLawFile_requests.
    pose proof (candidates_length code docUrl pdfUrl) as Hl.
    destruct (rateLimit w) as [w1|] eqn:Hw1.
    + destruct (tryCandidates_runs server
                  (DocFetcher.firstUrl (DocFetcher.candidates code docUrl pdfUrl))
                  (DocFetcher.candidates code docUrl pdfUrl) w1)
        as (ks & R & L & F & N).
      exists ks, (runs (map Candidate.url (DocFetcher.candidates code docUrl pdfUrl)) ks).
      rewrite R, (rateLimit_requests _ Hw1).
      pose proof (@runs_length
                    (map Candidate.url (DocFetcher.candidates code docUrl pdfUrl))
                    ks F) as B.
      rewrite length_map in B.
      repeat split; try assumption; try lia.
      * intros _. apply N. apply candidates_nonempty.
      * apply runs_incl.
      * intros u. apply runs_occurrences. exact F.
    + assert (Hfull : ~ activeRequests w < MAX_CONCURRENT).
      { intros Hfree. destruct (rateLimit_free w Hfree) as [w1 E]. congruence. }
      exists [], []. rewrite app_nil_r.
      repeat split; try (simpl; lia).
      * destruct (map Candidate.url _); reflexivity.
      * constructor.
      * intros x [].
      * intros u. change (occurrences u []) with 0. lia.
  - intros code pdfUrl. rewrite fetchLawPdf_requests.
    pose proof (candidateUrls_length code pdfUrl) as Hl.
    destruct (rateLimit w) as [w1|] eqn:Hw1.
    + destruct (tryUrls_runs server
                  (hd [] (PdfFetcher.candidateUrls code pdfUrl))
                  (PdfFetcher.candidateUrls code pdfUrl) w1)
        as (ks & R & L & F & N).
      exists ks, (runs (PdfFetcher.candidateUrls code pdfUrl) ks).
      rewrite R, (rateLimit_requests _ Hw1).
      pose proof (@runs_length (PdfFetcher.candidateUrls code pdfUrl) ks F) as B.
      repeat split; try assumption; try lia.
      * intros _. apply N. apply candidateUrls_nonempty.
      * apply runs_incl.
      * intros u.
        pose proof (@runs_occurrences u (PdfFetcher.candidateUrls code pdfUrl)
                      ks F) as O.
        pose proof (@occurrences_NoDup u _ (candidateUrls_NoDup code pdfUrl)) as O1.
        lia.
    + assert (Hfull : ~ activeRequests w < MAX_CONCURRENT).
      { intros Hfree. destruct (rateLimit_free w Hfree) as [w1 E]. congruence. }
      exists [], []. rewrite app_nil_r.
      repeat split; try (simpl; lia).
      * destruct (PdfFetcher.candidateUrls code pdfUrl); reflexivity.
      * constructor.
      * intros x [].
      * intros u. change (occurrences u []) with 0. lia.
  - intros Hfree Hout. destruct (rateLimit_free w Hfree) as [w1 Hw1]. split.
    + intros code docUrl pdfUrl. rewrite fetchLawFile_requests, Hw1.
      rewrite (@tryCandidates_timedOut server _ Hout), (rateLimit_requests _ Hw1).
      eexists. split; [reflexivity|]. split; [reflexivity|].
      intros ->. rewrite candidates_eq, docDefault_given.
      cbn [app map Candidate.url List.length repeat runs].
      rewrite !occurrences_cons, str_eqb_refl. lia.
    + intros code pdfUrl. rewrite fetchLawPdf_requests, Hw1.
      rewrite (@tryUrls_timedOut server _ Hout), (rateLimit_requests _ Hw1).
      reflexivity.
Qed.

Lemma downloads_are_bounded_witness :
  let server : Server := fun _ _ => Aborted in
  let w := MkWorld 1000 0 0 [] in
  let code := js "cpf" in
  let cands := DocFetcher.candidates code (Some (docDefault code)) None in
  (exists new,
     new = runs (map Candidate.url cands) (repeat 3 (List.length cands)) /\
     requests (snd (DocFetcher.fetchLawFile server code (Some (docDefault code))
                      None w))
     = requests w ++ new /\
     6 <= occurrences (docDefault code) new) /\
  requests (snd (PdfFetcher.fetchLawPdf server code None w))
  = requests w
    ++ runs (PdfFetcher.candidateUrls code None)
         (repeat 3 (List.length (PdfFetcher.candidateUrls code None))).
Proof.
  intros server w code cands.
  assert (Hfree : activeRequests w < MAX_CONCURRENT)
    by (unfold MAX_CONCURRENT; simpl; lia).
  assert (Hout : allTimedOut server) by (intros n u; reflexivity).
  destruct (@downloads_are_bounded server w) as (_ & _ & T).
  destruct (T Hfree Hout) as [Tf Tp]. split.
  - destruct (Tf code (Some (docDefault code)) None) as (new & E1 & E2 & E3).
    exists new. split; [exact E1|]. split; [exact E2|]. exact (E3 eq_refl).
  - apply Tp.
Defined.

(** X10: when every address answers 404, a file download asks each candidate
    exactly once, in the order of the list, without waiting between them:
    the minimum delay is observed once per call, not once per request. *)
Theorem exhausted_candidates_are_asked_once_each (server : Server) (w : World) :
  activeRequests w < MAX_CONCURRENT ->
  allGone server ->
  (forall code docUrl pdfUrl,
     requests (snd (DocFetcher.fetchLawFile server code docUrl pdfUrl w))
     = requests w ++ map Candidate.url (DocFetcher.candidates code docUrl pdfUrl) /\
     now (snd (DocFetcher.fetchLawFile server code docUrl pdfUrl w))
     = admittedAt w) /\
  (forall code pdfUrl,
     requests (snd (PdfFetcher.fetchLawPdf server code pdfUrl w))
     = requests w ++ PdfFetcher.candidateUrls code pdfUrl /\
     now (snd (PdfFetcher.fetchLawPdf server code pdfUrl w)) = admittedAt w).
Proof.
  intros Hfree Hgone. destruct (rateLimit_free w Hfree) as [w1 Hw1].
  destruct (@rateLimit_clock w w1 Hw1) as [Hnow _].
  split.
  - intros code docUrl pdfUrl. unfold DocFetcher.fetchLawFile.
    rewrite (@withSlot_effect _ _ w w1 Hw1). cbn [snd releaseSlot requests now].
    destruct (@tryCandidates_allGone server
                (DocFetcher.firstUrl (DocFetcher.candidates code docUrl pdfUrl))
                Hgone (DocFetcher.candidates code docUrl pdfUrl) w1) as [H1 H2].
    rewrite H1, H2, (rateLimit_requests _ Hw1), Hnow. split; reflexivity.
  - intros code pdfUrl. unfold PdfFetcher.fetchLawPdf.
    rewrite (@withSlot_effect _ _ w w1 Hw1). cbn [snd releaseSlot requests now].
    destruct (@tryUrls_allGone server
                (hd [] (PdfFetcher.candidateUrls code pdfUrl))
                Hgone (PdfFetcher.candidateUrls code pdfUrl) w1) as [H1 H2].
    rewrite H1, H2, (rateLimit_requests _ Hw1), Hnow. split; reflexivity.
Qed.

Lemma exhausted_candidates_are_asked_once_each_witness :
  let server : Server := fun _ _ => Response 404 [] [] [] [] in
  let w := MkWorld 1000 900 0 [] in
  requests (snd (PdfFetcher.fetchLawPdf server (js "ccom") None w))
  = requests w ++ PdfFetcher.candidateUrls (js "ccom") None /\
  now (snd (PdfFetcher.fetchLawPdf server (js "ccom") None w)) = admittedAt w.
Proof.
  intros server w.
  apply (@exhausted_candidates_are_asked_once_each server w).
  - unfold MAX_CONCURRENT. simpl. lia.
  - intros n u. reflexivity.
Defined.

(** X11: the address list of [fetchLawPdf] holds no address twice, has
    between one and five entries, and starts with the caller's address when
    one is given; the list of [fetchLawFile] has between two and four
    entries, every document candidate before every PDF candidate, and the
    caller's document address first when one is given. *)
Theorem candidate_lists (code : jsstr) (docUrl pdfUrl : option jsstr) :
  NoDup (PdfFetcher.candidateUrls code pdfUrl) /\
  1 <= List.length (PdfFetcher.candidateUrls code pdfUrl) <= 5 /\
  hd_error (PdfFetcher.candidateUrls code pdfUrl)
  = match given pdfUrl with
    | Some u => Some u
    | None => hd_error (PdfFetcher.candidateUrls code None)
    end /\
  2 <= List.length (DocFetcher.candidates code docUrl pdfUrl) <= 4 /\
  (exists docs pdfs,
     DocFetcher.candidates code docUrl pdfUrl = docs ++ pdfs /\
     docs <> [] /\ pdfs <> [] /\
     Forall (fun c => Candidate.format c = doc) docs /\
     Forall (fun c => Candidate.format c = pdf) pdfs /\
     hd_error (map Candidate.url docs)
     = Some (nullish (given docUrl) (docDefault code))).
Proof.
  split; [|split; [|split; [|split]]].
  - unfold PdfFetcher.candidateUrls. apply fold_pushNew_NoDup.
    destruct (given pdfUrl); [|constructor].
    constructor; [intros [] | constructor].
  - split; [|apply candidateUrls_length].
    pose proof (candidateUrls_nonempty code pdfUrl).
    destruct (PdfFetcher.candidateUrls code pdfUrl); [contradiction | simpl; lia].
  - unfold PdfFetcher.candidateUrls.
    destruct (given pdfUrl) as [u|] eqn:G.
    + destruct (@fold_pushNew_head
                  (fun c => js "https://www.diputados.gob.mx/LeyesBiblio/pdf/"
                            ++ c ++ js ".pdf")
                  (PdfFetcher.candidateCodes code) [u] u [] Logic.eq_refl)
        as [us' E].
      cbv beta in E. cbv beta iota.
      apply (f_equal (@hd_error jsstr)) in E. exact E.
    + reflexivity.
  - apply candidates_length.
  - rewrite candidates_eq.
    generalize (docDefault code) as dd. generalize (pdfDefault code) as dp.
    intros dp dd.
    destruct (given docUrl) as [d|], (given pdfUrl) as [p|]; cbv beta iota.
    + exists [Candidate.Build d doc; Candidate.Build dd doc],
             [Candidate.Build p pdf; Candidate.Build dp pdf].
      repeat split; try discriminate; repeat constructor.
    + exists [Candidate.Build d doc; Candidate.Build dd doc],
             [Candidate.Build dp pdf].
      repeat split; try discriminate; repeat constructor.
    + exists [Candidate.Build dd doc],
             [Candidate.Build p pdf; Candidate.Build dp pdf].
      repeat split; try discriminate; repeat constructor.
    + exists [Candidate.Build dd doc], [Candidate.Build dp pdf].
      repeat split; try discriminate; repeat constructor.
Qed.

(** ** Concurrency gate: the counter *)

Lemma countFlying_setNth l : forall i pc pc',
  nth_error l i = Some pc ->
  countFlying (Gate.setNth i pc' l) + flying pc = countFlying l + flying pc'.
Proof.
  unfold countFlying.
  induction l as [|x l IH]; intros i pc pc' H.
  - destruct i; discriminate.
  - destruct i as [|i]; cbn [nth_error] in H.
    + injection H as ->. cbn [Gate.setNth filter].
      destruct pc, pc'; cbn [List.length flying]; lia.
    + cbn [Gate.setNth filter]. specialize (IH i pc pc' H).
      destruct x; cbn [List.length]; lia.
Qed.

Lemma setNth_length {A} (l : list A) : forall i x,
  List.length (Gate.setNth i x l) = List.length l.
Proof.
  induction l as [|y l IH]; intros [|i] x; cbn [Gate.setNth List.length];
    try reflexivity. rewrite IH. reflexivity.
Qed.

Lemma countFlying_le l : countFlying l <= List.length l.
Proof. unfold countFlying. apply filter_length_le. Qed.

Lemma countFlying_repeat n : countFlying (repeat Gate.AtGate n) = 0.
Proof. induction n; [reflexivity | exact IHn]. Qed.

Lemma inFlight_count s : Gate.inFlight s = countFlying (Gate.callers s).
Proof. reflexivity. Qed.

Lemma resume_exact i s s' :
  Gate.resume i s = Some s' ->
  Gate.active s = Gate.inFlight s ->
  Gate.active s' = Gate.inFlight s' /\
  List.length (Gate.callers s') = List.length (Gate.callers s).
Proof.
  unfold Gate.resume. rewrite !inFlight_count.
  destruct (nth_error (Gate.callers s) i) as [pc|] eqn:E; [|discriminate].
  intros H Hinv.
  assert (Hset : forall pc',
             countFlying (Gate.setNth i pc' (Gate.callers s)) + flying pc
             = countFlying (Gate.callers s) + flying pc')
    by (intros pc'; apply countFlying_setNth; exact E).
  destruct pc as [|wake|wake| |].
  - destruct (MAX_CONCURRENT <=? Gate.active s).
    + apply some_eq in H; subst s'. cbn [Gate.active Gate.callers].
      rewrite setNth_length. specialize (Hset (Gate.SlotSleep (Gate.clock s + 50))).
      cbn [flying] in Hset. split; lia.
    + destruct (Gate.clock s - Gate.last s <? MIN_DELAY_MS)%Z.
      * apply some_eq in H; subst s'. cbn [Gate.active Gate.callers].
        rewrite setNth_length.
        specialize (Hset (Gate.DelaySleep
                            (Gate.clock s + (MIN_DELAY_MS - (Gate.clock s - Gate.last s))))).
        cbn [flying] in Hset. split; lia.
      * apply some_eq in H; subst s'. cbn [Gate.active Gate.callers].
        rewrite setNth_length. specialize (Hset Gate.InFlight).
        cbn [flying] in Hset. split; lia.
  - destruct (wake <=? Gate.clock s)%Z; [|discriminate].
    apply some_eq in H; subst s'. cbn [Gate.active Gate.callers].
    rewrite setNth_length. specialize (Hset Gate.AtGate).
    cbn [flying] in Hset. split; lia.
  - destruct (wake <=? Gate.clock s)%Z; [|discriminate].
    apply some_eq in H; subst s'. cbn [Gate.active Gate.callers].
    rewrite setNth_length. specialize (Hset Gate.InFlight).
    cbn [flying] in Hset. split; lia.
  - apply some_eq in H; subst s'. cbn [Gate.active Gate.callers].
    rewrite setNth_length. specialize (Hset Gate.Finished).
    cbn [flying] in Hset. split; lia.
  - discriminate.
Qed.

Lemma run_exact trace : forall s s',
  Gate.run trace s = Some s' ->
  Gate.active s = Gate.inFlight s ->
  Gate.active s' = Gate.inFlight s' /\
  List.length (Gate.callers s') = List.length (Gate.callers s).
Proof.
  induction trace as [|e trace IH]; intros s s' H Hinv; cbn [Gate.run] in H.
  - injection H as <-. split; [assumption | reflexivity].
  - destruct (Gate.step e s) as [s1|] eqn:E; [|discriminate].
    assert (H1 : Gate.active s1 = Gate.inFlight s1 /\
                 List.length (Gate.callers s1) = List.length (Gate.callers s)).
    { destruct e as [ms|i]; cbn [Gate.step] in E.
      - destruct (0 <=? ms)%Z; [|discriminate]. injection E as <-.
        split; [exact Hinv | reflexivity].
      - apply (resume_exact _ _ E Hinv). }
    destruct H1 as [H1 H2]. destruct (IH s1 s' H H1) as [H3 H4].
    split; [assumption | congruence].
Qed.

(** X12: however [n] callers interleave, [activeRequests] is exactly the
    number of callers between their increment and their [releaseSlot], so it
    never exceeds [n]: with at most [MAX_CONCURRENT] callers the cap holds,
    and the clamp at zero in [releaseSlot] never takes effect. *)
Theorem counter_counts_callers_in_flight (n : nat) (t0 : Z)
    (trace : list Gate.Event) (s : Gate.Sys) :
  Gate.run trace (Gate.start t0 n) = Some s ->
  Gate.active s = Gate.inFlight s /\
  List.length (Gate.callers s) = n /\
  Gate.active s <= n.
Proof.
  intros H.
  assert (H0 : Gate.active (Gate.start t0 n) = Gate.inFlight (Gate.start t0 n)).
  { rewrite inFlight_count. unfold Gate.start. cbn [Gate.active Gate.callers].
    symmetry. apply countFlying_repeat. }
  destruct (run_exact _ _ H H0) as [H1 H2].
  unfold Gate.start in H2. cbn [Gate.callers] in H2. rewrite repeat_length in H2.
  repeat split; try assumption.
  rewrite H1, <- H2, inFlight_count. apply countFlying_le.
Qed.

Lemma counter_counts_callers_in_flight_witness :
  exists s,
    Gate.run [Gate.Resume 0; Gate.Resume 1; Gate.Tick 300; Gate.Resume 1;
              Gate.Resume 0] (Gate.start 1000 2) = Some s /\
    Gate.active s = Gate.inFlight s /\
    List.length (Gate.callers s) = 2 /\
    Gate.active s <= 2.
Proof.
  eexists. split; [vm_compute; reflexivity|].
  apply (@counter_counts_callers_in_flight 2 1000
           [Gate.Resume 0; Gate.Resume 1; Gate.Tick 300; Gate.Resume 1;
            Gate.Resume 0]).
  vm_compute. reflexivity.
Defined.

(** ** White space *)

Lemma space_class x : class_matches false false [CSpace] x = is_space x.
Proof. unfold class_matches. simpl. rewrite orb_false_r. reflexivity. Qed.

Lemma star_space rest : forall prev pos caps,
  exists prev',
    rmatch false (Star true space) (MState prev rest pos caps) (fun st => Some st)
    = Some (MState prev' (trimStart rest) (pos + countSp rest) caps).
Proof.
  unfold space.
  induction rest as [|c rest IH]; intros prev pos caps.
  - rewrite rmatch_star_class_nil. exists prev. cbn [trimStart countSp].
    rewrite Nat.add_0_r. reflexivity.
  - rewrite rmatch_star_class_cons, space_class. cbn [trimStart countSp].
    destruct (is_space c).
    + destruct (IH (Some c) (S pos) caps) as [prev' E]. rewrite E.
      exists prev'. do 2 f_equal. lia.
    + exists prev. rewrite Nat.add_0_r. reflexivity.
Qed.

Lemma spaces_here prev c rest pos :
  match_here false Pat.spacesRe prev (c :: rest) pos
  = if is_space c then Some (Found pos (pos + S (countSp rest)) []) else None.
Proof.
  unfold match_here, Pat.spacesRe, plus. rewrite rmatch_seq.
  unfold space at 1. rewrite rmatch_class_cons, space_class.
  destruct (is_space c); [|reflexivity].
  destruct (star_space rest (Some c) (S pos) []) as [prev' E].
  unfold star in E. rewrite E. cbn [m_pos m_caps]. do 2 f_equal. lia.
Qed.

Lemma spaces_here_nil prev pos :
  match_here false Pat.spacesRe prev [] pos = None.
Proof. reflexivity. Qed.

Lemma trimStart_length s : List.length (trimStart s) + countSp s = List.length s.
Proof.
  induction s as [|c s IH]; simpl; [reflexivity|].
  destruct (is_space c); simpl; lia.
Qed.

Lemma replace_skip_sp x rest : forall prev pos,
  exists prev' pos',
    replace_from false Pat.spacesRe (fun _ => x) prev rest pos (countSp rest)
    = replace_from false Pat.spacesRe (fun _ => x) prev' (trimStart rest) pos' 0.
Proof.
  induction rest as [|c rest IH]; intros prev pos.
  - exists prev, pos. reflexivity.
  - cbn [countSp trimStart]. destruct (is_space c).
    + cbn [replace_from]. apply IH.
    + exists prev, pos. reflexivity.
Qed.

Lemma squash_skip x s : squash x true s = squash x false (trimStart s).
Proof.
  induction s as [|c s IH]; [reflexivity|].
  cbn [squash trimStart]. destruct (is_space c) eqn:E.
  - cbn [app]. exact IH.
  - cbn [squash]. rewrite E. reflexivity.
Qed.

Lemma replace_spaces_squash x n : forall rest prev pos,
  List.length rest <= n ->
  replace_from false Pat.spacesRe (fun _ => x) prev rest pos 0
  = squash x false rest.
Proof.
  induction n as [|n IH]; intros rest prev pos Hlen.
  - destruct rest; [|simpl in Hlen; lia]. reflexivity.
  - destruct rest as [|c rest]; [reflexivity|].
    cbn [replace_from]. rewrite spaces_here. cbn [squash].
    destruct (is_space c).
    + cbn [f_end].
      replace (pos + S (countSp rest) =? pos) with false
        by (symmetry; apply Nat.eqb_neq; lia).
      f_equal.
      replace (pred (pos + S (countSp rest) - pos)) with (countSp rest) by lia.
      destruct (replace_skip_sp x rest (Some c) (S pos)) as (prev' & pos' & E).
      rewrite E, squash_skip. apply IH.
      pose proof (trimStart_length rest). simpl in Hlen. lia.
    + f_equal. apply IH. simpl in Hlen. lia.
Qed.

Lemma replaceAll_spaces x s :
  replaceAll false Pat.spacesRe (fun _ => x) s = squash x false s.
Proof.
  unfold replaceAll. apply (@replace_spaces_squash x (List.length s)). lia.
Qed.

(** Facts about [squash] with a blank, and with nothing. *)

Lemma SP_space : is_space SP = true.
Proof. reflexivity. Qed.

Lemma squash_blank_chars s : forall b,
  Forall (fun c => is_space c = true -> c = SP) (squash [SP] b s).
Proof.
  induction s as [|c s IH]; intros b; cbn [squash]; [constructor|].
  destruct (is_space c) eqn:E.
  - destruct b; cbn [app]; [apply IH|]. constructor; [reflexivity | apply IH].
  - constructor; [congruence | apply IH].
Qed.

Lemma squash_blank_head s : headIsSpace (squash [SP] true s) = false.
Proof.
  induction s as [|c s IH]; [reflexivity|]. cbn [squash].
  destruct (is_space c) eqn:E; [exact IH|]. cbn [headIsSpace]. exact E.
Qed.

Lemma singleSpaced_cons c s :
  singleSpaced (c :: s) = negb (is_space c && headIsSpace s) && singleSpaced s.
Proof.
  destruct s as [|d s]; [|reflexivity].
  cbn [singleSpaced headIsSpace]. rewrite andb_false_r. reflexivity.
Qed.

Lemma squash_blank_single s : forall b, singleSpaced (squash [SP] b s) = true.
Proof.
  induction s as [|c s IH]; intros b; cbn [squash]; [reflexivity|].
  destruct (is_space c) eqn:E.
  - destruct b; cbn [app]; [apply IH|].
    rewrite singleSpaced_cons, squash_blank_head, andb_false_r, IH. reflexivity.
  - rewrite singleSpaced_cons, E, IH. reflexivity.
Qed.

Lemma squash_nothing s : forall b, squash [] b s = filter (fun c => negb (is_space c)) s.
Proof.
  induction s as [|c s IH]; intros b; cbn [squash filter]; [reflexivity|].
  destruct (is_space c); cbn [negb].
  - destruct b; cbn [app]; apply IH.
  - f_equal. apply IH.
Qed.

(** Facts about [trim]. *)

Lemma trimStart_head s : headIsSpace (trimStart s) = false.
Proof.
  induction s as [|c s IH]; [reflexivity|]. cbn [trimStart].
  destruct (is_space c) eqn:E; [exact IH|]. cbn [headIsSpace]. exact E.
Qed.

Lemma trimStart_suffix s : exists pre, s = pre ++ trimStart s.
Proof.
  induction s as [|c s IH]; [exists []; reflexivity|]. cbn [trimStart].
  destruct (is_space c).
  - destruct IH as [pre E]. exists (c :: pre). cbn [app]. f_equal. exact E.
  - exists []. reflexivity.
Qed.

Lemma trimEnd_prefix s : exists post, s = trimEnd s ++ post.
Proof.
  unfold trimEnd. destruct (trimStart_suffix (rev s)) as [pre E].
  exists (rev pre). apply (f_equal (@rev N)) in E.
  rewrite rev_involutive, rev_app_distr in E. exact E.
Qed.

Lemma trimEnd_last s : headIsSpace (rev (trimEnd s)) = false.
Proof. unfold trimEnd. rewrite rev_involutive. apply trimStart_head. Qed.

Lemma trimStart_app_nonspace s c t :
  is_space c = false -> trimStart (s ++ c :: t) = trimStart s ++ c :: t.
Proof.
  intros H. induction s as [|d s IH]; cbn [app trimStart].
  - rewrite H. reflexivity.
  - destruct (is_space d); [exact IH | reflexivity].
Qed.

Lemma trimEnd_head s : headIsSpace s = false -> headIsSpace (trimEnd s) = false.
Proof.
  destruct s as [|c s]; [reflexivity|]. cbn [headIsSpace]. intros H.
  unfold trimEnd. cbn [rev].
  replace (rev s ++ [c]) with (rev s ++ c :: []) by reflexivity.
  rewrite trimStart_app_nonspace by exact H.
  rewrite rev_app_distr. cbn [rev app headIsSpace]. exact H.
Qed.

Lemma singleSpaced_app_l s t : singleSpaced (s ++ t) = true -> singleSpaced s = true.
Proof.
  induction s as [|c s IH]; [reflexivity|]. cbn [app].
  rewrite !singleSpaced_cons. intros H.
  apply andb_true_iff in H as [H1 H2]. rewrite (IH H2), andb_true_r.
  destruct s as [|d s]; [cbn [headIsSpace]; rewrite andb_false_r; reflexivity|].
  exact H1.
Qed.

Lemma singleSpaced_app_r s t : singleSpaced (s ++ t) = true -> singleSpaced t = true.
Proof.
  induction s as [|c s IH]; [trivial|]. cbn [app].
  rewrite singleSpaced_cons. intros H.
  apply andb_true_iff in H as [_ H]. exact (IH H).
Qed.

Lemma trim_spaceNormal s :
  Forall (fun c => is_space c = true -> c = SP) s ->
  singleSpaced s = true ->
  spaceNormal (trim s).
Proof.
  intros Hc Hs. unfold trim.
  destruct (trimStart_suffix s) as [pre E1].
  destruct (trimEnd_prefix (trimStart s)) as [post E2].
  assert (E : s = pre ++ trimEnd (trimStart s) ++ post) by congruence.
  split; [|split; [|split]].
  - rewrite E in Hc. apply Forall_app in Hc as [_ Hc].
    apply Forall_app in Hc as [Hc _]. exact Hc.
  - rewrite E in Hs. apply singleSpaced_app_r in Hs.
    apply singleSpaced_app_l in Hs. exact Hs.
  - apply trimEnd_head. apply trimStart_head.
  - apply trimEnd_last.
Qed.

(** X13: the text [stripHtml] returns is in white space normal form, whatever
    the markup: it holds no white space other than the blank (no line feed,
    tab or no-break space), no two blanks in a row, and none at its start or
    end. *)
Theorem stripHtml_is_space_normal (html : jsstr) : spaceNormal (stripHtml html).
Proof.
  unfold stripHtml. cbv zeta. rewrite replaceAll_spaces.
  apply trim_spaceNormal.
  - apply squash_blank_chars.
  - apply squash_blank_single.
Qed.

Lemma cap_length n s : strlen (cap n s) <= n.
Proof.
  unfold cap, strlen. destruct (n <? List.length s) eqn:E.
  - unfold substring. rewrite Nat.sub_0_r. apply firstn_le_length.
  - apply Nat.ltb_ge in E. exact E.
Qed.

Lemma cap_length_ge n s k : k <= n -> k <= strlen s -> k <= strlen (cap n s).
Proof.
  unfold cap, strlen. intros Hn Hs. destruct (n <? List.length s) eqn:E; [|exact Hs].
  apply Nat.ltb_lt in E. unfold substring. rewrite Nat.sub_0_r. cbn [skipn].
  rewrite length_firstn. lia.
Qed.

Lemma substring0_length n s : strlen (substring 0 n s) = Nat.min n (strlen s).
Proof.
  unfold substring, strlen. rewrite Nat.sub_0_r. cbn [skipn]. apply length_firstn.
Qed.

Lemma digits_fuel_nonspace fuel : forall n acc,
  spaceFree acc -> spaceFree (digits_fuel fuel n acc).
Proof.
  induction fuel as [|fuel IH]; intros n acc H; cbn [digits_fuel]; [exact H|].
  assert (Hd : is_space (48 + N.of_nat (n mod 10)) = false).
  { pose proof (Nat.mod_upper_bound n 10).
    assert (Hlt : n mod 10 < 10) by lia.
    destruct (n mod 10) as [|[|[|[|[|[|[|[|[|[|k]]]]]]]]]]; try reflexivity. lia. }
  destruct (n <? 10).
  - constructor; assumption.
  - apply IH. constructor; assumption.
Qed.

Lemma showNat_nonspace n : spaceFree (showNat n).
Proof. unfold showNat. apply digits_fuel_nonspace. constructor. Qed.

Lemma normalizeArticleRef_spaceFree raw : spaceFree (normalizeArticleRef raw).
Proof.
  unfold normalizeArticleRef. cbv zeta. rewrite replaceAll_spaces, squash_nothing.
  set (body := filter (fun c => negb (is_space c)) _).
  assert (Hb : spaceFree body).
  { unfold body, spaceFree. apply Forall_forall. intros c Hc.
    apply filter_In in Hc as [_ Hc]. apply negb_true_iff in Hc. exact Hc. }
  destruct (startsWith (js "art") body); [exact Hb|].
  apply Forall_app. split; [|exact Hb].
  repeat (constructor; [reflexivity|]). constructor.
Qed.

Lemma transKey_spaceFree i : spaceFree (js "trans" ++ showNat (i + 1)).
Proof.
  apply Forall_app. split; [|apply showNat_nonspace].
  repeat (constructor; [reflexivity|]). constructor.
Qed.

Lemma orUndefined_some s c : orUndefined s = Some c -> c = s /\ 1 <= strlen s.
Proof.
  destruct s as [|x s]; [discriminate|]. intros H. injection H as <-.
  split; [reflexivity | simpl; lia].
Qed.

Lemma indexed_In {A} (l : list A) i x : In (i, x) (indexed l) -> In x l /\ i < List.length l.
Proof.
  unfold indexed. intros H. split.
  - apply in_combine_r in H. exact H.
  - apply in_combine_l in H. apply in_seq in H. lia.
Qed.

(** The chapter context of the scan never exceeds 200 code units. *)
Lemma headerLabel_length l c : headerLabel l = Some c -> strlen c <= 200.
Proof.
  unfold headerLabel. destruct (exec true Pat.chapterRe l); [|discriminate].
  intros H. injection H as <-. apply cap_length.
Qed.

Lemma scanLine_chapters i l st :
  strlen (currentChapter st) <= 200 ->
  Forall (fun b => strlen (ArticleBlock.chapter b) <= 200) (articleBlocks st) ->
  strlen (currentChapter (scanLine i l st)) <= 200 /\
  Forall (fun b => strlen (ArticleBlock.chapter b) <= 200)
         (articleBlocks (scanLine i l st)).
Proof.
  intros Hc Hb. unfold scanLine.
  destruct (headerLabel l) as [c|] eqn:E.
  - cbn [currentChapter articleBlocks]. split; [|exact Hb].
    apply (@headerLabel_length l c E).
  - destruct (test true Pat.transitoryRe l); [split; assumption|].
    destruct (transitoryStart st); [split; assumption|].
    destruct (articleLabel l); [|split; assumption].
    cbn [currentChapter articleBlocks]. split; [exact Hc|].
    apply Forall_app. split; [exact Hb|]. constructor; [exact Hc | constructor].
Qed.

Lemma scanLines_chapters ls : forall i st,
  strlen (currentChapter st) <= 200 ->
  Forall (fun b => strlen (ArticleBlock.chapter b) <= 200) (articleBlocks st) ->
  Forall (fun b => strlen (ArticleBlock.chapter b) <= 200)
         (articleBlocks (scanLines i ls st)).
Proof.
  induction ls as [|l ls IH]; intros i st Hc Hb; cbn [scanLines]; [exact Hb|].
  destruct (@scanLine_chapters i l st Hc Hb) as [Hc' Hb']. apply IH; assumption.
Qed.

Lemma articleOfBlock_limits lines blocks ts i b p ds :
  strlen (ArticleBlock.chapter b) <= 200 ->
  articleOfBlock lines blocks ts i b = Some (p, ds) ->
  withinLimits p /\ strlen (ParsedProvision.title p) <= 120.
Proof.
  intros Hb. unfold articleOfBlock. cbv zeta.
  destruct (strlen (articleText lines blocks ts i b) <? 15) eqn:E; [discriminate|].
  apply Nat.ltb_ge in E. intros H. injection H as <- _.
  unfold withinLimits.
  cbn [ParsedProvision.content ParsedProvision.chapter ParsedProvision.title
       ParsedProvision.provision_ref].
  split; [split; [split|split]|].
  - exact E.
  - unfold articleText. cbv zeta. apply cap_length.
  - intros c Hc. apply orUndefined_some in Hc as [-> Hc]. lia.
  - apply normalizeArticleRef_spaceFree.
  - unfold articleTitle. destruct (exec true (Pat.titleRe true) _).
    + apply cap_length.
    + simpl. lia.
Qed.

Lemma transitoryOfPosition_shape lines positions i pos p :
  i < 20 ->
  transitoryOfPosition lines positions i pos = Some p ->
  withinLimits p /\ transitoryShape p /\
  ParsedProvision.title p = TransPosition.label pos.
Proof.
  intros Hi. unfold transitoryOfPosition. cbv zeta.
  destruct (strlen (transitoryContent lines positions i pos) <? 15) eqn:E;
    [discriminate|].
  apply Nat.ltb_ge in E. intros H. injection H as <-.
  unfold withinLimits, transitoryShape.
  cbn [ParsedProvision.content ParsedProvision.chapter ParsedProvision.title
       ParsedProvision.provision_ref ParsedProvision.section].
  split; [|split; [|reflexivity]].
  - rewrite substring0_length. split; [split|split].
    + apply Nat.min_glb; [apply Nat.leb_le; reflexivity | exact E].
    + apply Nat.le_min_l.
    + intros c Hc. injection Hc as <-. vm_compute. lia.
    + apply transKey_spaceFree.
  - exists i. repeat split. exact Hi.
Qed.

Lemma firstn_indexed_In {A} n (l : list A) i x :
  In (i, x) (firstn n (indexed l)) -> i < n /\ In x l.
Proof.
  unfold indexed. intros H. split.
  - assert (Hf : In i (map fst (firstn n (combine (seq 0 (List.length l)) l))))
      by (apply in_map_iff; exists (i, x); split; [reflexivity | exact H]).
    fold (indexed l) in Hf. rewrite firstn_indexed_fst in Hf.
    apply in_seq in Hf. lia.
  - assert (Hin : In (i, x) (combine (seq 0 (List.length l)) l)).
    { rewrite <- (firstn_skipn n). apply in_or_app. left. exact H. }
    apply in_combine_r in Hin. exact Hin.
Qed.

Lemma transitoryPositions_labels lines q :
  In q (transitoryPositions lines) -> strlen (TransPosition.label q) <= 80.
Proof.
  unfold transitoryPositions. intros H. apply somes_In in H as ([i l] & _ & H).
  cbn [fst snd] in H. destruct (test true Pat.transRe l); [|discriminate].
  injection H as <-. cbn [TransPosition.label]. rewrite substring0_length. lia.
Qed.

Lemma regular_limits text p :
  In p (fst (extractArticlesFromText text)) ->
  withinLimits p /\ strlen (ParsedProvision.title p) <= 120.
Proof.
  unfold extractArticlesFromText. cbv zeta. cbn [fst]. intros H.
  apply in_map_iff in H as ([p' ds] & Hp & H). cbn [fst] in Hp. subst p'.
  apply somes_In in H as ([i b] & Hin & H). cbn [fst snd] in H.
  apply indexed_In in Hin as [Hin _].
  assert (Hb : strlen (ArticleBlock.chapter b) <= 200).
  { pose proof (@scanLines_chapters (split_nl text) 0 (ScanState [] [] None)) as Hs.
    cbn [currentChapter articleBlocks] in Hs.
    specialize (Hs (Nat.le_0_l _) (Forall_nil _)).
    rewrite Forall_forall in Hs. apply Hs. exact Hin. }
  apply (@articleOfBlock_limits _ _ _ _ _ _ _ Hb H).
Qed.

Lemma transitory_limits text p :
  In p (extractTransitoryFromText text) ->
  withinLimits p /\ transitoryShape p /\ strlen (ParsedProvision.title p) <= 80.
Proof.
  unfold extractTransitoryFromText.
  destruct (search true Pat.transitorySectionRe text) as [idx|]; [|intros []].
  cbv zeta. intros H. apply somes_In in H as ([i q] & Hin & H).
  cbn [fst snd] in H. apply firstn_indexed_In in Hin as [Hi Hq].
  destruct (@transitoryOfPosition_shape _ _ _ _ _ Hi H) as (H1 & H2 & H3).
  split; [exact H1|]. split; [exact H2|]. rewrite H3.
  apply (@transitoryPositions_labels _ _ Hq).
Qed.

Lemma transitory_count text : List.length (extractTransitoryFromText text) <= 20.
Proof.
  unfold extractTransitoryFromText.
  destruct (search true Pat.transitorySectionRe text) as [idx|]; [|simpl; lia].
  cbv zeta.
  set (f := fun ip => transitoryOfPosition _ _ (fst ip) (snd ip)).
  set (l := firstn 20 _).
  assert (Hl : List.length l <= 20) by apply firstn_le_length.
  clearbody l. clear -Hl.
  assert (Hs : forall l', List.length (somes (map f l')) <= List.length l').
  { induction l' as [|x l' IH]; [simpl; lia|]. cbn [map somes].
    destruct (f x); cbn [List.length]; lia. }
  specialize (Hs l). lia.
Qed.

(** The markup path. *)

Lemma htmlChapterPositions_labels html ch :
  In ch (htmlChapterPositions html) -> strlen (Position.label ch) <= 200.
Proof.
  unfold htmlChapterPositions. intros H. apply somes_In in H as (m & _ & H).
  cbv zeta in H.
  destruct (0 <? strlen (trim (stripHtml (whole html m)))); [|discriminate].
  destruct (strlen (trim (stripHtml (whole html m))) <? 200) eqn:E;
    [|discriminate].
  cbn [andb] in H. injection H as <-. cbn [Position.label].
  apply Nat.ltb_lt in E. lia.
Qed.

Lemma chapterBefore_length chapters pos : forall cur,
  Forall (fun ch => strlen (Position.label ch) <= 200) chapters ->
  strlen cur <= 200 ->
  strlen (chapterBefore chapters pos cur) <= 200.
Proof.
  unfold chapterBefore.
  induction chapters as [|ch chapters IH]; intros cur Hc Hcur; cbn [fold_left];
    [exact Hcur|].
  inversion Hc as [|? ? H1 H2]; subst. apply IH; [exact H2|].
  destruct (Position.pos ch <? pos); assumption.
Qed.

Lemma htmlArticle_limits html articles chapters cur i a cur' p ds :
  Forall (fun ch => strlen (Position.label ch) <= 200) chapters ->
  strlen cur <= 200 ->
  htmlArticle html articles chapters cur i a = (cur', Some (p, ds)) ->
  withinLimits p /\ strlen (ParsedProvision.title p) <= 120.
Proof.
  intros Hc Hcur. unfold htmlArticle. cbv zeta.
  match goal with
  | |- context [if ?c then _ else _] => destruct c eqn:E
  end; [discriminate|].
  apply Nat.ltb_ge in E. intros H. injection H as _ <- _.
  unfold withinLimits.
  cbn [ParsedProvision.content ParsedProvision.chapter ParsedProvision.title
       ParsedProvision.provision_ref].
  split; [split; [split|split]|].
  - exact E.
  - apply cap_length.
  - intros c Hch. apply orUndefined_some in Hch as [-> Hch]. split; [exact Hch|].
    apply chapterBefore_length; assumption.
  - apply normalizeArticleRef_spaceFree.
  - unfold articleTitle. destruct (exec true (Pat.titleRe false) _).
    + apply cap_length.
    + simpl. lia.
Qed.

Lemma htmlArticle_chapter html articles chapters cur i a :
  fst (htmlArticle html articles chapters cur i a)
  = chapterBefore chapters (Position.pos a) cur.
Proof.
  unfold htmlArticle. cbv zeta.
  match goal with
  | |- context [if ?c then _ else _] => destruct c
  end; reflexivity.
Qed.

Lemma htmlArticles_In html articles chapters :
  Forall (fun ch => strlen (Position.label ch) <= 200) chapters ->
  forall todo cur p ds,
    strlen cur <= 200 ->
    In (p, ds) (htmlArticles html articles chapters cur todo) ->
    withinLimits p /\ strlen (ParsedProvision.title p) <= 120 /\
    ds = extractDefinitions (ParsedProvision.content p)
           (ParsedProvision.provision_ref p).
Proof.
  intros Hc. induction todo as [|[i a] todo IH]; intros cur p ds Hcur H;
    cbn [htmlArticles] in H; [destruct H|].
  pose proof (htmlArticle_chapter html articles chapters cur i a) as Hch.
  destruct (htmlArticle html articles chapters cur i a) as [cur' out] eqn:E.
  cbn [fst] in Hch.
  assert (Hcur' : strlen cur' <= 200)
    by (rewrite Hch; apply chapterBefore_length; assumption).
  destruct out as [[p0 ds0]|].
  - destruct H as [H|H].
    + injection H as -> ->.
      destruct (@htmlArticle_limits _ _ _ _ _ _ _ _ _ Hc Hcur E) as [H1 H2].
      split; [exact H1|]. split; [exact H2|].
      apply (@htmlArticle_definitions _ _ _ _ _ _ _ _ _ E).
    + apply (IH cur' p ds Hcur' H).
  - apply (IH cur' p ds Hcur' H).
Qed.

Lemma extractArticles_out html :
  exists out,
    extractArticles html = (map fst out, List.concat (map snd out)) /\
    forall p ds, In (p, ds) out ->
      withinLimits p /\ strlen (ParsedProvision.title p) <= 120 /\
      ds = extractDefinitions (ParsedProvision.content p)
             (ParsedProvision.provision_ref p).
Proof.
  unfold extractArticles. cbv zeta.
  destruct (htmlArticlePositions html) as [|a0 rest] eqn:E.
  - exists []. split; [reflexivity|]. intros p ds [].
  - eexists. split; [reflexivity|]. intros p ds H.
    apply (@htmlArticles_In html (a0 :: rest) (htmlChapterPositions html))
      with (todo := indexed (a0 :: rest)) (cur := []).
    + apply Forall_forall. intros ch. apply htmlChapterPositions_labels.
    + simpl. lia.
    + exact H.
Qed.

Lemma htmlTransitory_shape transitoryHtml positions i q p :
  i < 20 ->
  htmlTransitory transitoryHtml positions i q = Some p ->
  withinLimits p /\ transitoryShape p.
Proof.
  intros Hi. unfold htmlTransitory. cbv zeta.
  match goal with
  | |- context [if ?c then _ else _] => destruct c eqn:E
  end; [discriminate|].
  apply Nat.ltb_ge in E. intros H. injection H as <-.
  unfold withinLimits, transitoryShape.
  cbn [ParsedProvision.content ParsedProvision.chapter ParsedProvision.title
       ParsedProvision.provision_ref ParsedProvision.section].
  split.
  - rewrite substring0_length. split; [split|split].
    + apply Nat.min_glb; [apply Nat.leb_le; reflexivity | exact E].
    + apply Nat.le_min_l.
    + intros c Hc. injection Hc as <-. vm_compute. lia.
    + apply transKey_spaceFree.
  - exists i. repeat split. exact Hi.
Qed.

Lemma htmlTransitory_limits html p :
  In p (extractTransitoryArticles html) -> withinLimits p /\ transitoryShape p.
Proof.
  unfold extractTransitoryArticles.
  destruct (exec true HtmlPat.transitoryBlockRe html) as [tm|]; [|intros []].
  cbv zeta. intros H. apply somes_In in H as ([i q] & Hin & H).
  cbn [fst snd] in H. apply firstn_indexed_In in Hin as [Hi Hq].
  apply (@htmlTransitory_shape _ _ _ _ _ Hi H).
Qed.

Lemma somes_length {A B} (f : A -> option B) l :
  List.length (somes (map f l)) <= List.length l.
Proof.
  induction l as [|x l IH]; [simpl; lia|]. cbn [map somes].
  destruct (f x); cbn [List.length]; lia.
Qed.

Lemma htmlTransitory_count html : List.length (extractTransitoryArticles html) <= 20.
Proof.
  unfold extractTransitoryArticles.
  destruct (exec true HtmlPat.transitoryBlockRe html) as [tm|]; [|simpl; lia].
  cbv zeta. eapply Nat.le_trans; [apply somes_length|]. apply firstn_le_length.
Qed.

(** Definitions. *)

Lemma definitionOf_fields text ref dm d :
  definitionOf text ref dm = Some d ->
  ParsedDefinition.source_provision d = Some ref /\
  3 <= strlen (ParsedDefinition.term d) <= 99 /\
  exists rest,
    ParsedDefinition.definition d = ParsedDefinition.term d ++ js ": " ++ rest /\
    6 <= strlen rest.
Proof.
  unfold definitionOf. cbv zeta.
  match goal with
  | |- context [if ?c then _ else _] => destruct c eqn:E
  end; [|discriminate].
  apply andb_true_iff in E as [E E3]. apply andb_true_iff in E as [E1 E2].
  apply Nat.ltb_lt in E1, E2, E3.
  intros H. injection H as <-.
  cbn [ParsedDefinition.source_provision ParsedDefinition.term
       ParsedDefinition.definition].
  split; [reflexivity|]. split; [lia|].
  eexists. split; [reflexivity|]. lia.
Qed.

Lemma extractDefinitions_In text ref d :
  In d (extractDefinitions text ref) ->
  test true Pat.definitionCueRe text = true /\
  ParsedDefinition.source_provision d = Some ref /\
  3 <= strlen (ParsedDefinition.term d) <= 99 /\
  exists rest,
    ParsedDefinition.definition d = ParsedDefinition.term d ++ js ": " ++ rest /\
    6 <= strlen rest.
Proof.
  unfold extractDefinitions.
  destruct (test true Pat.definitionCueRe text); [|intros []].
  intros H. apply somes_In in H as (dm & _ & H).
  split; [reflexivity|]. apply (@definitionOf_fields _ _ _ _ H).
Qed.

Lemma concat_snd_In {A B} (out : list (A * list B)) d :
  In d (List.concat (map snd out)) -> exists p ds, In (p, ds) out /\ In d ds.
Proof.
  intros H. apply in_concat in H as (ds & Hds & Hd).
  apply in_map_iff in Hds as ([p ds'] & E & Hin). cbn [snd] in E. subst ds'.
  exists p, ds. split; assumption.
Qed.

Lemma text_definitions_In text d :
  In d (snd (extractArticlesFromText text)) ->
  exists p, In p (fst (extractArticlesFromText text)) /\ definedBy d p.
Proof.
  unfold extractArticlesFromText. cbv zeta. cbn [fst snd]. intros H.
  apply concat_snd_In in H as (p & ds & Hin & Hd).
  exists p. split.
  - apply in_map_iff. exists (p, ds). split; [reflexivity | exact Hin].
  - apply somes_In in Hin as ([i b] & _ & Hin). cbn [fst snd] in Hin.
    rewrite (@articleOfBlock_definitions _ _ _ _ _ _ _ Hin) in Hd.
    apply extractDefinitions_In in Hd. destruct Hd as (H1 & H2 & H3 & H4).
    split; [exact H2|]. split; [exact H1|]. split; [exact H3 | exact H4].
Qed.

Lemma html_definitions_In html d :
  In d (snd (extractArticles html)) ->
  exists p, In p (fst (extractArticles html)) /\ definedBy d p.
Proof.
  destruct (extractArticles_out html) as (out & E & Hout). rewrite E.
  cbn [fst snd]. intros H.
  apply concat_snd_In in H as (p & ds & Hin & Hd).
  exists p. split.
  - apply in_map_iff. exists (p, ds). split; [reflexivity | exact Hin].
  - destruct (Hout p ds Hin) as (_ & _ & Eds). rewrite Eds in Hd.
    apply extractDefinitions_In in Hd. destruct Hd as (H1 & H2 & H3 & H4).
    split; [exact H2|]. split; [exact H1|]. split; [exact H3 | exact H4].
Qed.

Lemma parseMexicanText_parts text law :
  (ParsedLaw.provisions (parseMexicanText text law) = [] /\
   ParsedLaw.definitions (parseMexicanText text law) = []) \/
  (ParsedLaw.provisions (parseMexicanText text law)
   = fst (extractArticlesFromText (cleanPdfText text))
     ++ extractTransitoryFromText (cleanPdfText text) /\
   ParsedLaw.definitions (parseMexicanText text law)
   = snd (extractArticlesFromText (cleanPdfText text))).
Proof.
  unfold parseMexicanText. destruct (strlen text <? 200).
  - left. split; reflexivity.
  - right. cbv zeta.
    destruct (extractArticlesFromText (cleanPdfText text)) as [ps ds].
    split; reflexivity.
Qed.

Lemma parseMexicanHtml_parts html law :
  (ParsedLaw.provisions (parseMexicanHtml html law) = [] /\
   ParsedLaw.definitions (parseMexicanHtml html law) = []) \/
  (ParsedLaw.provisions (parseMexicanHtml html law)
   = fst (extractArticles html) ++ extractTransitoryArticles html /\
   ParsedLaw.definitions (parseMexicanHtml html law) = snd (extractArticles html)).
Proof.
  unfold parseMexicanHtml.
  match goal with
  | |- context [if ?c then _ else _] => destruct c
  end.
  - left. split; reflexivity.
  - right. cbv zeta. destruct (extractArticles html) as [ps ds].
    split; reflexivity.
Qed.

Lemma startsWith_length p : forall s,
  startsWith p s = true -> strlen p <= strlen s.
Proof.
  induction p as [|x p IH]; intros s H; [simpl; lia|].
  destruct s as [|y s]; [discriminate|]. cbn [startsWith] in H.
  apply andb_true_iff in H as [_ H]. apply IH in H. simpl in *. lia.
Qed.

(** X14: a reference key made by [normalizeArticleRef] starts with "art" and
    holds no white space, whatever the label. *)
Theorem reference_keys_are_compact (raw : jsstr) :
  startsWith (js "art") (normalizeArticleRef raw) = true /\
  spaceFree (normalizeArticleRef raw) /\
  3 <= strlen (normalizeArticleRef raw).
Proof.
  pose proof (normalizeArticleRef_art raw) as H.
  split; [exact H|]. split; [apply normalizeArticleRef_spaceFree|].
  apply startsWith_length in H. exact H.
Qed.

(** X15: every provision either parser returns has a content of 15 to 8000
    code units, a chapter that is absent or has 1 to 200 code units (never
    the empty string), and a key without white space; the titles of the
    plain-text parser have at most 120 code units. *)
Theorem provisions_are_within_limits (body : jsstr) (law : LawIndexEntry.t) :
  Forall (fun p => withinLimits p /\ strlen (ParsedProvision.title p) <= 120)
         (ParsedLaw.provisions (parseMexicanText body law)) /\
  Forall withinLimits (ParsedLaw.provisions (parseMexicanHtml body law)).
Proof.
  split.
  - destruct (parseMexicanText_parts body law) as [[-> _]|[-> _]]; [constructor|].
    apply Forall_app. split; apply Forall_forall; intros p Hp.
    + apply (@regular_limits _ _ Hp).
    + destruct (@transitory_limits _ _ Hp) as (H1 & _ & H3). split; [exact H1|].
      lia.
  - destruct (parseMexicanHtml_parts body law) as [[-> _]|[-> _]]; [constructor|].
    apply Forall_app. split; apply Forall_forall; intros p Hp.
    + destruct (extractArticles_out body) as (out & E & Hout). rewrite E in Hp.
      cbn [fst] in Hp. apply in_map_iff in Hp as ([p' ds] & Ep & Hin).
      cbn [fst] in Ep. subst p'. apply (Hout p ds Hin).
    + apply (@htmlTransitory_limits _ _ Hp).
Qed.

(** X16: both extractors of transitory clauses return at most 20 provisions,
    each filed under the chapter "TRANSITORIOS" with key "trans" + k and
    section "Transitorio " + k for the same k between 1 and 20; the title of
    a plain-text clause has at most 80 code units. *)
Theorem transitory_provisions_shape (body : jsstr) :
  List.length (extractTransitoryFromText body) <= 20 /\
  Forall (fun p => transitoryShape p /\ strlen (ParsedProvision.title p) <= 80)
         (extractTransitoryFromText body) /\
  List.length (extractTransitoryArticles body) <= 20 /\
  Forall transitoryShape (extractTransitoryArticles body).
Proof.
  split; [apply transitory_count|]. split; [|split; [apply htmlTransitory_count|]].
  - apply Forall_forall. intros p Hp.
    destruct (@transitory_limits _ _ Hp) as (_ & H2 & H3). split; assumption.
  - apply Forall_forall. intros p Hp.
    destruct (@htmlTransitory_limits _ _ Hp) as (_ & H2). exact H2.
Qed.

(** X17: every definition either parser returns belongs to a provision of the
    same record: it names that provision's key as its source, the
    provision's content matches a cue phrase, the term has 3 to 99 code
    units and the text is the term, ": " and an explanation of more than 5
    code units. *)
Theorem definitions_belong_to_provisions (body : jsstr) (law : LawIndexEntry.t) :
  Forall (fun d => exists p,
            In p (ParsedLaw.provisions (parseMexicanText body law)) /\
            definedBy d p)
         (ParsedLaw.definitions (parseMexicanText body law)) /\
  Forall (fun d => exists p,
            In p (ParsedLaw.provisions (parseMexicanHtml body law)) /\
            definedBy d p)
         (ParsedLaw.definitions (parseMexicanHtml body law)).
Proof.
  split.
  - destruct (parseMexicanText_parts body law) as [[_ ->]|[-> ->]]; [constructor|].
    apply Forall_forall. intros d Hd.
    destruct (@text_definitions_In _ _ Hd) as (p & Hp & H).
    exists p. split; [apply in_or_app; left; exact Hp | exact H].
  - destruct (parseMexicanHtml_parts body law) as [[_ ->]|[-> ->]]; [constructor|].
    apply Forall_forall. intros d Hd.
    destruct (@html_definitions_In _ _ Hd) as (p & Hp & H).
    exists p. split; [apply in_or_app; left; exact Hp | exact H].
Qed.

(** ** Text normaliser and line scan *)

Lemma squeeze_head s : forall run, countNL (squeeze run s) <= 3 - run.
Proof.
  induction s as [|c s IH]; intros run; cbn [squeeze]; [simpl; lia|].
  destruct (c =? NL)%N eqn:E.
  - destruct (run <? 3) eqn:R.
    + apply Nat.ltb_lt in R. cbn [countNL]. rewrite E.
      specialize (IH (S run)). lia.
    + apply Nat.ltb_ge in R. specialize (IH (S run)). lia.
  - cbn [countNL]. rewrite E. lia.
Qed.

Lemma squeeze_suffix s : forall run pre post,
  squeeze run s = pre ++ post -> countNL post <= 3.
Proof.
  induction s as [|c s IH]; intros run pre post H.
  - cbn [squeeze] in H. symmetry in H. apply app_eq_nil in H as [_ ->].
    simpl. lia.
  - destruct pre as [|x pre].
    + cbn [app] in H. subst post. pose proof (squeeze_head (c :: s) run). lia.
    + cbn [squeeze] in H. destruct (c =? NL)%N.
      * destruct (run <? 3).
        -- cbn [app] in H. injection H as _ H. apply (IH _ _ _ H).
        -- apply (IH (S run) (x :: pre) post H).
      * cbn [app] in H. injection H as _ H. apply (IH _ _ _ H).
Qed.

Lemma nonEmpty_cleanLines ls : nonEmpty (cleanLines ls) = filter keptLine ls.
Proof.
  induction ls as [|l ls IH]; [reflexivity|].
  cbn [cleanLines filter]. unfold cleanLine, keptLine. cbv zeta.
  destruct (strlen (trim l) =? 0) eqn:E.
  - cbn [negb andb]. unfold nonEmpty in *. cbn [filter isEmpty negb]. exact IH.
  - cbn [negb andb]. destruct (skipLine (trim l)); cbn [negb]; [exact IH|].
    unfold nonEmpty in *. cbn [filter].
    destruct l as [|x l]; [discriminate|]. cbn [isEmpty negb]. f_equal. exact IH.
Qed.

Lemma filter_filter {A} (f g : A -> bool) l :
  filter f (filter g l) = filter (fun x => g x && f x) l.
Proof.
  induction l as [|x l IH]; [reflexivity|]. cbn [filter].
  destruct (g x); cbn [filter andb]; [destruct (f x); [f_equal|]; exact IH | exact IH].
Qed.

Lemma fold_drop_lines counts : forall result,
  nonEmpty (split_nl (fold_left dropRepeated counts result))
  = filter (fun l => negb (dropped counts l)) (nonEmpty (split_nl result)).
Proof.
  induction counts as [|[k c] counts IH]; intros result; cbn [fold_left].
  - unfold dropped. cbn [existsb negb].
    induction (nonEmpty (split_nl result)) as [|l ls IHl]; [reflexivity|].
    cbn [filter]. f_equal. exact IHl.
  - rewrite IH, dropRepeated_lines. unfold dropped. cbn [existsb fst snd].
    destruct (5 <=? c); cbn [andb orb].
    + rewrite filter_filter. apply filter_ext. intros l. unfold keepOther.
      destruct (str_eqb (trim l) k); reflexivity.
    + reflexivity.
Qed.

Lemma dropped_running ls l :
  dropped (countCapsLines ls) l = runningTitle ls l.
Proof.
  unfold runningTitle. destruct (5 <=? cnt (trim l) ls) eqn:E.
  - apply Nat.leb_le in E.
    destruct (@countCapsLines_booked ls (trim l) E) as (c & Hin & Hc).
    unfold dropped. apply existsb_exists. exists (trim l, c). split; [exact Hin|].
    cbn [fst snd]. rewrite str_eqb_refl.
    replace (5 <=? c) with true by (symmetry; apply Nat.leb_le; exact Hc).
    reflexivity.
  - apply Nat.leb_gt in E. unfold dropped.
    destruct (existsb _ (countCapsLines ls)) eqn:X; [|reflexivity].
    apply existsb_exists in X as ([k c] & Hin & H). cbn [fst snd] in H.
    apply andb_true_iff in H as [H1 H2]. apply Nat.leb_le in H1.
    apply str_eqb_eq in H2. subst k.
    pose proof (@countCapsLines_bound ls (trim l) c Hin). lia.
Qed.

Lemma hd_split_nlFree ls : Forall nlFree (cleanLines (split_nl ls)).
Proof. apply cleanLines_nlFree. apply split_nlFree. Qed.

Lemma scanLines_app pre : forall i post st,
  scanLines i (pre ++ post) st
  = scanLines (i + List.length pre) post (scanLines i pre st).
Proof.
  induction pre as [|l pre IH]; intros i post st; cbn [app scanLines List.length].
  - rewrite Nat.add_0_r. reflexivity.
  - rewrite IH. f_equal. lia.
Qed.

Lemma scanLine_closed i l st t :
  transitoryStart st = Some t ->
  articleBlocks (scanLine i l st) = articleBlocks st /\
  transitoryStart (scanLine i l st)
  = Some (if transitoryMarker l then i else t).
Proof.
  intros H. unfold scanLine, transitoryMarker.
  destruct (headerLabel l); [split; [reflexivity | exact H]|].
  destruct (test true Pat.transitoryRe l); [split; reflexivity|].
  rewrite H. split; [reflexivity | exact H].
Qed.

Lemma scanLines_closed ls : forall i st t,
  transitoryStart st = Some t ->
  articleBlocks (scanLines i ls st) = articleBlocks st /\
  (Forall (fun l => transitoryMarker l = false) ls ->
   transitoryStart (scanLines i ls st) = Some t).
Proof.
  induction ls as [|l ls IH]; intros i st t H; cbn [scanLines].
  - split; [reflexivity | intros _; exact H].
  - destruct (@scanLine_closed i l st t H) as [Hb Ht].
    destruct (IH (S i) (scanLine i l st) _ Ht) as [Hb' Ht'].
    split; [congruence|]. intros Hno. inversion Hno as [|? ? H1 H2]; subst.
    rewrite H1 in Ht'. apply Ht'. exact H2.
Qed.

Lemma scanLine_marker i l st :
  transitoryMarker l = true ->
  articleBlocks (scanLine i l st) = articleBlocks st /\
  transitoryStart (scanLine i l st) = Some i.
Proof.
  unfold transitoryMarker, scanLine.
  destruct (headerLabel l); [discriminate|]. intros ->. split; reflexivity.
Qed.

(** X18: the text [cleanPdfText] returns never holds four line feeds in a
    row. *)
Theorem cleanPdfText_has_no_long_blank_run (t pre post : jsstr) :
  cleanPdfText t = pre ++ post -> countNL post <= 3.
Proof.
  unfold cleanPdfText. cbv zeta. rewrite collapse_squeeze.
  apply squeeze_suffix.
Qed.

Lemma cleanPdfText_has_no_long_blank_run_witness :
  countNL [NL; NL; NL; 98%N] <= 3.
Proof.
  apply (@cleanPdfText_has_no_long_blank_run
           [97; NL; NL; NL; NL; NL; 98]%N [97]%N [NL; NL; NL; 98%N]).
  vm_compute. reflexivity.
Defined.

(** X19: the non-empty lines of the text [cleanPdfText] returns are exactly,
    in order and unchanged, the lines of the input that are not blank, not
    page artefacts, and not running titles (upper-case lines of more than
    20 code units of which at least five, with the same trimmed text, are
    among the kept lines). *)
Theorem cleanPdfText_keeps_exactly (t : jsstr) :
  let kept := filter keptLine (split_nl t) in
  nonEmpty (split_nl (cleanPdfText t))
  = filter (fun l => negb (runningTitle kept l)) kept.
Proof.
  cbv zeta. unfold cleanPdfText. cbv zeta. rewrite collapse_squeeze.
  destruct (squeeze_lines
              (fold_left dropRepeated (countCapsLines (cleanLines (split_nl t)))
                 (join_nl (cleanLines (split_nl t)))) 0) as [-> _].
  rewrite fold_drop_lines.
  rewrite (@nonEmpty_split_join _ (hd_split_nlFree t)).
  rewrite nonEmpty_cleanLines.
  apply filter_ext. intros l. rewrite dropped_running.
  unfold runningTitle.
  rewrite <- (cnt_nonEmpty (trim l) (cleanLines (split_nl t))).
  rewrite nonEmpty_cleanLines. reflexivity.
Qed.

(** X20: the line scan finds no article after a marker line of the
    transitory section (the blocks of a text are those of the part before
    any such line), and the index it keeps for the section is that of the
    last marker line, not of the first. *)
Theorem article_region_ends_at_marker (pre post : list jsstr) (l : jsstr) :
  transitoryMarker l = true ->
  articleBlocks (scanLines 0 (pre ++ l :: post) scanStart)
  = articleBlocks (scanLines 0 pre scanStart) /\
  (Forall (fun x => transitoryMarker x = false) post ->
   transitoryStart (scanLines 0 (pre ++ l :: post) scanStart)
   = Some (List.length pre)).
Proof.
  intros Hl. rewrite scanLines_app. cbn [scanLines Nat.add].
  destruct (@scanLine_marker (List.length pre) l (scanLines 0 pre scanStart) Hl)
    as [Hb Ht].
  destruct (@scanLines_closed post (S (List.length pre))
              (scanLine (List.length pre) l (scanLines 0 pre scanStart))
              (List.length pre) Ht) as [Hb' Ht'].
  split; [congruence | exact Ht'].
Qed.

Lemma article_region_ends_at_marker_witness :
  let pre := [js "Artículo 1.- Objeto."] in
  let l := js "TRANSITORIOS" in
  let post := [js "Artículo 2.- Vigencia."; js "PRIMERO.- Entra en vigor."] in
  articleBlocks (scanLines 0 (pre ++ l :: post) scanStart)
  = articleBlocks (scanLines 0 pre scanStart) /\
  (Forall (fun x => transitoryMarker x = false) post ->
   transitoryStart (scanLines 0 (pre ++ l :: post) scanStart)
   = Some (List.length pre)).
Proof.
  intros pre l post.
  apply (@article_region_ends_at_marker pre post l).
  vm_compute. reflexivity.
Defined.

(** ** Document assembler: books and caches *)

Lemma accounted_nil b s : accounted b [] [] s s.
Proof.
  unfold accounted. cbn [map List.length list_sum fold_right].
  rewrite app_nil_r, !Nat.add_0_r. repeat split; try lia.
  destruct b; lia.
Qed.

Lemma accounted_cons b law laws row rows s s1 s' :
  accounted b [law] [row] s s1 -> accounted b laws rows s1 s' ->
  accounted b (law :: laws) (row :: rows) s s'.
Proof.
  unfold accounted. cbn [map List.length list_sum fold_right].
  intros (A1 & A2 & A3 & A4 & A5 & A6 & A7 & A8 & A9)
         (B1 & B2 & B3 & B4 & B5 & B6 & B7 & B8 & B9).
  rewrite B1, A1, <- app_assoc. cbn [app].
  injection A2 as A2. rewrite A2, B2. unfold list_sum in *.
  repeat split; try lia.
  destruct b; lia.
Qed.

Lemma writeFallback_books law status isError s :
  let s' := countProcessed (writeFallback law status isError s) in
  exists row,
    report s' = report s ++ [row] /\
    ReportRow.law row = LawIndexEntry.shortName law /\
    ReportRow.provisions row = 1 /\ ReportRow.definitions row = 0 /\
    processed s' = S (processed s) /\
    totalProvisions s' = totalProvisions s + 1 /\
    totalDefinitions s' = totalDefinitions s /\
    failed s' = (if isError then S (failed s) else failed s) /\
    fallbacks s' = S (fallbacks s) /\ skipped s' = skipped s /\
    world s' = world s /\ sourceDir s' = sourceDir s /\
    seedDir s' = writeFile (seedDir s) (seedFile law) (createFallbackSeed law).
Proof.
  cbv zeta. eexists. unfold countProcessed, writeFallback. cbv zeta.
  cbn [report processed totalProvisions totalDefinitions failed fallbacks
       skipped world sourceDir seedDir].
  split; [reflexivity|]. repeat split.
Qed.

Lemma parseAndWrite_books law html s :
  let s' := countProcessed (parseAndWrite law html s) in
  exists row,
    report s' = report s ++ [row] /\
    ReportRow.law row = LawIndexEntry.shortName law /\
    processed s' = S (processed s) /\
    totalProvisions s' = totalProvisions s + ReportRow.provisions row /\
    totalDefinitions s' = totalDefinitions s + ReportRow.definitions row /\
    failed s' = failed s /\
    fallbacks s <= fallbacks s' <= S (fallbacks s) /\ skipped s' = skipped s /\
    world s' = world s /\ sourceDir s' = sourceDir s.
Proof.
  cbv zeta. unfold parseAndWrite. cbv zeta.
  destruct (List.length (ParsedLaw.provisions (parseMexicanHtml html law)) =? 0).
  - destruct (writeFallback_books law (js "parse-empty (fallback)") false s)
      as (row & H1 & H2 & H3 & H4 & H5 & H6 & H7 & H8 & H9 & H10 & H11 & H12 & _).
    exists row. rewrite H1, H3, H4, H5, H6, H7, H8, H9, H10, H11, H12.
    repeat split; try lia. exact H2.
  - eexists. unfold countProcessed, writeParsed. cbv zeta.
    cbn [report processed totalProvisions totalDefinitions failed fallbacks
         skipped world sourceDir seedDir].
    split; [reflexivity|].
    cbn [ReportRow.law ReportRow.provisions ReportRow.definitions].
    repeat split; lia.
Qed.

Lemma processLaw_accounted server skipFetch s law s' :
  processLaw server skipFetch s law = Some s' ->
  exists row, accounted skipFetch [law] [row] s s'.
Proof.
  unfold processLaw.
  destruct (if skipFetch then seedDir s (seedFile law) else None)
    as [existing|] eqn:Eseed.
  { cbv zeta. intros H. injection H as <-. eexists. unfold accounted.
    cbn [report processed totalProvisions totalDefinitions failed fallbacks
         skipped map List.length list_sum fold_right ReportRow.law
         ReportRow.provisions ReportRow.definitions].
    destruct skipFetch; [|discriminate].
    split; [reflexivity|].
    cbn [map List.length list_sum fold_right ReportRow.law
         ReportRow.provisions ReportRow.definitions].
    repeat split; lia. }
  assert (Hpw : forall html s0,
             skipped s0 = skipped s -> report s0 = report s ->
             processed s0 = processed s -> totalProvisions s0 = totalProvisions s ->
             totalDefinitions s0 = totalDefinitions s -> failed s0 = failed s ->
             fallbacks s0 = fallbacks s ->
             exists row,
               accounted skipFetch [law] [row] s
                 (countProcessed (parseAndWrite law html s0))).
  { intros html s0 E1 E2 E3 E4 E5 E6 E7.
    destruct (parseAndWrite_books law html s0)
      as (row & H1 & H2 & H3 & H4 & H5 & H6 & H7 & H8 & _).
    exists row. unfold accounted.
    cbn [map List.length list_sum fold_right].
    rewrite H1, H3, H4, H5, H6, H8, E1, E2, E3, E4, E5, E6. rewrite H2.
    repeat split; try lia. destruct skipFetch; lia. }
  assert (Hfb : forall status isError s0,
             skipped s0 = skipped s -> report s0 = report s ->
             processed s0 = processed s -> totalProvisions s0 = totalProvisions s ->
             totalDefinitions s0 = totalDefinitions s -> failed s0 = failed s ->
             fallbacks s0 = fallbacks s ->
             exists row,
               accounted skipFetch [law] [row] s
                 (countProcessed (writeFallback law status isError s0))).
  { intros status isError s0 E1 E2 E3 E4 E5 E6 E7.
    destruct (writeFallback_books law status isError s0)
      as (row & H1 & H2 & H3 & H4 & H5 & H6 & H7 & H8 & H9 & H10 & _).
    exists row. unfold accounted.
    cbn [map List.length list_sum fold_right].
    rewrite H1, H3, H4, H5, H6, H7, H8, H9, H10, E1, E2, E3, E4, E5, E6, E7.
    rewrite H2. repeat split; try lia; destruct isError; try lia;
      destruct skipFetch; lia. }
  destruct (if skipFetch then sourceDir s (sourceFile law) else None)
    as [html|] eqn:Esrc.
  { intros H. injection H as <-. apply Hpw; reflexivity. }
  destruct (fetchLawHtml server (LawIndexEntry.code law) (world s))
    as [[result|msg|] w]; [| |discriminate].
  - cbv zeta. destruct (negb (FetchResult.status result =? 200)).
    + intros H. injection H as <-. apply Hfb; reflexivity.
    + intros H. injection H as <-. apply Hpw; reflexivity.
  - intros H. injection H as <-. apply Hfb; reflexivity.
Qed.

Lemma fetchAndParseLaws_accounted server skipFetch : forall laws s s',
  fetchAndParseLaws server skipFetch laws s = Some s' ->
  exists rows, accounted skipFetch laws rows s s'.
Proof.
  induction laws as [|law laws IH]; intros s s' H; cbn [fetchAndParseLaws] in H.
  - injection H as <-. exists []. apply accounted_nil.
  - destruct (processLaw server skipFetch s law) as [s1|] eqn:E; [|discriminate].
    destruct (@processLaw_accounted server skipFetch s law s1 E) as [row Hrow].
    destruct (IH s1 s' H) as [rows Hrows].
    exists (row :: rows). apply (@accounted_cons _ _ _ _ _ _ _ _ Hrow Hrows).
Qed.

(** X21: when the run over [laws] comes to its end, the report has one row
    per law, in the order of the list and under the law's short name; the
    counters agree with it: [processed] is the number of laws, the two
    totals are the sums of the rows, no law counts as failed without
    counting as fallback, no law counts both as fallback and as cached, and
    nothing counts as cached unless [--skip-fetch] is given. *)
Theorem report_accounts_for_every_law (server : Server) (skipFetch : bool)
    (laws : list LawIndexEntry.t) (t0 : Z) (seeds : Dir ParsedLaw.t)
    (sources : Dir jsstr) (s' : Ingest) :
  fetchAndParseLaws server skipFetch laws (initialIngest t0 seeds sources)
  = Some s' ->
  map ReportRow.law (report s') = map LawIndexEntry.shortName laws /\
  processed s' = List.length laws /\
  totalProvisions s' = list_sum (map ReportRow.provisions (report s')) /\
  totalDefinitions s' = list_sum (map ReportRow.definitions (report s')) /\
  failed s' <= fallbacks s' /\
  fallbacks s' + skipped s' <= processed s' /\
  (if skipFetch then True else skipped s' = 0).
Proof.
  intros H. apply fetchAndParseLaws_accounted in H as [rows H].
  unfold accounted, initialIngest in H.
  cbn [report processed totalProvisions totalDefinitions failed fallbacks
       skipped] in H.
  destruct H as (H1 & H2 & H3 & H4 & H5 & H6 & H7 & H8 & H9).
  cbn [app] in H1. rewrite H1, H2, H3, H4, H5.
  repeat split; try lia. destruct skipFetch; [exact I | lia].
Qed.

Lemma report_accounts_for_every_law_witness :
  let gone : Server := fun _ _ => Response 404 [] [] [] [] in
  exists s',
    fetchAndParseLaws gone false [lfpdppp]
      (initialIngest 1000 (fun _ => None) (fun _ => None)) = Some s' /\
    map ReportRow.law (report s') = map LawIndexEntry.shortName [lfpdppp] /\
    processed s' = List.length [lfpdppp] /\
    totalProvisions s' = list_sum (map ReportRow.provisions (report s')) /\
    totalDefinitions s' = list_sum (map ReportRow.definitions (report s')) /\
    failed s' <= fallbacks s' /\
    fallbacks s' + skipped s' <= processed s' /\
    skipped s' = 0.
Proof.
  intros gone. eexists. split; [vm_compute; reflexivity|].
  apply (@report_accounts_for_every_law gone false [lfpdppp] 1000
           (fun _ => None) (fun _ => None)).
  vm_compute. reflexivity.
Defined.

Lemma writeFile_keeps {A} (d : Dir A) name (x : A) n :
  d n <> None -> writeFile d name x n <> None.
Proof.
  unfold writeFile. destruct (str_eqb n name); [discriminate | trivial].
Qed.

Lemma countProcessed_seedDir s : seedDir (countProcessed s) = seedDir s.
Proof. reflexivity. Qed.

Lemma processLaw_offline server s law :
  cachedLaw s law ->
  exists s1,
    processLaw server true s law = Some s1 /\
    world s1 = world s /\ sourceDir s1 = sourceDir s /\
    (forall n, seedDir s n <> None -> seedDir s1 n <> None) /\
    (seedDir s (seedFile law) <> None ->
     seedDir s1 = seedDir s /\ skipped s1 = S (skipped s)).
Proof.
  intros Hc. unfold processLaw.
  destruct (seedDir s (seedFile law)) as [existing|] eqn:Eseed.
  - eexists. split; [reflexivity|].
    cbn [world sourceDir seedDir skipped]. repeat split. trivial.
  - destruct Hc as [Hc|Hc]; [congruence|].
    destruct (sourceDir s (sourceFile law)) as [html|]; [|congruence].
    eexists. split; [reflexivity|].
    destruct (parseAndWrite_books law html s)
      as (row & _ & _ & _ & _ & _ & _ & _ & _ & Hw & Hs).
    cbv zeta in Hw, Hs. rewrite Hw, Hs. split; [reflexivity|]. split; [reflexivity|].
    split; [|congruence].
    intros n Hn. rewrite countProcessed_seedDir.
    destruct (parseAndWrite_effect law html s) as (p & _ & ->).
    apply writeFile_keeps. exact Hn.
Qed.

(** X22: with [--skip-fetch], a run over laws that each have a seed file or a
    source file sends no request and leaves the fetcher's state and the
    source directory as they were; when every law has a seed file, the seed
    directory is left as it was too and every law counts as cached. *)
Theorem skip_fetch_run_stays_offline (server : Server)
    (laws : list LawIndexEntry.t) (s : Ingest) :
  Forall (cachedLaw s) laws ->
  exists s',
    fetchAndParseLaws server true laws s = Some s' /\
    world s' = world s /\
    sourceDir s' = sourceDir s /\
    (Forall (fun law => seedDir s (seedFile law) <> None) laws ->
     seedDir s' = seedDir s /\ skipped s' = skipped s + List.length laws).
Proof.
  revert s. induction laws as [|law laws IH]; intros s Hall.
  - exists s. cbn [fetchAndParseLaws List.length]. repeat split. lia.
  - inversion Hall as [|? ? Hlaw Hrest]; subst.
    destruct (@processLaw_offline server s law Hlaw)
      as (s1 & E & Hw & Hs & Hkeep & Hseed).
    assert (Hall1 : Forall (cachedLaw s1) laws).
    { eapply Forall_impl; [|exact Hrest]. intros l [Hl|Hl].
      - left. apply Hkeep. exact Hl.
      - right. rewrite Hs. exact Hl. }
    destruct (IH s1 Hall1) as (s' & E' & Hw' & Hs' & Hseed').
    exists s'. cbn [fetchAndParseLaws]. rewrite E.
    split; [exact E'|]. split; [congruence|]. split; [congruence|].
    intros Hseeds. inversion Hseeds as [|? ? H1 H2]; subst.
    destruct (Hseed H1) as [Hd Hk].
    assert (H2' : Forall (fun l => seedDir s1 (seedFile l) <> None) laws)
      by (rewrite Hd; exact H2).
    destruct (Hseed' H2') as [Hd' Hk'].
    split; [congruence|]. cbn [List.length]. lia.
Qed.

Lemma skip_fetch_run_stays_offline_witness :
  let unreachable : Server := fun _ _ => Failed (js "ENOTFOUND") in
  let s := initialIngest 1000 (fun _ => Some (createFallbackSeed lfpdppp))
             (fun _ => None) in
  exists s',
    fetchAndParseLaws unreachable true [lfpdppp] s = Some s' /\
    world s' = world s /\
    sourceDir s' = sourceDir s /\
    (Forall (fun law => seedDir s (seedFile law) <> None) [lfpdppp] ->
     seedDir s' = seedDir s /\ skipped s' = skipped s + List.length [lfpdppp]).
Proof.
  intros unreachable s.
  apply (@skip_fetch_run_stays_offline unreachable [lfpdppp] s).
  constructor; [|constructor]. left. discriminate.
Defined.

(** Without [--skip-fetch]: one step from two states with the same books. *)
Lemma processLaw_sameBooks server done s1 s2 law :
  sameBooks done s1 s2 ->
  match processLaw server false s1 law, processLaw server false s2 law with
  | Some s1', Some s2' => sameBooks (law :: done) s1' s2'
  | None, None => True
  | _, _ => False
  end.
Proof.
  intros (Hw & Hr & Hp & Hk & Hf & Hfb & Htp & Htd & Hseeds).
  assert (Hkeep : forall p l, In l (law :: done) ->
            writeFile (seedDir s1) (seedFile law) p (seedFile l)
            = writeFile (seedDir s2) (seedFile law) p (seedFile l)).
  { intros p l Hl. unfold writeFile.
    destruct (str_eqb (seedFile l) (seedFile law)) eqn:E; [reflexivity|].
    destruct Hl as [<-|Hl]; [rewrite str_eqb_refl in E; discriminate|].
    apply Hseeds. exact Hl. }
  unfold processLaw. cbv beta iota. rewrite <- Hw.
  destruct (fetchLawHtml server (LawIndexEntry.code law) (world s1))
    as [[result|msg|] w]; [| |exact I].
  - cbv zeta. destruct (negb (FetchResult.status result =? 200)).
    + unfold sameBooks, countProcessed, writeFallback, setWorld. cbv zeta.
      cbn [world report processed skipped failed fallbacks totalProvisions
           totalDefinitions seedDir sourceDir].
      rewrite Hr, Hp, Hk, Hf, Hfb, Htp, Htd. repeat split. apply Hkeep.
    + unfold sameBooks, countProcessed, parseAndWrite, setWorld. cbv zeta.
      cbn [world report processed skipped failed fallbacks totalProvisions
           totalDefinitions seedDir sourceDir].
      destruct (List.length
                  (ParsedLaw.provisions
                     (parseMexicanHtml (FetchResult.body result) law)) =? 0).
      * unfold writeFallback. cbv zeta.
        cbn [world report processed skipped failed fallbacks totalProvisions
             totalDefinitions seedDir sourceDir].
        rewrite Hr, Hp, Hk, Hf, Hfb, Htp, Htd. repeat split. apply Hkeep.
      * unfold writeParsed. cbv zeta.
        cbn [world report processed skipped failed fallbacks totalProvisions
             totalDefinitions seedDir sourceDir].
        rewrite Hr, Hp, Hk, Hf, Hfb, Htp, Htd. repeat split. apply Hkeep.
  - unfold sameBooks, countProcessed, writeFallback, setWorld. cbv zeta.
    cbn [world report processed skipped failed fallbacks totalProvisions
         totalDefinitions seedDir sourceDir].
    rewrite Hr, Hp, Hk, Hf, Hfb, Htp, Htd. repeat split. apply Hkeep.
Qed.

Lemma sameBooks_more done done' s1 s2 :
  incl done' done -> sameBooks done s1 s2 -> sameBooks done' s1 s2.
Proof.
  intros Hi (H1 & H2 & H3 & H4 & H5 & H6 & H7 & H8 & H9).
  repeat split; try assumption. intros l Hl. apply H9. apply Hi. exact Hl.
Qed.

Lemma fetchAndParseLaws_sameBooks server : forall laws done s1 s2,
  sameBooks done s1 s2 ->
  match fetchAndParseLaws server false laws s1,
        fetchAndParseLaws server false laws s2 with
  | Some s1', Some s2' => sameBooks (rev laws ++ done) s1' s2'
  | None, None => True
  | _, _ => False
  end.
Proof.
  induction laws as [|law laws IH]; intros done s1 s2 H.
  - cbn [fetchAndParseLaws rev app]. exact H.
  - cbn [fetchAndParseLaws rev].
    pose proof (@processLaw_sameBooks server done s1 s2 law H) as Hstep.
    destruct (processLaw server false s1 law) as [s1'|],
             (processLaw server false s2 law) as [s2'|]; try contradiction;
      [|exact I].
    specialize (IH (law :: done) s1' s2' Hstep).
    rewrite <- app_assoc. cbn [app]. exact IH.
Qed.

(** X23: without [--skip-fetch] the files found in the seed and source
    directories have no influence on a run: started on any two pairs of
    directories it sends the same requests, writes the same report and
    counters, and leaves the same seed file for every law of the list (or
    fails to come back in both cases). *)
Theorem existing_files_are_ignored_without_skip_fetch (server : Server)
    (laws : list LawIndexEntry.t) (t0 : Z)
    (seeds1 seeds2 : Dir ParsedLaw.t) (sources1 sources2 : Dir jsstr) :
  match fetchAndParseLaws server false laws (initialIngest t0 seeds1 sources1),
        fetchAndParseLaws server false laws (initialIngest t0 seeds2 sources2)
  with
  | Some s1, Some s2 => sameBooks laws s1 s2
  | None, None => True
  | _, _ => False
  end.
Proof.
  pose proof (@fetchAndParseLaws_sameBooks server laws []
                (initialIngest t0 seeds1 sources1)
                (initialIngest t0 seeds2 sources2)) as H.
  assert (H0 : sameBooks [] (initialIngest t0 seeds1 sources1)
                 (initialIngest t0 seeds2 sources2)).
  { unfold sameBooks, initialIngest.
    cbn [world report processed skipped failed fallbacks totalProvisions
         totalDefinitions]. repeat split. intros law []. }
  specialize (H H0).
  destruct (fetchAndParseLaws server false laws (initialIngest t0 seeds1 sources1)),
           (fetchAndParseLaws server false laws (initialIngest t0 seeds2 sources2));
    try exact H.
  apply (@sameBooks_more (rev laws ++ []) laws); [|exact H].
  intros l Hl. rewrite app_nil_r. apply in_rev in Hl. exact Hl.
Qed.

Lemma distinct_NoDup l : distinct l = true -> NoDup l.
Proof.
  induction l as [|x r IH]; intros H; [constructor|].
  cbn [distinct] in H. apply andb_true_iff in H as [H1 H2].
  constructor; [|apply IH; exact H2].
  intros Hin. apply negb_true_iff in H1.
  assert (existsb (str_eqb x) r = true); [|congruence].
  apply existsb_exists. exists x. split; [exact Hin | apply str_eqb_refl].
Qed.

Lemma parseMexicanHtml_meta html law : carriesMetadata law (parseMexicanHtml html law).
Proof.
  unfold parseMexicanHtml.
  match goal with
  | |- context [if ?c then _ else _] => destruct c
  end; [apply assemble_carriesMetadata|].
  cbv zeta. destruct (extractArticles html). apply assemble_carriesMetadata.
Qed.

Lemma createFallbackSeed_own law :
  carriesMetadata law (createFallbackSeed law) /\
  1 <= List.length (ParsedLaw.provisions (createFallbackSeed law)).
Proof.
  split; [apply assemble_carriesMetadata | simpl; lia].
Qed.

Lemma parseAndWrite_own law html s :
  exists p,
    seedDir (countProcessed (parseAndWrite law html s))
    = writeFile (seedDir s) (seedFile law) p /\
    carriesMetadata law p /\ 1 <= List.length (ParsedLaw.provisions p).
Proof.
  unfold parseAndWrite. cbv zeta.
  destruct (List.length (ParsedLaw.provisions (parseMexicanHtml html law)) =? 0)
    eqn:E.
  - exists (createFallbackSeed law). split; [reflexivity|].
    apply createFallbackSeed_own.
  - exists (parseMexicanHtml html law). split; [reflexivity|].
    split; [apply parseMexicanHtml_meta|]. apply Nat.eqb_neq in E. lia.
Qed.

Lemma processLaw_own server s law s1 :
  processLaw server false s law = Some s1 ->
  exists p,
    seedDir s1 = writeFile (seedDir s) (seedFile law) p /\
    carriesMetadata law p /\ 1 <= List.length (ParsedLaw.provisions p).
Proof.
  unfold processLaw. cbv beta iota.
  destruct (fetchLawHtml server (LawIndexEntry.code law) (world s))
    as [[result|msg|] w]; [| |discriminate].
  - cbv zeta. destruct (negb (FetchResult.status result =? 200)).
    + intros H. injection H as <-. exists (createFallbackSeed law).
      split; [reflexivity | apply createFallbackSeed_own].
    + intros H. injection H as <-.
      match goal with
      | |- context [parseAndWrite law ?html ?s0] =>
          destruct (parseAndWrite_own law html s0) as (p & Hp & Hm & Hl)
      end.
      cbn [seedDir] in Hp. exists p. split; [exact Hp | split; assumption].
  - intros H. injection H as <-. exists (createFallbackSeed law).
    split; [reflexivity | apply createFallbackSeed_own].
Qed.

Lemma seedFile_inj l1 l2 :
  seedFile l1 = seedFile l2 -> LawIndexEntry.id l1 = LawIndexEntry.id l2.
Proof. unfold seedFile. apply app_inv_tail. Qed.

Lemma run_keeps_other_seeds server : forall laws s s' name,
  fetchAndParseLaws server false laws s = Some s' ->
  (forall l, In l laws -> seedFile l <> name) ->
  seedDir s' name = seedDir s name.
Proof.
  induction laws as [|law laws IH]; intros s s' name H Hother;
    cbn [fetchAndParseLaws] in H.
  - injection H as <-. reflexivity.
  - destruct (processLaw server false s law) as [s1|] eqn:E; [|discriminate].
    rewrite (IH s1 s' name H) by (intros l Hl; apply Hother; right; exact Hl).
    destruct (@processLaw_own server s law s1 E) as (p & -> & _).
    unfold writeFile.
    destruct (str_eqb name (seedFile law)) eqn:X; [|reflexivity].
    apply str_eqb_eq in X. exfalso. apply (Hother law); [left; reflexivity|].
    symmetry. exact X.
Qed.

Lemma run_own_seeds server : forall laws s s',
  NoDup (map LawIndexEntry.id laws) ->
  fetchAndParseLaws server false laws s = Some s' ->
  forall law, In law laws -> ownSeed law s'.
Proof.
  induction laws as [|law0 laws IH]; intros s s' Hnd H law Hin; [destruct Hin|].
  cbn [fetchAndParseLaws] in H. cbn [map] in Hnd.
  inversion Hnd as [|? ? Hnot Hnd']; subst.
  destruct (processLaw server false s law0) as [s1|] eqn:E; [|discriminate].
  destruct (in_dec (list_eq_dec N.eq_dec) (LawIndexEntry.id law)
              (map LawIndexEntry.id laws)) as [Hlater|Hnever].
  - destruct Hin as [<-|Hin]; [contradiction|].
    apply (IH s1 s' Hnd' H law Hin).
  - destruct Hin as [<-|Hin];
      [|exfalso; apply Hnever; apply in_map; exact Hin].
    destruct (@processLaw_own server s law0 s1 E) as (p & Hp & Hm & Hl).
    exists p. split; [|split; assumption].
    rewrite (@run_keeps_other_seeds server laws s1 s' (seedFile law0) H).
    + rewrite Hp. apply writeFile_same.
    + intros l Hl' X. apply Hnever. apply seedFile_inj in X. rewrite <- X.
      apply in_map. exact Hl'.
Qed.

(** X24: when the identifiers of the laws are pairwise distinct (as those of
    [KEY_MEXICAN_ACTS] are), a run without [--skip-fetch] that comes to its
    end leaves, for every law and whatever the server answered, a seed file
    under the law's own name whose record carries that law's metadata and
    has at least one provision: no law's seed is overwritten by another's. *)
Theorem each_law_keeps_its_own_seed (server : Server)
    (laws : list LawIndexEntry.t) (t0 : Z) (seeds : Dir ParsedLaw.t)
    (sources : Dir jsstr) (s' : Ingest) :
  NoDup (map LawIndexEntry.id laws) ->
  fetchAndParseLaws server false laws (initialIngest t0 seeds sources) = Some s' ->
  Forall (fun law => ownSeed law s') laws.
Proof.
  intros Hnd H. apply Forall_forall. intros law Hin.
  apply (@run_own_seeds server laws (initialIngest t0 seeds sources) s' Hnd H law Hin).
Qed.

Lemma each_law_keeps_its_own_seed_witness :
  let gone : Server := fun _ _ => Response 404 [] [] [] [] in
  exists s',
    main gone [] 1000 (fun _ => None) (fun _ => None) = Some s' /\
    Forall (fun law => ownSeed law s') KEY_MEXICAN_ACTS.
Proof.
  intros gone. eexists. split; [vm_compute; reflexivity|].
  apply (@each_law_keeps_its_own_seed gone KEY_MEXICAN_ACTS 1000
           (fun _ => None) (fun _ => None)).
  - apply distinct_NoDup. vm_compute. reflexivity.
  - vm_compute. reflexivity.
Defined.

(** ** First version of the fetch client, and error pages *)

Lemma simple_rateLimit_effect w :
  now (SimpleFetcher.rateLimit w)
  = Z.max (now w) (lastRequestTime w + SimpleFetcher.MIN_DELAY_MS) /\
  lastRequestTime (SimpleFetcher.rateLimit w) = now (SimpleFetcher.rateLimit w) /\
  requests (SimpleFetcher.rateLimit w) = requests w.
Proof.
  unfold SimpleFetcher.rateLimit. cbv zeta.
  destruct (now w - lastRequestTime w <? SimpleFetcher.MIN_DELAY_MS)%Z eqn:E;
    unfold sleep; cbn [now lastRequestTime requests].
  - apply Z.ltb_lt in E. repeat split. lia.
  - apply Z.ltb_ge in E. repeat split. lia.
Qed.

Lemma simple_attempts_effect text server url r : forall left attempt w,
  let out := SimpleFetcher.fetchAttempts text server url r left attempt w in
  lastRequestTime (snd out) = lastRequestTime w /\
  exists k, k <= left /\ requests (snd out) = requests w ++ repeat url k.
Proof.
  induction left as [|left IH]; intros attempt w; cbv zeta;
    cbn [SimpleFetcher.fetchAttempts doFetch].
  - split; [reflexivity|]. exists 0. split; [lia|]. simpl.
    rewrite app_nil_r. reflexivity.
  - destruct (server (List.length (requests w)) url) as [st tx bytes ct fu| |].
    + destruct (retryable st && (attempt <? r)).
      * destruct (IH (S attempt)
                    (sleep (backoff attempt)
                       (MkWorld (now w) (lastRequestTime w) (activeRequests w)
                          (requests w ++ [url])))) as (L & k & Hk & E).
        cbv zeta in L, E. rewrite L, E. split; [reflexivity|].
        exists (S k). split; [lia|]. cbn [sleep requests repeat].
        rewrite <- app_assoc. reflexivity.
      * split; [reflexivity|]. exists 1. split; [lia | reflexivity].
    + split; [reflexivity|]. exists 1. split; [lia | reflexivity].
    + split; [reflexivity|]. exists 1. split; [lia | reflexivity].
Qed.

Lemma simple_attempts_500 text server url r :
  (forall n, statusOf (server n url) = Some 500) ->
  forall left attempt w,
    attempt + left = S r -> 0 < left ->
    exists res w',
      SimpleFetcher.fetchAttempts text server url r left attempt w
      = (Returns res, w') /\
      FetchResult.status res = 500 /\
      requests w' = requests w ++ repeat url left.
Proof.
  intros Hsrv. induction left as [|left IH]; intros attempt w Hsum Hpos; [lia|].
  cbn [SimpleFetcher.fetchAttempts doFetch].
  specialize (Hsrv (List.length (requests w))) as Hs.
  destruct (server (List.length (requests w)) url) as [st tx bytes ct fu| |];
    try discriminate.
  simpl in Hs. injection Hs as ->.
  change (retryable 500) with true. cbn [andb].
  destruct (attempt <? r) eqn:E.
  - apply Nat.ltb_lt in E.
    destruct (IH (S attempt)
                (sleep (backoff attempt)
                   (MkWorld (now w) (lastRequestTime w) (activeRequests w)
                      (requests w ++ [url])))) as (res & w' & H1 & H2 & H3);
      [lia | lia |].
    exists res, w'. split; [exact H1|]. split; [exact H2|].
    rewrite H3. cbn [sleep requests repeat]. rewrite <- app_assoc. reflexivity.
  - apply Nat.ltb_ge in E. assert (left = 0) by lia. subst left.
    eexists. eexists. repeat split.
Qed.

Lemma parseMexicanHtml_errorPage html law :
  errorPage html = true ->
  ParsedLaw.provisions (parseMexicanHtml html law) = [] /\
  ParsedLaw.definitions (parseMexicanHtml html law) = [].
Proof.
  unfold errorPage, parseMexicanHtml. intros ->. split; reflexivity.
Qed.

(** X25: the first version of the client sends at most [maxRetries + 1]
    requests per call, all to the address given, and stamps a call at the
    later of the current time and the previous stamp plus 500 ms; against a
    server that answers 500 to every request it sends exactly
    [maxRetries + 1] requests and returns the result of status 500. *)
Theorem simple_client_retries_and_spacing (text : list N -> jsstr)
    (server : Server) (url : jsstr) (r : nat) (w : World) :
  let out := SimpleFetcher.fetchWithRateLimit text server url r w in
  (exists k, k <= r + 1 /\ requests (snd out) = requests w ++ repeat url k) /\
  lastRequestTime (snd out)
  = Z.max (now w) (lastRequestTime w + SimpleFetcher.MIN_DELAY_MS) /\
  ((forall n, statusOf (server n url) = Some 500) ->
   exists res,
     fst out = Returns res /\ FetchResult.status res = 500 /\
     requests (snd out) = requests w ++ repeat url (r + 1)).
Proof.
  cbv zeta. unfold SimpleFetcher.fetchWithRateLimit.
  destruct (simple_rateLimit_effect w) as (Hn & Hl & Hr).
  destruct (simple_attempts_effect text server url r (S r) 0
              (SimpleFetcher.rateLimit w)) as (L & k & Hk & E).
  cbv zeta in L, E. split; [|split].
  - exists k. split; [lia|]. rewrite E, Hr. reflexivity.
  - rewrite L, Hl, Hn. reflexivity.
  - intros Hsrv.
    destruct (@simple_attempts_500 text server url r Hsrv (S r) 0
                (SimpleFetcher.rateLimit w)) as (res & w' & H1 & H2 & H3);
      [lia | lia |].
    rewrite H1. cbn [fst snd]. exists res. split; [reflexivity|].
    split; [exact H2|]. rewrite H3, Hr.
    replace (r + 1) with (S r) by lia. reflexivity.
Qed.

Lemma simple_client_retries_and_spacing_witness :
  let text : list N -> jsstr := fun bytes => bytes in
  let server : Server := fun _ _ => Response 500 [] [] [] [] in
  let w := MkWorld 1000 900 0 [] in
  let out := SimpleFetcher.fetchWithRateLimit text server (js "https://x/") 3 w in
  exists res,
    fst out = Returns res /\ FetchResult.status res = 500 /\
    requests (snd out) = requests w ++ repeat (js "https://x/") (3 + 1).
Proof.
  intros text server w out.
  apply (@simple_client_retries_and_spacing text server (js "https://x/") 3 w).
  intros n. reflexivity.
Defined.

(** X26: a page that comes with status 200 but is an error page (it holds
    "Error 404" or "No encontrado", or has fewer than 500 code units) parses
    to no provision and no definition; the step then writes the fallback
    seed and counts a fallback, not a failure, and the page is nevertheless
    stored as the law's source file. *)
Theorem error_page_gives_stub (server : Server) (s : Ingest)
    (law : LawIndexEntry.t) (res : FetchResult.t) (w : World) :
  fetchLawHtml server (LawIndexEntry.code law) (world s) = (Returns res, w) ->
  FetchResult.status res = 200 ->
  errorPage (FetchResult.body res) = true ->
  ParsedLaw.provisions (parseMexicanHtml (FetchResult.body res) law) = [] /\
  ParsedLaw.definitions (parseMexicanHtml (FetchResult.body res) law) = [] /\
  exists s',
    processLaw server false s law = Some s' /\
    seedDir s' (seedFile law) = Some (createFallbackSeed law) /\
    sourceDir s' (sourceFile law) = Some (FetchResult.body res) /\
    fallbacks s' = S (fallbacks s) /\
    failed s' = failed s.
Proof.
  intros Hfetch Hst Herr.
  destruct (@parseMexicanHtml_errorPage (FetchResult.body res) law Herr)
    as [Hp Hd].
  split; [exact Hp|]. split; [exact Hd|].
  unfold processLaw. cbv beta iota. rewrite Hfetch. cbv zeta. rewrite Hst.
  cbn [Nat.eqb negb]. change (200 =? 200) with true. cbn [negb].
  unfold parseAndWrite. cbv zeta. rewrite Hp. cbn [List.length Nat.eqb].
  eexists. split; [reflexivity|].
  unfold countProcessed, writeFallback, setWorld. cbv zeta.
  cbn [seedDir sourceDir fallbacks failed world].
  rewrite !writeFile_same. repeat split.
Qed.

Lemma error_page_gives_stub_witness :
  let page := FetchResult.Build 200 (js "Error 404") [] (js "https://x/") in
  let server : Server := fun _ u => Response 200 (js "Error 404") [] [] (js "https://x/") in
  let s := initialIngest 1000 (fun _ => None) (fun _ => None) in
  ParsedLaw.provisions (parseMexicanHtml (FetchResult.body page) lfpdppp) = [] /\
  ParsedLaw.definitions (parseMexicanHtml (FetchResult.body page) lfpdppp) = [] /\
  exists s',
    processLaw server false s lfpdppp = Some s' /\
    seedDir s' (seedFile lfpdppp) = Some (createFallbackSeed lfpdppp) /\
    sourceDir s' (sourceFile lfpdppp) = Some (FetchResult.body page) /\
    fallbacks s' = S (fallbacks s) /\
    failed s' = failed s.
Proof.
  intros page server s.
  apply (@error_page_gives_stub server s lfpdppp page
           (MkWorld 1300 1300 0
              [js "https://www.diputados.gob.mx/LeyesBiblio/ref/lfpdppp.htm";
               js "https://www.diputados.gob.mx/LeyesBiblio/ref/lfpdppp_ref.htm"])).
  - vm_compute. reflexivity.
  - reflexivity.
  - vm_compute. reflexivity.
Defined.

(** ** Command line *)

Lemma digitsValue_app a b :
  digitsValue (a ++ b)
  = fold_left (fun acc d => (10 * acc + (Z.of_N d - 48))%Z) b (digitsValue a).
Proof. unfold digitsValue. apply fold_left_app. Qed.

Lemma digits_fuel_acc fuel : forall n acc,
  digits_fuel fuel n acc = digits_fuel fuel n [] ++ acc.
Proof.
  induction fuel as [|fuel IH]; intros n acc; cbn [digits_fuel]; [reflexivity|].
  destruct (n <? 10); [reflexivity|].
  rewrite (IH (n / 10) (_ :: acc)), (IH (n / 10) [_]), <- app_assoc. reflexivity.
Qed.

Lemma digit_of_mod n : is_digit (48 + N.of_nat (n mod 10)) = true /\
                       (Z.of_N (48 + N.of_nat (n mod 10)) - 48)%Z = Z.of_nat (n mod 10).
Proof.
  pose proof (Nat.mod_upper_bound n 10) as H.
  assert (Hlt : n mod 10 < 10) by lia. clear H.
  destruct (n mod 10) as [|[|[|[|[|[|[|[|[|[|k]]]]]]]]]]; try (split; reflexivity).
  lia.
Qed.

Lemma digits_fuel_spec fuel : forall n,
  n < fuel ->
  Forall (fun c => is_digit c = true) (digits_fuel fuel n []) /\
  digits_fuel fuel n [] <> [] /\
  digitsValue (digits_fuel fuel n []) = Z.of_nat n.
Proof.
  induction fuel as [|fuel IH]; intros n Hn; [lia|].
  cbn [digits_fuel]. destruct (digit_of_mod n) as [Hd Hv].
  destruct (n <? 10) eqn:E.
  - apply Nat.ltb_lt in E. split; [constructor; [exact Hd | constructor]|].
    split; [discriminate|]. unfold digitsValue. cbn [fold_left].
    rewrite Hv, Nat.mod_small by exact E. lia.
  - apply Nat.ltb_ge in E. rewrite digits_fuel_acc.
    assert (Hq : n / 10 < fuel).
    { pose proof (Nat.div_lt n 10). lia. }
    destruct (IH (n / 10) Hq) as (H1 & H2 & H3).
    split; [apply Forall_app; split; [exact H1 | constructor; [exact Hd | constructor]]|].
    split; [intros H; apply app_eq_nil in H as [H _]; contradiction|].
    rewrite digitsValue_app, H3. cbn [fold_left]. rewrite Hv.
    pose proof (Nat.div_mod_eq n 10). lia.
Qed.

Lemma showNat_spec n :
  Forall (fun c => is_digit c = true) (showNat n) /\
  showNat n <> [] /\
  digitsValue (showNat n) = Z.of_nat n.
Proof. unfold showNat. apply digits_fuel_spec. lia. Qed.

Lemma takeDigits_all s :
  Forall (fun c => is_digit c = true) s -> takeDigits s = s.
Proof.
  induction 1 as [|c s Hc _ IH]; [reflexivity|]. cbn [takeDigits].
  rewrite Hc, IH. reflexivity.
Qed.

Lemma digit_plain c :
  is_digit c = true ->
  is_space c = false /\ (c =? 45)%N = false /\ (c =? 43)%N = false.
Proof.
  unfold is_digit, is_space. intros H. apply andb_true_iff in H as [H1 H2].
  apply N.leb_le in H1, H2.
  repeat split;
    repeat (apply orb_false_iff; split);
    try (apply andb_false_iff; right; apply N.leb_gt; lia);
    try (apply andb_false_iff; left; apply N.leb_gt; lia);
    apply N.eqb_neq; lia.
Qed.

(** Reading back a number written in decimal. *)
Lemma parseInt10_showNat n : parseInt10 (showNat n) = Int (Z.of_nat n).
Proof.
  destruct (showNat_spec n) as (Hd & Hne & Hv).
  unfold parseInt10. cbv zeta.
  destruct (showNat n) as [|c s] eqn:E; [contradiction|].
  inversion Hd as [|? ? Hc Hs]; subst.
  destruct (digit_plain c Hc) as (H1 & H2 & H3).
  cbn [trimStart]. rewrite H1, H2, H3.
  rewrite (takeDigits_all Hd). rewrite Hv. reflexivity.
Qed.

Lemma firstn_prefix {A} k (l : list A) : exists k', k' <= List.length l /\ firstn k l = firstn k' l.
Proof.
  destruct (Nat.le_gt_cases k (List.length l)) as [H|H].
  - exists k. split; [exact H | reflexivity].
  - exists (List.length l). split; [lia|].
    rewrite firstn_all, firstn_all2 by lia. reflexivity.
Qed.

Lemma parseArgsFrom_no_limit args : forall limit skipFetch,
  existsb (fun a => str_eqb a (js "--limit")) args = false ->
  parseArgsFrom args limit skipFetch
  = (limit, skipFetch || existsb (fun a => str_eqb a (js "--skip-fetch")) args).
Proof.
  induction args as [|a rest IH]; intros limit skipFetch H.
  - cbn [parseArgsFrom existsb]. rewrite orb_false_r. reflexivity.
  - cbn [existsb] in H. apply orb_false_iff in H as [Ha Hrest].
    cbn [parseArgsFrom existsb]. cbv zeta. rewrite Ha.
    destruct (str_eqb a (js "--skip-fetch")).
    + rewrite IH by exact Hrest. cbn [orb]. rewrite orb_true_r. reflexivity.
    + rewrite IH by exact Hrest. reflexivity.
Qed.

Lemma KEY_MEXICAN_ACTS_length : List.length KEY_MEXICAN_ACTS = 10.
Proof. reflexivity. Qed.

Lemma sliceTo_prefix {A} z (l : list A) :
  exists k, k <= List.length l /\ sliceTo z l = firstn k l.
Proof. unfold sliceTo. cbv zeta. destruct (z <? 0)%Z; apply firstn_prefix. Qed.

Lemma selectLaws_prefix limit :
  exists k, k <= 10 /\ selectLaws limit = firstn k KEY_MEXICAN_ACTS.
Proof.
  assert (Hall : exists k, k <= 10 /\ KEY_MEXICAN_ACTS = firstn k KEY_MEXICAN_ACTS).
  { exists (List.length KEY_MEXICAN_ACTS).
    split; [rewrite KEY_MEXICAN_ACTS_length; lia|]. symmetry. apply firstn_all. }
  unfold selectLaws. destruct limit as [[|z]|]; try exact Hall.
  destruct (z =? 0)%Z; [exact Hall|].
  destruct (sliceTo_prefix z KEY_MEXICAN_ACTS) as (k & Hk & E).
  rewrite KEY_MEXICAN_ACTS_length in Hk. exists k. split; assumption.
Qed.

Lemma sliceTo_nat {A} n (l : list A) :
  sliceTo (Z.of_nat n) l = firstn n l.
Proof.
  unfold sliceTo. cbv zeta.
  replace (Z.of_nat n <? 0)%Z with false by (symmetry; apply Z.ltb_ge; lia).
  destruct (Nat.le_gt_cases n (List.length l)) as [H|H].
  - rewrite Z.min_l by lia. rewrite Nat2Z.id. reflexivity.
  - rewrite Z.min_r by lia. rewrite Nat2Z.id.
    rewrite firstn_all, firstn_all2 by lia. reflexivity.
Qed.

(** X27: the laws a run goes through are always the first k entries of
    [KEY_MEXICAN_ACTS].  ["--limit n"] with n written in decimal selects the
    first n entries, except that n = 0 selects all of them; without
    ["--limit"] all entries are selected and [--skip-fetch] is recognised
    wherever it stands; a ["--limit"] directly followed by ["--skip-fetch"]
    takes it for its value, so that neither option has any effect. *)
Theorem limit_option (n : nat) (argv : list jsstr) :
  (exists k, k <= 10 /\ lawsOfRun argv = firstn k KEY_MEXICAN_ACTS) /\
  lawsOfRun [js "--limit"; showNat n]
  = (if n =? 0 then KEY_MEXICAN_ACTS else firstn n KEY_MEXICAN_ACTS) /\
  (existsb (fun a => str_eqb a (js "--limit")) argv = false ->
   parseArgs argv
   = (None, existsb (fun a => str_eqb a (js "--skip-fetch")) argv)) /\
  parseArgs [js "--limit"; js "--skip-fetch"] = (Some NaN, false) /\
  lawsOfRun [js "--limit"; js "--skip-fetch"] = KEY_MEXICAN_ACTS.
Proof.
  split; [apply selectLaws_prefix|]. split; [|split; [|split]].
  - unfold lawsOfRun, parseArgs. cbn [parseArgsFrom]. cbv zeta.
    rewrite str_eqb_refl.
    destruct (showNat_spec n) as (_ & Hne & _).
    pose proof (parseInt10_showNat n) as Hp.
    destruct (showNat n) as [|c s]; [contradiction|].
    cbn [fst]. rewrite Hp. unfold selectLaws.
    destruct n as [|n]; [reflexivity|].
    replace (Z.of_nat (S n) =? 0)%Z with false by (symmetry; apply Z.eqb_neq; lia).
    cbn [Nat.eqb]. apply sliceTo_nat.
  - intros H. unfold parseArgs. rewrite parseArgsFrom_no_limit by exact H.
    reflexivity.
  - vm_compute. reflexivity.
  - vm_compute. reflexivity.
Qed.

Lemma limit_option_witness :
  parseArgs [js "--skip-fetch"; js "--verbose"]
  = (None, existsb (fun a => str_eqb a (js "--skip-fetch"))
             [js "--skip-fetch"; js "--verbose"]).
Proof.
  apply (@limit_option 5 [js "--skip-fetch"; js "--verbose"]).
  vm_compute. reflexivity.
Defined.
